(** * Stock-gate back end: invoice line matching and stock reconciliation

    A shallow embedding of the Express server of the back end
    (helpers [normalizeText], [extractNumbers], [levenshtein],
    [similarityScore]; routes [/api/add-stock], [/api/match-products],
    [/api/save-mapping]) together with the properties its design
    document states about them.

    Conventions.
    - A JavaScript string is a list of code units; the development covers
      the code units U+0000..U+00FF, one [ascii] each.
    - A JavaScript Number that takes part in arithmetic is an IEEE-754
      binary64 value, [spec_float] with precision 53 and [emax] 1024, and
      every operation is the correctly rounded one of [SpecFloat].
    - A PostgreSQL table is the list of its rows in scan order. *)

From Stdlib Require Import ZArith List Ascii String Bool Arith Lia Permutation.
From Stdlib Require Import Floats.SpecFloat.
From Stdlib Require QArith Qround Qminmax.
Import ListNotations.

(* ================================================================== *)
(** * Part I. The program *)
(* ================================================================== *)

(** ** JavaScript strings *)

Definition str := list ascii.

(** A string literal of the source text. *)
Definition lit (s : string) : str := list_ascii_of_string s.

Definition str_eqb (a b : str) : bool :=
  if list_eq_dec ascii_dec a b then true else false.

(** Truthiness of a string: only the empty string is falsy. *)
Definition nonempty (s : str) : bool :=
  match s with [] => false | _ :: _ => true end.

Module Text.

Definition code (c : ascii) : nat := nat_of_ascii c.

Definition between (lo hi : nat) (c : ascii) : bool :=
  (lo <=? code c) && (code c <=? hi).

(** [a-z] and [0-9] of the regular expressions. *)
Definition is_lower_az (c : ascii) : bool := between 97 122 c.
Definition is_digit (c : ascii) : bool := between 48 57 c.

(** [\s], and the characters [trim] strips: TAB, LF, VT, FF, CR, SPACE
    and NO-BREAK SPACE are the ones below U+0100. *)
Definition is_space (c : ascii) : bool :=
  between 9 13 c || (code c =? 32) || (code c =? 160).

Definition space : ascii := " "%char.

(** [String.prototype.toLowerCase] on one code unit: [A-Z], and the
    capital letters U+00C0..U+00DE of Latin-1 except the multiplication
    sign U+00D7, move 32 places up. *)
Definition lower_char (c : ascii) : ascii :=
  if between 65 90 c || (between 192 222 c && negb (code c =? 215))
  then ascii_of_nat (code c + 32)
  else c.

Definition toLowerCase (s : str) : str := map lower_char s.

(** [.replace(/[^a-z0-9\s]/g, " ")] *)
Definition keep_char (c : ascii) : bool :=
  is_lower_az c || is_digit c || is_space c.

Definition replace_other (s : str) : str :=
  map (fun c => if keep_char c then c else space) s.

(** [.replace(/\s+/g, " ")]: [in_run] tells that the previous code unit
    belonged to the run of white space being replaced. *)
Fixpoint collapse_from (in_run : bool) (s : str) : str :=
  match s with
  | [] => []
  | c :: r =>
      if is_space c
      then if in_run then collapse_from true r
           else space :: collapse_from true r
      else c :: collapse_from false r
  end.

Definition collapse_spaces (s : str) : str := collapse_from false s.

(** [.trim()] *)
Fixpoint trim_start (s : str) : str :=
  match s with
  | [] => []
  | c :: r => if is_space c then trim_start r else s
  end.

Definition trim_end (s : str) : str := rev (trim_start (rev s)).

Definition trim (s : str) : str := trim_end (trim_start s).

Definition normalizeText (text : str) : str :=
  trim (collapse_spaces (replace_other (toLowerCase text))).

(** [text.match(/\d+(?:\.\d+)?/g)], scanned left to right.  The scanner
    is in one of four places of the pattern. *)
Inductive scan_state :=
| Idle                    (* no match in progress *)
| InInt (acc : str)       (* inside the first [\d+], [acc] reversed *)
| SawDot (acc : str)      (* first [\d+] read, then a dot *)
| InFrac (acc : str).     (* inside the [\d+] after the dot, reversed *)

Fixpoint scan_numbers (st : scan_state) (s : str) : list str :=
  match s with
  | [] =>
      match st with
      | Idle => []
      | InInt acc | SawDot acc | InFrac acc => [rev acc]
      end
  | c :: r =>
      match st with
      | Idle =>
          if is_digit c then scan_numbers (InInt [c]) r
          else scan_numbers Idle r
      | InInt acc =>
          if is_digit c then scan_numbers (InInt (c :: acc)) r
          else if Ascii.eqb c "."%char then scan_numbers (SawDot acc) r
          else rev acc :: scan_numbers Idle r
      | SawDot acc =>
          if is_digit c
          then scan_numbers (InFrac (c :: "."%char :: acc)) r
          else rev acc :: scan_numbers Idle r
      | InFrac acc =>
          if is_digit c then scan_numbers (InFrac (c :: acc)) r
          else rev acc :: scan_numbers Idle r
      end
  end.

Definition extractNumbers (text : str) : list str := scan_numbers Idle text.

(** [s.split(" ")]: the pieces between the single-space separators, empty
    pieces included. *)
Fixpoint split_from (cur : str) (s : str) : list str :=
  match s with
  | [] => [rev cur]
  | c :: r =>
      if Ascii.eqb c space then rev cur :: split_from [] r
      else split_from (c :: cur) r
  end.

Definition split_space (s : str) : list str := split_from [] s.

(** A string in which white space occurs only as single [" "]; [prev]
    tells that a space was just read. *)
Fixpoint single_spaced (prev : bool) (s : str) : bool :=
  match s with
  | [] => true
  | c :: r =>
      if is_space c
      then negb prev && Ascii.eqb c space && single_spaced true r
      else single_spaced false r
  end.

(** The first code unit, if any, is no white space. *)
Definition starts_clean (s : str) : bool :=
  match s with
  | [] => true
  | c :: _ => negb (is_space c)
  end.

End Text.

(** ** Edit distance *)

Module Levenshtein.

Definition cost (x y : ascii) : nat := if Ascii.eqb x y then 0 else 1.

(** Row 0 of the table: [dp[0][j] = j] for [j = 0..n]. *)
Definition first_row (n : nat) : list nat := seq 0 (S n).

(** The inner loop for one [i]: [prev] is row [i-1] from column [j-1]
    on, [left] is [dp[i][j-1]], [b] the characters [b[j-1]], ... still to
    be visited.  The result is row [i] from column [j] on. *)
Fixpoint fill_row (x : ascii) (b : str) (prev : list nat) (left : nat)
  : list nat :=
  match b, prev with
  | y :: b', diag :: ((up :: _) as prev') =>
      let v := Nat.min (up + 1) (Nat.min (left + 1) (diag + cost x y)) in
      v :: fill_row x b' prev' v
  | _, _ => []
  end.

(** Row [i], given row [i-1]: [dp[i][0] = i], then the inner loop. *)
Definition next_row (i : nat) (x : ascii) (b : str) (prev : list nat)
  : list nat :=
  i :: fill_row x b prev i.

(** The outer loop, from row [i] on; [prev] is row [i-1]. *)
Fixpoint rows_from (i : nat) (a b : str) (prev : list nat) : list nat :=
  match a with
  | [] => prev
  | x :: a' => rows_from (S i) a' b (next_row i x b prev)
  end.

Definition levenshtein (a b : str) : nat :=
  let m := List.length a in
  let n := List.length b in
  if m =? 0 then n
  else if n =? 0 then m
  else last (rows_from 1 a b (first_row n)) 0.

(** Modelled from the spec: the recurrence of the classic edit distance
    (unit-cost insertion, deletion and substitution) between the prefix
    of length [i] of [a] and the prefix of length [j] of [b]. *)
Fixpoint prefix_distance (a b : str) (i j : nat) {struct i} : nat :=
  match i with
  | 0 => j
  | S i' =>
      (fix column (j : nat) : nat :=
         match j with
         | 0 => S i'
         | S j' =>
             Nat.min (prefix_distance a b i' (S j') + 1)
               (Nat.min (column j' + 1)
                  (prefix_distance a b i' j'
                   + cost (nth i' a zero) (nth j' b zero)))
         end) j
  end.

(** Modelled from the spec: the edit distance of two strings. *)
Definition edit_distance (a b : str) : nat :=
  prefix_distance a b (List.length a) (List.length b).

End Levenshtein.

(** ** JavaScript Numbers *)

Module Float64.
Local Open Scope Z_scope.

Definition prec : Z := 53.
Definition emax : Z := 1024.

Definition number := spec_float.

Definition add : number -> number -> number := SFadd prec emax.
Definition sub : number -> number -> number := SFsub prec emax.
Definition mul : number -> number -> number := SFmul prec emax.
Definition div : number -> number -> number := SFdiv prec emax.

(** The Number of an integer: exact below 2^53 in magnitude. *)
Definition of_Z (z : Z) : number := binary_normalize prec emax z 0 false.
Definition of_nat (n : nat) : number := of_Z (Z.of_nat n).

(** The decimal literals of the scorer, to the nearest Number. *)
Definition lit_0_6 : number := Eval vm_compute in div (of_Z 6) (of_Z 10).
Definition lit_0_4 : number := Eval vm_compute in div (of_Z 4) (of_Z 10).
Definition lit_0_1 : number := Eval vm_compute in div (of_Z 1) (of_Z 10).

Definition is_nan (x : number) : bool :=
  match x with S754_nan => true | _ => false end.

(** Truthiness of a Number: [NaN], [+0] and [-0] are falsy. *)
Definition truthy (x : number) : bool :=
  match x with
  | S754_nan | S754_zero _ => false
  | _ => true
  end.

Definition ltb : number -> number -> bool := SFltb.

(** [floor (v + 1/2)] for [v = n * 2^(-k)]. *)
Definition round_half_up (n : Z) (k : Z) : Z :=
  (2 * n + 2 ^ k) / 2 ^ (k + 1).

(** [Math.round]: an integral or non-finite argument is returned as it
    is; an argument in [-0.5, 0) gives [-0]; otherwise the nearest
    integer, the one towards +Infinity in a tie. *)
Definition Math_round (x : number) : number :=
  match x with
  | S754_finite s m e =>
      if 0 <=? e then x
      else
        let n := round_half_up (if s then Z.neg m else Z.pos m) (- e) in
        if n =? 0 then S754_zero s else of_Z n
  | _ => x
  end.

Definition is_neg_zero (x : number) : bool :=
  match x with S754_zero true => true | _ => false end.

(** [Math.min] and [Math.max] of two Numbers: [NaN] is contagious and
    [-0] counts as smaller than [+0]. *)
Definition Math_min (x y : number) : number :=
  match SFcompare x y with
  | None => S754_nan
  | Some Lt => x
  | Some Gt => y
  | Some Eq => if is_neg_zero x then x else y
  end.

Definition Math_max (x y : number) : number :=
  match SFcompare x y with
  | None => S754_nan
  | Some Lt => y
  | Some Gt => x
  | Some Eq => if is_neg_zero x then y else x
  end.

(** A Number of sign [s]: a zero, an infinity or finite, not [NaN]. *)
Definition signed (s : bool) (x : number) : Prop :=
  match x with
  | S754_zero s' | S754_infinity s' | S754_finite s' _ _ => s' = s
  | S754_nan => False
  end.


(** A zero, or finite with at most 53 digits and an exponent up to [k]. *)
Definition bounded_by (k : Z) (x : number) : Prop :=
  match x with
  | S754_zero _ => True
  | S754_finite _ m e => Zdigits2 (Z.pos m) <= 53 /\ e <= k
  | _ => False
  end.

(** Not [NaN]; and a mantissa of at most 53 digits when finite. *)
Definition not_nan (x : number) : Prop := x <> S754_nan.

Definition finite_53 (x : number) : Prop :=
  match x with
  | S754_finite _ m _ => Zdigits2 (Z.pos m) <= 53
  | _ => True
  end.

End Float64.

(** ** The similarity scorer *)

Module Scorer.
Import Text Levenshtein Float64.

(** [new Set(xs)]: the distinct elements in order of first insertion. *)
Definition set_has (s : list str) (x : str) : bool := existsb (str_eqb x) s.

Definition set_add (s : list str) (x : str) : list str :=
  if set_has s x then s else s ++ [x].

Definition Set_of (xs : list str) : list str := fold_left set_add xs [].

(** [qTokens.forEach(token => { if (cTokens.has(token)) overlap += 1 })] *)
Definition count_overlap (qTokens cTokens : list str) : nat :=
  fold_left (fun overlap token =>
               if set_has cTokens token then overlap + 1 else overlap)
            qTokens 0.

(** [n || 1] on a size or length. *)
Definition or_one (n : nat) : nat := if n =? 0 then 1 else n.

(** [qNums.some(n => cNums.includes(n))] *)
Definition hasNumberMatch (qNums cNums : list str) : bool :=
  existsb (fun n => existsb (str_eqb n) cNums) qNums.

(** [0.6 * levenshteinScore + 0.4 * tokenScore + (hasNumberMatch ? 0.1 : 0)] *)
Definition blend (levenshteinScore tokenScore : number) (bonus : bool)
  : number :=
  add (add (mul lit_0_6 levenshteinScore) (mul lit_0_4 tokenScore))
      (if bonus then lit_0_1 else of_Z 0).

(** The arithmetic of [similarityScore], from the four counts and the
    flag on. *)
Definition score_from (distance maxLen overlap union : nat) (bonus : bool)
  : number :=
  let levenshteinScore :=
    sub (of_Z 1) (div (of_nat distance) (of_nat maxLen)) in
  let tokenScore := div (of_nat overlap) (of_nat union) in
  let blended := blend levenshteinScore tokenScore bonus in
  Math_max (of_Z 0)
    (Math_min (of_Z 100) (Math_round (mul blended (of_Z 100)))).

Definition similarityScore (query candidate : str) : number :=
  let q := normalizeText query in
  let c := normalizeText candidate in
  if negb (nonempty q) || negb (nonempty c) then of_Z 0
  else
    let distance := levenshtein q c in
    let maxLen := or_one (Nat.max (List.length q) (List.length c)) in
    let levenshteinScore :=
      sub (of_Z 1) (div (of_nat distance) (of_nat maxLen)) in
    let qTokens := Set_of (split_space q) in
    let cTokens := Set_of (split_space c) in
    let overlap := count_overlap qTokens cTokens in
    let union := or_one (List.length (Set_of (qTokens ++ cTokens))) in
    let tokenScore := div (of_nat overlap) (of_nat union) in
    let qNums := extractNumbers query in
    let cNums := extractNumbers candidate in
    let blended :=
      blend levenshteinScore tokenScore (hasNumberMatch qNums cNums) in
    Math_max (of_Z 0)
      (Math_min (of_Z 100) (Math_round (mul blended (of_Z 100)))).

(** The engines keep the length of a string below 2^32 code units. *)
Definition representable (s : str) : Prop :=
  (Z.of_nat (List.length s) < 2 ^ 32)%Z.

End Scorer.

(** ** The reference definition of the score *)

Module Reference.
Import Text Levenshtein Float64 Scorer.

Definition str_dec : forall a b : str, {a = b} + {a <> b} :=
  list_eq_dec ascii_dec.

(** Modelled from the spec: the words of a string, its maximal runs of
    code units that are no white space; [cur] is the run being read,
    reversed. *)
Fixpoint words_from (cur : str) (s : str) : list str :=
  match s with
  | [] => match cur with [] => [] | _ :: _ => [rev cur] end
  | c :: r =>
      if is_space c
      then match cur with
           | [] => words_from [] r
           | _ :: _ => rev cur :: words_from [] r
           end
      else words_from (c :: cur) r
  end.

Definition words (s : str) : list str := words_from [] s.

(** Modelled from the spec: the set of the words of a string, each word
    once. *)
Definition token_set (s : str) : list str := nodup str_dec (words s).

Definition member (x : str) (l : list str) : bool :=
  if in_dec str_dec x l then true else false.

(** Modelled from the spec: intersection and union of two sets. *)
Definition intersection (a b : list str) : list str :=
  filter (fun x => member x b) a.

Definition union (a b : list str) : list str := nodup str_dec (a ++ b).

(** Modelled from the spec: some numeric token of the raw query is a
    numeric token of the raw candidate. *)
Definition shares_number (query candidate : str) : bool :=
  existsb (fun n => member n (extractNumbers candidate))
          (extractNumbers query).



End Reference.

(** ** The reference definition on exact rationals *)

Module Exact.
Import Text Levenshtein Reference.
Import QArith_base Qround Qminmax.
Local Close Scope Q_scope.

(** Modelled from the spec: the same steps on exact rationals, with 0.6,
    0.4 and 0.1 the decimal fractions themselves and [round] the nearest
    integer, a tie going up. *)
Definition exact_score (query candidate : str) : Z :=
  let q := normalizeText query in
  let c := normalizeText candidate in
  match q, c with
  | [], _ | _, [] => 0%Z
  | _ :: _, _ :: _ =>
      let ratio (n d : nat) : Q :=
        Qmake (Z.of_nat n) (Pos.of_nat d) in
      let editScore :=
        (1 - ratio (edit_distance q c)
                   (Nat.max (Nat.max (List.length q) (List.length c)) 1))%Q in
      let common := intersection (token_set q) (token_set c) in
      let all := union (token_set q) (token_set c) in
      let tokenScore :=
        ratio (List.length common) (Nat.max (List.length all) 1) in
      let bonus := if shares_number query candidate then (1 # 10)%Q else 0%Q in
      let raw := ((6 # 10) * editScore + (4 # 10) * tokenScore + bonus)%Q in
      Qfloor (100 * Qmax 0 (Qmin 1 raw) + (1 # 2))%Q
  end.

End Exact.

(** ** The database *)

Module Db.
Import Float64.
Local Open Scope Z_scope.

(** A row of [products].  [full_stock_value] is generated from
    [quantity] and [unit_price] and is no column of its own here. *)
Record product := mkProduct {
  p_id : Z;
  p_reference : option str;
  p_description : str;
  p_quantity : option Z;
  p_unit_price : option number;
  p_unit : option str;
  p_category : option str;
  p_last_updated : option Z
}.

(** A row of [invoices], with the two columns [ensureInvoiceColumns]
    adds. *)
Record invoice := mkInvoice {
  i_id : Z;
  i_invoice_number : option str;
  i_supplier_name : option str;
  i_total_amount : number;
  i_invoice_date : option str;
  i_created_at : Z
}.

(** A row of [supplier_mappings]. *)
Record mapping := mkMapping {
  m_id : Z;
  m_supplier_name : str;
  m_supplier_name_normalized : str;
  m_product_id : Z;
  m_supplier_id : option str;
  m_created_at : Z
}.

(** The tables a transaction works on. *)
Record tables := mkTables {
  products : list product;
  invoices : list invoice
}.

(** The database: the committed tables, and the SERIAL sequences, which
    no rollback winds back. *)
Record db := mkDb {
  committed : tables;
  supplier_mappings : list mapping;
  products_id_seq : Z;
  invoices_id_seq : Z;
  supplier_mappings_id_seq : Z
}.

(** The range of an INTEGER column. *)
Definition in_int4 (z : Z) : bool := (- 2 ^ 31 <=? z) && (z <? 2 ^ 31).

End Db.

(** ** Reconciliation: [POST /api/add-stock] *)

(** The parsers of the runtime, which the handlers apply to the fields of
    a request body.  [parse_int] is [parseInt] with [None] for [NaN];
    the Numbers it returns are integers. *)
Class JsParsers := {
  jsval : Type;
  parse_int : jsval -> option Z;
  parse_float : jsval -> Float64.number
}.

Module Stock.
Import Float64 Db.
Local Open Scope Z_scope.

Section WithParsers.
Context {P : JsParsers}.

Record item := mkItem {
  item_description : option str;
  item_quantity : jsval;
  item_unit_price : jsval;
  item_unit : option str;
  item_reference : option str
}.

Record invoice_info := mkInvoiceInfo {
  invoice_number : option str;
  supplier_name : option str;
  buyer_name : option str;
  total_ttc : jsval;
  invoice_date : option str
}.

Record request := mkRequest {
  items : list item;
  invoiceInfo : option invoice_info
}.

(** [parseInt(v) || 0] *)
Definition int_or_0 (v : jsval) : Z :=
  match parse_int v with Some n => n | None => 0 end.

(** [parseFloat(v) || 0] *)
Definition float_or_0 (v : jsval) : number :=
  let x := parse_float v in if truthy x then x else of_Z 0.

(** [s || t] on optional strings: [undefined], [null] and [""] are
    falsy. *)
Definition str_or (s : option str) (t : option str) : option str :=
  match s with
  | Some (_ :: _) => s
  | _ => t
  end.

(** [s || ''] *)
Definition str_or_empty (s : option str) : str :=
  match s with Some v => v | None => [] end.

(** The statements the handler sends over its client. *)
Inductive statement :=
| BEGIN
| COMMIT
| InsertInvoice (number : option str) (supplier : option str)
    (total : Float64.number) (date : option str)
| SelectProductsByDescription (d : option str)
| UpdateProductQuantity (q : Z) (id : Z)
| InsertProduct (ref : str) (d : option str) (q : Z)
    (price : Float64.number) (u : str).

(** The state of the client between [pool.connect] and [release]: the
    working copy of the tables, the sequences, and the log of the
    statements issued so far, each with whether it went through. *)
Record session := mkSession {
  work : tables;
  next_product_id : Z;
  next_invoice_id : Z;
  log : list (statement * bool)
}.

(** [UPDATE products SET quantity = q, last_updated = CURRENT_TIMESTAMP
    WHERE id = id] *)
Definition update_quantity (now q id : Z) (ps : list product)
  : list product :=
  map (fun r =>
         if p_id r =? id
         then mkProduct (p_id r) (p_reference r) (p_description r)
                (Some q) (p_unit_price r) (p_unit r) (p_category r)
                (Some now)
         else r) ps.

(** What a statement does when the server accepts it: the rows it
    returns and the session after it.  [None] when a constraint the
    rows depend on rejects it: NOT NULL of [description], the INTEGER
    range of [quantity]. *)
Definition apply_statement (now : Z) (st : statement) (s : session)
  : option (list product * session) :=
  let t := work s in
  match st with
  | BEGIN | COMMIT => Some ([], s)
  | InsertInvoice number supplier total date =>
      let row := mkInvoice (next_invoice_id s) number supplier total
                   date now in
      Some ([], mkSession (mkTables (products t) (invoices t ++ [row]))
                  (next_product_id s) (next_invoice_id s + 1) (log s))
  | SelectProductsByDescription d =>
      match d with
      | Some text =>
          Some (filter (fun r => str_eqb (p_description r) text)
                  (products t), s)
      | None => Some ([], s)
      end
  | UpdateProductQuantity q id =>
      if in_int4 q
      then Some ([], mkSession
                       (mkTables (update_quantity now q id (products t))
                          (invoices t))
                       (next_product_id s) (next_invoice_id s) (log s))
      else None
  | InsertProduct ref d q price u =>
      match d with
      | Some text =>
          if in_int4 q
          then
            let row := mkProduct (next_product_id s) (Some ref) text
                         (Some q) (Some price) (Some u)
                         (Some (lit "General")) (Some now) in
            Some ([], mkSession
                        (mkTables (products t ++ [row]) (invoices t))
                        (next_product_id s + 1) (next_invoice_id s)
                        (log s))
          else None
      | None => None
      end
  end.

(** Every other reason for which a statement throws (a lost connection,
    a value a column type refuses, a time-out) is the environment's:
    [faults k st] tells that the statement [st], issued as the [k]-th
    of the request, throws. *)
Definition environment := nat -> statement -> bool.

Definition logged (st : statement) (ok : bool) (s : session) : session :=
  mkSession (work s) (next_product_id s) (next_invoice_id s)
    (log s ++ [(st, ok)]).

(** A computation on the client: [None] is a thrown exception. *)
Definition M (A : Type) : Type := session -> option A * session.

Definition ret {A} (a : A) : M A := fun s => (Some a, s).

Definition bind {A B} (m : M A) (k : A -> M B) : M B :=
  fun s =>
    match m s with
    | (Some a, s') => k a s'
    | (None, s') => (None, s')
    end.

Notation "x <- m ;; k" := (bind m (fun x => k))
  (at level 61, m at next level, right associativity).

(** [await client.query(...)] *)
Definition query (faults : environment) (now : Z) (st : statement)
  : M (list product) :=
  fun s =>
    if faults (List.length (log s)) st then (None, logged st false s)
    else
      match apply_statement now st s with
      | Some (rows, s') => (Some rows, logged st true s')
      | None => (None, logged st false s)
      end.

(** The body of the [for (const item of items)] loop. *)
Definition upsert_item (faults : environment) (now : Z) (it : item)
  : M unit :=
  let qty := int_or_0 (item_quantity it) in
  let price := float_or_0 (item_unit_price it) in
  check <- query faults now (SelectProductsByDescription (item_description it)) ;;
  match check with
  | row :: _ =>
      let currentQty := match p_quantity row with Some q => q | None => 0 end in
      _ <- query faults now (UpdateProductQuantity (currentQty + qty) (p_id row)) ;;
      ret tt
  | [] =>
      _ <- query faults now
             (InsertProduct (str_or_empty (item_reference it)) (item_description it)
                qty price (str_or_empty (item_unit it))) ;;
      ret tt
  end.

Fixpoint for_each (faults : environment) (now : Z) (its : list item)
  : M unit :=
  match its with
  | [] => ret tt
  | it :: rest =>
      _ <- upsert_item faults now it ;;
      for_each faults now rest
  end.

(** [if (invoiceInfo) { ... INSERT INTO invoices ... }] *)
Definition save_invoice (faults : environment) (now : Z)
    (info : option invoice_info) : M unit :=
  match info with
  | Some i =>
      let supplierName := str_or (supplier_name i) (str_or (buyer_name i) None) in
      let invoiceDate := str_or (invoice_date i) None in
      _ <- query faults now
             (InsertInvoice (invoice_number i) supplierName
                (float_or_0 (total_ttc i)) invoiceDate) ;;
      ret tt
  | None => ret tt
  end.

(** The [try] block. *)
Definition transaction (faults : environment) (now : Z) (req : request)
  : M unit :=
  _ <- query faults now BEGIN ;;
  _ <- save_invoice faults now (invoiceInfo req) ;;
  _ <- for_each faults now (items req) ;;
  _ <- query faults now COMMIT ;;
  ret tt.

Inductive response :=
| StockUpdated        (* 200 { success: true, message: "Stock updated successfully" } *)
| TransactionFailed.  (* 500 { error: "Transaction failed" } *)

Definition open_session (d : db) : session :=
  mkSession (committed d) (products_id_seq d) (invoices_id_seq d) [].

(** The handler.  A normal end of the [try] block has passed [COMMIT]
    and the working copy becomes the committed tables; the [catch]
    block sends [ROLLBACK], which is taken to go through, and the
    working copy is dropped.  The third component is the log of the
    statements of the [try] block. *)
Definition add_stock (faults : environment) (now : Z) (d : db)
    (req : request) : response * db * list (statement * bool) :=
  let '(r, s) := transaction faults now req (open_session d) in
  match r with
  | Some _ =>
      (StockUpdated,
       mkDb (work s) (supplier_mappings d) (next_product_id s)
         (next_invoice_id s) (supplier_mappings_id_seq d),
       log s)
  | None =>
      (TransactionFailed,
       mkDb (committed d) (supplier_mappings d) (next_product_id s)
         (next_invoice_id s) (supplier_mappings_id_seq d),
       log s)
  end.

(** *** The upsert as the design document words it

    "Look up an existing Product by exact description match; if found,
    increment its quantity by the item's quantity; if not found, insert
    a new Product with the given reference, description, quantity,
    price and unit."  The state is the table and the next identifier. *)

(** Modelled from the spec: a product with its quantity incremented. *)
Definition incremented (now qty : Z) (p : product) : product :=
  mkProduct (p_id p) (p_reference p) (p_description p)
    (Some (match p_quantity p with Some q => q | None => 0 end + qty))
    (p_unit_price p) (p_unit p) (p_category p) (Some now).

(** Modelled from the spec: the first product of that description, if
    there is one, has its quantity incremented. *)
Fixpoint increment_first (now : Z) (d : str) (qty : Z) (ps : list product)
  : option (list product) :=
  match ps with
  | [] => None
  | p :: r =>
      if str_eqb (p_description p) d then Some (incremented now qty p :: r)
      else option_map (cons p) (increment_first now d qty r)
  end.

(** Modelled from the spec: the new product of an item. *)
Definition inserted (now next : Z) (d : str) (it : item) : product :=
  mkProduct next (Some (str_or_empty (item_reference it))) d
    (Some (int_or_0 (item_quantity it)))
    (Some (float_or_0 (item_unit_price it)))
    (Some (str_or_empty (item_unit it))) (Some (lit "General")) (Some now).

(** Modelled from the spec: increment if found, insert if not. *)
Definition additive_upsert (now : Z) (st : list product * Z) (it : item)
  : list product * Z :=
  match item_description it with
  | Some d =>
      match increment_first now d (int_or_0 (item_quantity it)) (fst st) with
      | Some ps' => (ps', snd st)
      | None => (fst st ++ [inserted now (snd st) d it], snd st + 1)
      end
  | None => st
  end.

(** The invoice row of a request, if it has one. *)
Definition invoice_rows (now next : Z) (info : option invoice_info)
  : list invoice :=
  match info with
  | Some i =>
      [mkInvoice next (invoice_number i)
         (str_or (supplier_name i) (str_or (buyer_name i) None))
         (float_or_0 (total_ttc i)) (str_or (invoice_date i) None) now]
  | None => []
  end.

(** The primary key of [products]: identifiers are distinct and below
    the sequence. *)
Definition primary_key (ps : list product) (next : Z) : Prop :=
  NoDup (map p_id ps) /\ Forall (fun p => p_id p < next) ps.

Definition no_faults : environment := fun _ _ => false.

(** A computation extends the log, returns normally when every
    statement it added went through, and throws when one did not. *)
Definition traced {A} (m : M A) : Prop :=
  forall s r s',
    m s = (r, s') ->
    exists ext,
      log s' = log s ++ ext /\
      match r with
      | Some _ => forallb snd ext = true
      | None => existsb (fun e => negb (snd e)) ext = true
      end.

End WithParsers.
End Stock.

(** Request bodies whose numeric fields are JSON integers: [parseInt] and
    [parseFloat] of an integer Number of small magnitude give it back. *)
#[export] Instance IntegerFields : JsParsers := {|
  jsval := Z;
  parse_int := fun z => Some z;
  parse_float := fun z => Float64.of_Z z
|}.

(** ** The mapping store: [POST /api/save-mapping] *)

Module Mapping.
Import Text Db.
Local Open Scope Z_scope.

Record request := mkRequest {
  supplier_name : option str;
  product_id : option Z;
  supplier_id : option str
}.

Inductive response :=
| Saved           (* 200 { success: true } *)
| MissingFields   (* 400 { error: "supplier_name and product_id are required" } *)
| SaveFailed.     (* 500 { error: "Failed to save mapping" } *)

(** [supplier_id || null] *)
Definition id_or_null (s : option str) : option str :=
  match s with
  | Some (_ :: _) => s
  | _ => None
  end.

(** [supplier_name_normalized = key] on a row of the mappings. *)
Definition has_key (key : str) (m : mapping) : bool :=
  str_eqb (m_supplier_name_normalized m) key.

(** [INSERT INTO supplier_mappings ... ON CONFLICT
    (supplier_name_normalized) DO UPDATE SET product_id =
    EXCLUDED.product_id, supplier_id = EXCLUDED.supplier_id]. *)
Definition on_conflict_update (key : str) (pid : Z) (sid : option str)
    (ms : list mapping) : list mapping :=
  map (fun m =>
         if has_key key m
         then mkMapping (m_id m) (m_supplier_name m)
                (m_supplier_name_normalized m) pid sid (m_created_at m)
         else m) ms.

Definition upsert_mapping (now : Z) (name key : str) (pid : Z)
    (sid : option str) (d : db) : db :=
  let ms := supplier_mappings d in
  let ms' :=
    if existsb (has_key key) ms
    then on_conflict_update key pid sid ms
    else ms ++ [mkMapping (supplier_mappings_id_seq d) name key pid sid now] in
  mkDb (committed d) ms' (products_id_seq d) (invoices_id_seq d)
    (supplier_mappings_id_seq d + 1).

(** [product_id INTEGER NOT NULL REFERENCES products(id)] *)
Definition product_exists (pid : Z) (d : db) : bool :=
  existsb (fun p => p_id p =? pid) (products (committed d)).

(** [supplier_id VARCHAR(100)]: a value of more than 100 characters is
    refused, unless what exceeds is spaces, which are cut off. *)
Definition varchar_100 (s : option str) : option (option str) :=
  match s with
  | None => Some None
  | Some v =>
      if forallb (fun c => Ascii.eqb c space) (skipn 100 v)
      then Some (Some (firstn 100 v))
      else None
  end.

(** The handler.  The statement throws when a constraint refuses the
    row (the foreign key finds no product, the supplier id is too
    long), and when the environment fails it ([throws]: no connection,
    a value a column type refuses); the rows are then as they were. *)
Definition save_mapping (throws : bool) (now : Z) (d : db) (req : request)
  : response * db :=
  match supplier_name req, product_id req with
  | Some ((_ :: _) as name), Some pid =>
      if pid =? 0 then (MissingFields, d)
      else
        let normalized := normalizeText name in
        match varchar_100 (id_or_null (supplier_id req)) with
        | Some sid =>
            if negb throws && product_exists pid d
            then (Saved, upsert_mapping now name normalized pid sid d)
            else (SaveFailed, d)
        | None => (SaveFailed, d)
        end
  | _, _ => (MissingFields, d)
  end.

(** The UNIQUE constraint on [supplier_name_normalized]. *)
Definition unique_keys (d : db) : Prop :=
  NoDup (map m_supplier_name_normalized (supplier_mappings d)).

End Mapping.

(** ** Matching: [POST /api/match-products] *)

Module Matcher.
Import Text Float64 Scorer Db.
Local Open Scope Z_scope.

(** A row of [SELECT id, reference, description, category FROM
    products], also the shape of [match]. *)
Record product_view := mkView {
  id : Z;
  reference : option str;
  description : str;
  category : option str
}.

Definition view_of (p : product) : product_view :=
  mkView (p_id p) (p_reference p) (p_description p) (p_category p).

(** [{ ...product, score }], also the shape of a suggestion. *)
Record scored := mkScored {
  candidate : product_view;
  score : number
}.

Record line_item := mkLineItem {
  line_description : option str
}.

(** What [JSON.parse] gave for the text of the model. *)
Record ai_response := mkAi {
  best_match_id : option Z;
  confidence : option number;
  reasoning : option str
}.

(** One call of the oracle: it throws (no network, a time-out, a text
    that is no JSON), or its text parses, to [null] or to an object. *)
Inductive outcome :=
| Unavailable
| Parsed (r : option ai_response).

Definition oracle := str -> list scored -> outcome.

Definition findBestMatchWithGemini (ask : oracle) (invoiceItemName : str)
    (candidates : list scored) : option ai_response :=
  match candidates with
  | [] => None
  | _ :: _ =>
      match ask invoiceItemName candidates with
      | Unavailable => None
      | Parsed r => r
      end
  end.

Inductive source_kind :=
| SrcMapping      (* "mapping" *)
| SrcAiGemini     (* "ai-gemini" *)
| SrcSuggestion.  (* "suggestion" *)

Record match_result := mkResult {
  source : source_kind;
  matched : option product_view;
  result_score : number;
  ai_reasoning : str;
  suggestions : list scored
}.

(** The rows the join of [supplier_mappings] and [products] on the
    product id gives for one mapping row, restricted to the key. *)
Definition joined (ps : list product) (key : str) (m : mapping)
  : list product_view :=
  if str_eqb (m_supplier_name_normalized m) key
  then map view_of (filter (fun p => p_id p =? m_product_id m) ps)
  else [].

(** The mapping query: the join, [LIMIT 1]. *)
Definition mapping_query (d : db) (key : str) : list product_view :=
  firstn 1 (flat_map (joined (products (committed d)) key) (supplier_mappings d)).

(** [`${product.reference || ""} ${product.description || ""}`.trim()] *)
Definition candidate_text (p : product_view) : str :=
  trim ((match reference p with Some r => r | None => [] end)
          ++ space :: description p).

(** [.sort((a, b) => b.score - a.score)]: the sort is stable, and [b]
    goes before [a] when the comparator is positive. *)
Definition comparator (a b : scored) : number := sub (score b) (score a).

Fixpoint insert_sorted (x : scored) (l : list scored) : list scored :=
  match l with
  | [] => [x]
  | y :: r =>
      if ltb (of_Z 0) (comparator x y) then y :: insert_sorted x r
      else x :: l
  end.

Definition sort_by_score (l : list scored) : list scored :=
  fold_right insert_sorted [] l.

(** [products.map(product => ({ ...product, score: similarityScore(...) }))] *)
Definition score_all (description : str) (ps : list product_view)
  : list scored :=
  map (fun p => mkScored p (similarityScore description (candidate_text p))) ps.

(** The top five for one description. *)
Definition rank (description : str) (ps : list product_view)
  : list scored :=
  firstn 5 (sort_by_score (score_all description ps)).

(** All the catalog, scored against a description. *)
Definition scored_catalog (d : db) (description : str) : list scored :=
  score_all description (map view_of (products (committed d))).

(** [x || y || 0] on the confidence and the score. *)
Definition first_truthy (c : option number) (s : option number) : number :=
  match c with
  | Some x =>
      if truthy x then x
      else match s with
           | Some y => if truthy y then y else of_Z 0
           | None => of_Z 0
           end
  | None =>
      match s with
      | Some y => if truthy y then y else of_Z 0
      | None => of_Z 0
      end
  end.

(** Truthiness of [best_match_id]. *)
Definition usable_id (r : option ai_response) : option Z :=
  match r with
  | Some a =>
      match best_match_id a with
      | Some k => if k =? 0 then None else Some k
      | None => None
      end
  | None => None
  end.

(** The steps B and C of the loop body, for an item without mapping. *)
Definition heuristic_match (ask : oracle) (d : db) (description : str)
  : match_result :=
  let scored := rank description (map view_of (products (committed d))) in
  let aiResponse :=
    match scored with
    | top :: _ =>
        if ltb (score top) (of_Z 100)
        then findBestMatchWithGemini ask description scored
        else None
    | [] => None
    end in
  let finalMatch :=
    match usable_id aiResponse with
    | Some k => find (fun p => id (candidate p) =? k) scored
    | None => None
    end in
  let finalMatch :=
    match finalMatch with
    | Some m => Some m
    | None => hd_error scored
    end in
  mkResult
    (match usable_id aiResponse with
     | Some _ => SrcAiGemini
     | None => SrcSuggestion
     end)
    (option_map candidate finalMatch)
    (first_truthy
       (match aiResponse with Some a => confidence a | None => None end)
       (option_map score finalMatch))
    (match aiResponse with
     | Some (mkAi _ _ (Some ((_ :: _) as text))) => text
     | _ => lit "Mathematical similarity"
     end)
    (firstn 3 scored).

(** One turn of [for (const item of items)]. *)
Definition match_item (ask : oracle) (d : db) (item : line_item)
  : match_result :=
  let description :=
    match line_description item with Some t => t | None => [] end in
  let normalized := normalizeText description in
  let mappingResult :=
    if nonempty normalized then mapping_query d normalized else [] in
  match mappingResult with
  | row :: _ =>
      mkResult SrcMapping (Some row) (of_Z 100)
        (lit "Pre-defined manual mapping") []
  | [] => heuristic_match ask d description
  end.

(** The handler on an array of items; the reads of the database are
    taken to succeed. *)
Definition match_products (ask : oracle) (d : db) (items : list line_item)
  : list match_result :=
  map (match_item ask d) items.

End Matcher.

(** ** Sample data *)

Module Sample.
Import Float64 Db.
Local Open Scope Z_scope.

(** A database with no rows, sequences at 1. *)
Definition empty_db : db := mkDb (mkTables [] []) [] 1 1 1.

(** [{ description: "Widget A", quantity: 5, unit_price: 2 }] *)
Definition widget : Stock.item :=
  Stock.mkItem (Some (lit "Widget A")) (5 : @jsval IntegerFields) 2 None None.


(** The same items with [invoiceInfo: { invoice_number: "F-1", supplier_name:
    "ACME", total_ttc: 10 }]. *)
Definition widget_invoiced : Stock.request :=
  Stock.mkRequest [widget]
    (Some (Stock.mkInvoiceInfo (Some (lit "F-1")) (Some (lit "ACME")) None
             (10 : @jsval IntegerFields) None)).

(** The item again, now with another price and a reference:
    [{ description: "Widget A", quantity: 3, unit_price: 9, reference: "X1" }]. *)
Definition widget_repriced : Stock.item :=
  Stock.mkItem (Some (lit "Widget A")) (3 : @jsval IntegerFields) 9 None
    (Some (lit "X1")).

(** Two products in stock. *)
Definition widget_row : product :=
  mkProduct 1 (Some (lit "W-A")) (lit "Widget A") (Some 5) (Some (of_Z 2))
    (Some (lit "pcs")) (Some (lit "General")) (Some 0).

Definition gadget_row : product :=
  mkProduct 2 (Some (lit "G-7")) (lit "Gadget 7 blue") (Some 1) (Some (of_Z 4))
    (Some (lit "pcs")) (Some (lit "General")) (Some 0).

Definition stocked : Stock.session :=
  Stock.mkSession (mkTables [widget_row; gadget_row] []) 3 1 [].

(** The two products committed, and no mapping. *)
Definition catalog_db : db :=
  mkDb (mkTables [widget_row; gadget_row] []) [] 3 1 1.

(** The same catalog after the label "ACME Widget!" was mapped to
    product 1. *)
Definition mapped_db : db :=
  mkDb (mkTables [widget_row; gadget_row] [])
    [mkMapping 1 (lit "ACME Widget!") (lit "acme widget") 1 None 0] 3 1 2.

(** An oracle out of reach, and one that answers with an identifier no
    candidate has. *)
Definition silent_oracle : Matcher.oracle := fun _ _ => Matcher.Unavailable.

Definition stray_oracle : Matcher.oracle :=
  fun _ _ =>
    Matcher.Parsed
      (Some (Matcher.mkAi (Some 999) (Some (of_Z 90)) (Some (lit "best guess")))).



(** Two descriptions to match. *)
Definition widgit : Matcher.line_item :=
  Matcher.mkLineItem (Some (lit "Widgit A")).

Definition acme_widget : Matcher.line_item :=
  Matcher.mkLineItem (Some (lit "ACME Widget!")).

(** An environment whose third statement (number 2, after [BEGIN] and the
    invoice insert) throws. *)
Definition third_fails : Stock.environment :=
  fun k _ => Nat.eqb k 2.

End Sample.

(** ** Shapes of what the text helpers return *)

Module Shape.
Import Text.


(** [a-z0-9] or the space U+0020. *)
Definition is_normal_char (c : ascii) : bool :=
  is_lower_az c || is_digit c || Ascii.eqb c space.


(** What is left of a string after its leading digits. *)
Fixpoint after_digits (s : str) : str :=
  match s with
  | c :: r => if is_digit c then after_digits r else s
  | [] => []
  end.

(** Digits, and possibly a dot and digits again. *)
Definition number_shape (t : str) : bool :=
  match t with
  | c :: _ =>
      is_digit c
      && match after_digits t with
         | [] => true
         | d :: f => Ascii.eqb d "."%char && nonempty f && forallb is_digit f
         end
  | [] => false
  end.

(** What the scanner holds of a match in progress. *)
Definition pending (st : scan_state) : str :=
  match st with
  | Idle => []
  | InInt acc | InFrac acc => rev acc
  | SawDot acc => rev acc ++ ["."%char]
  end.

(** The scanner holds digits, and after a dot digits again. *)
Definition scan_ok (st : scan_state) : Prop :=
  match st with
  | Idle => True
  | InInt acc | SawDot acc => acc <> [] /\ forallb is_digit acc = true
  | InFrac acc =>
      exists f i,
        acc = f ++ "."%char :: i /\ f <> [] /\ i <> [] /\
        forallb is_digit f = true /\ forallb is_digit i = true
  end.

(** No two spaces in a row. *)
Fixpoint no_double_space (s : str) : bool :=
  match s with
  | c :: ((d :: _) as r) =>
      negb (Ascii.eqb c space && Ascii.eqb d space) && no_double_space r
  | _ => true
  end.

(** A normalised text: [a-z0-9] and single spaces between, none at either
    end. *)
Definition normal_form (t : str) : bool :=
  forallb is_normal_char t
  && negb (Ascii.eqb (hd zero t) space)
  && negb (Ascii.eqb (last t zero) space)
  && no_double_space t.

End Shape.

(** ** The answer of the model: [findBestMatchWithGemini], the [try] block *)

Module Oracle.
Import Text Matcher.

Fixpoint starts_with (pat s : str) : bool :=
  match pat, s with
  | [], _ => true
  | p :: pat', c :: s' => Ascii.eqb p c && starts_with pat' s'
  | _ :: _, [] => false
  end.

(** [s.replace(/pat/g, "")] for a pattern [pat] of literal characters,
    not empty: matches are looked for from left to right, the search
    going on behind each one.  [skip] counts the code units of the
    match at hand that are still to be dropped. *)
Fixpoint remove_from (pat : str) (skip : nat) (s : str) : str :=
  match s with
  | [] => []
  | c :: r =>
      match skip with
      | S k => remove_from pat k r
      | 0 =>
          if starts_with pat s
          then remove_from pat (List.length pat - 1) r
          else c :: remove_from pat 0 r
      end
  end.

Definition remove_all (pat s : str) : str := remove_from pat 0 s.

Definition backtick : ascii := "`"%char.
Definition fence : str := [backtick; backtick; backtick].
Definition json_fence : str := fence ++ lit "json".

(** [text.replace(/```json/g, "").replace(/```/g, "").trim()] *)
Definition clean (text : str) : str :=
  trim (remove_all fence (remove_all json_fence text)).


(** No match of [pat] begins anywhere in [s]. *)
Fixpoint free (pat s : str) : bool :=
  match s with
  | [] => true
  | _ :: r => negb (starts_with pat s) && free pat r
  end.

(** A text without backtick. *)
Definition plain (body : str) : Prop :=
  forallb (fun c => negb (Ascii.eqb c backtick)) body = true.

(** The number of leading backticks. *)
Fixpoint lead (s : str) : nat :=
  match s with
  | c :: r => if Ascii.eqb c backtick then S (lead r) else 0
  | [] => 0
  end.

End Oracle.

(** ** The ranking and the use of the oracle *)

Module Ranking.
Import Text Float64 Scorer Db Matcher.

(** No element scores less than the one behind it. *)
Fixpoint descending (l : list scored) : bool :=
  match l with
  | x :: ((y :: _) as r) => negb (ltb (score x) (score y)) && descending r
  | _ => true
  end.

(** A score that is the Number of an integer between 0 and 100. *)
Definition graded (s : scored) : Prop :=
  exists n, (0 <= n <= 100)%Z /\ score s = of_Z n.

(** Neither of the two scores is less than the other. *)
Definition ties (x y : scored) : bool :=
  negb (ltb (score x) (score y)) && negb (ltb (score y) (score x)).

(** The condition under which the loop body does not call the oracle:
    a mapping is found, or no product is there, or the best candidate
    scores 100. *)
Definition oracle_skipped (d : db) (item : line_item) : bool :=
  let description :=
    match line_description item with Some t => t | None => [] end in
  let normalized := normalizeText description in
  match (if nonempty normalized then mapping_query d normalized else []) with
  | _ :: _ => true
  | [] => false
  end
  || match rank description (map view_of (products (committed d))) with
     | top :: _ => negb (ltb (score top) (of_Z 100))
     | [] => true
     end.

End Ranking.

(** ** The ledger of a reconciliation *)

Module Ledger.
Import Float64 Db Stock.
Local Open Scope Z_scope.

Section WithParsers.
Context {P : JsParsers}.




(** Two rows that differ at most in quantity and time of update. *)
Definition same_card (p p' : product) : Prop :=
  p_id p' = p_id p /\
  p_reference p' = p_reference p /\
  p_description p' = p_description p /\
  p_unit_price p' = p_unit_price p /\
  p_unit p' = p_unit p /\
  p_category p' = p_category p.


(** A computation never winds a sequence back. *)
Definition grows {A} (m : M A) : Prop :=
  forall s r s',
    m s = (r, s') ->
    next_product_id s <= next_product_id s' /\
    next_invoice_id s <= next_invoice_id s'.





End WithParsers.
End Ledger.

(** ** The purchase form: the callers of the three routes *)

Module Purchase.
Import Text Float64 Db Matcher.

(** [/[\/\-\.]/] *)
Definition is_sep (c : ascii) : bool :=
  Ascii.eqb c "/"%char || Ascii.eqb c "-"%char || Ascii.eqb c "."%char.

(** [value.split(/[\/\-\.]/)] *)
Fixpoint split_on (sep : ascii -> bool) (cur : str) (s : str) : list str :=
  match s with
  | [] => [rev cur]
  | c :: r =>
      if sep c then rev cur :: split_on sep [] r
      else split_on sep (c :: cur) r
  end.

(** [value.match(/^\d{4}-\d{2}-\d{2}$/)] *)
Definition is_iso (v : str) : bool :=
  match v with
  | [y1; y2; y3; y4; h1; m1; m2; h2; d1; d2] =>
      forallb is_digit [y1; y2; y3; y4; m1; m2; d1; d2]
      && Ascii.eqb h1 "-"%char && Ascii.eqb h2 "-"%char
  | _ => false
  end.

(** [s.padStart(2, '0')] *)
Definition padStart2 (s : str) : str :=
  match s with
  | [] => lit "00"
  | [c] => ["0"%char; c]
  | _ => s
  end.

(** One or two digits; four digits. *)
Definition short_number (s : str) : Prop :=
  forallb is_digit s = true /\ (1 <= List.length s <= 2)%nat.

Definition year (s : str) : Prop :=
  forallb is_digit s = true /\ List.length s = 4%nat.

Definition dashed (a b c : str) : str :=
  a ++ "-"%char :: b ++ "-"%char :: c.

(** [normalizeInvoiceDate]; the empty string stands for every falsy
    argument. *)
Definition normalizeInvoiceDate (value : str) : str :=
  if negb (nonempty value) then []
  else if is_iso value then value
  else
    match split_on is_sep [] value with
    | [p1; p2; p3] =>
        if (List.length p3 =? 4)%nat
        then dashed p3 (padStart2 p2) (padStart2 p1)
        else if (List.length p1 =? 4)%nat
        then dashed p1 (padStart2 p2) (padStart2 p3)
        else []
    | _ => []
    end.

Section WithParsers.
Context {P : JsParsers}.

Inductive match_tag :=
| TagMapping      (* 'mapping' *)
| TagSuggestion   (* 'suggestion' *)
| TagConfirmed.   (* 'confirmed' *)

(** A row of the form.  The first six fields are there from the start;
    the others are set by the merge and by a confirmation. *)
Record form_item := mkForm {
  f_id : Z;
  f_description : str;
  f_raw_description : option str;
  f_quantity : jsval;
  f_unit_price : jsval;
  f_unit : str;
  f_reference : option str;
  f_match_score : option number;
  f_match_source : option match_tag;
  f_confirmed : bool;
  f_suggested : option scored;
  f_suggestions : list scored
}.

(** [s || ''] *)
Definition or_empty (s : option str) : str :=
  match s with Some v => v | None => [] end.

(** The callback of [normalized.map] in [handleFileChange], on a row and
    [matches[index]]. *)
Definition merged (item : form_item) (m : option match_result)
  : form_item :=
  let by_suggestion :=
    match m with
    | Some r =>
        match suggestions r with
        | top :: _ =>
            mkForm (f_id item) (f_description item) (f_raw_description item)
              (f_quantity item) (f_unit_price item) (f_unit item)
              (f_reference item) (Some (score top)) (Some TagSuggestion)
              (f_confirmed item) (Some top) (suggestions r)
        | [] => item
        end
    | None => item
    end in
  match m with
  | Some r =>
      match source r, matched r with
      | SrcMapping, Some row =>
          mkForm (f_id item)
            (if nonempty (description row) then description row
             else f_description item)
            (f_raw_description item)
            (f_quantity item) (f_unit_price item) (f_unit item)
            (Some (or_empty (reference row))) (Some (result_score r))
            (Some TagMapping) true (f_suggested item) (f_suggestions item)
      | _, _ => by_suggestion
      end
  | None => item
  end.

(** [normalized.map((item, index) => ... matches[index] ...)] *)
Fixpoint merge_all (items : list form_item) (matches : list match_result)
  : list form_item :=
  match items with
  | [] => []
  | item :: rest =>
      merged item (hd_error matches) :: merge_all rest (tl matches)
  end.

(** The body [handleConfirmSuggestion] posts to [/api/save-mapping]. *)
Definition confirm_request (rawDescription : option str) (suggestion : scored)
  : Mapping.request :=
  Mapping.mkRequest rawDescription (Some (id (candidate suggestion))) None.

(** The rows after [handleConfirmSuggestion]. *)
Definition confirm_items (itemId : Z) (suggestion : scored)
    (items : list form_item) : list form_item :=
  map (fun item =>
         if negb (f_id item =? itemId)%Z then item
         else mkForm (f_id item) (description (candidate suggestion))
                (f_raw_description item) (f_quantity item)
                (f_unit_price item) (f_unit item)
                (Some (or_empty (reference (candidate suggestion))))
                (f_match_score item) (Some TagConfirmed) true
                (f_suggested item) (f_suggestions item))
      items.




End WithParsers.
End Purchase.

(** ** More sample data *)

Module Cases.
Import Text Float64 Scorer Db Matcher Oracle Purchase.
Local Open Scope Z_scope.



(** An oracle that names product 2, and one that names none. *)
Definition picking_oracle : oracle :=
  fun _ _ =>
    Parsed (Some (mkAi (Some 2) (Some (of_Z 80)) (Some (lit "same thing")))).

Definition declining_oracle : oracle :=
  fun _ _ =>
    Parsed (Some (mkAi None (Some (of_Z 95)) (Some (lit "new product")))).

(** The two products of [Sample.catalog_db] scored against "Widgit A". *)
Definition scored_widget : scored :=
  mkScored (view_of Sample.widget_row)
    (similarityScore (lit "Widgit A")
       (candidate_text (view_of Sample.widget_row))).

Definition scored_gadget : scored :=
  mkScored (view_of Sample.gadget_row)
    (similarityScore (lit "Widgit A")
       (candidate_text (view_of Sample.gadget_row))).

Definition blank : line_item := mkLineItem (Some (lit "!!!")).

(** "Widget A" twice in one request, 5 and 3 pieces. *)
Definition restock : Stock.request :=
  Stock.mkRequest [Sample.widget; Sample.widget_repriced] None.

Definition restocked : Stock.response * db * list (Stock.statement * bool) :=
  Stock.add_stock Stock.no_faults 9 Sample.catalog_db restock.


Definition map_gadget : Mapping.request :=
  Mapping.mkRequest (Some (lit "Gadget Blue 7")) (Some 2) None.

Definition map_acme : Mapping.request :=
  Mapping.mkRequest (Some (lit "ACME Widget!")) (Some 1) None.

(** A row of the form after a scan read "Widgit A", 4 pieces at 2. *)
Definition scanned_widgit : form_item :=
  mkForm 1700000000000 (lit "Widgit A") (Some (lit "Widgit A"))
    (4 : @jsval IntegerFields) 2 (lit "pcs") None None None false None [].


End Cases.

(* ================================================================== *)
(** * Part II. Properties *)
(* ================================================================== *)

Import Text Levenshtein Float64 Scorer Db.

(** ** Text normalisation *)

Section TextFacts.

Ltac bools :=
  repeat match goal with
    | H : _ && _ = true |- _ => apply andb_true_iff in H; destruct H
    | H : _ || _ = true |- _ => apply orb_true_iff in H; destruct H
    | H : _ || _ = false |- _ => apply orb_false_iff in H; destruct H
    | H : negb _ = true |- _ => apply negb_true_iff in H
    | H : (_ <=? _)%nat = true |- _ => apply Nat.leb_le in H
    | H : (_ <=? _)%nat = false |- _ => apply Nat.leb_gt in H
    | H : (_ =? _)%nat = true |- _ => apply Nat.eqb_eq in H
    | H : (_ =? _)%nat = false |- _ => apply Nat.eqb_neq in H
    end.

Lemma keep_char_lower (c : ascii) : keep_char c = true -> lower_char c = c.
Proof.
  unfold keep_char, lower_char, is_lower_az, is_digit, is_space, between.
  intros H.
  destruct (_ || _) eqn:E at 1; [| reflexivity].
  exfalso. bools; bools; lia.
Qed.

Lemma keep_char_space : keep_char space = true.
Proof. reflexivity. Qed.

Lemma toLowerCase_kept (s : str) :
  Forall (fun c => keep_char c = true) s -> toLowerCase s = s.
Proof.
  induction 1 as [| c r Hc _ IH]; simpl; [reflexivity |].
  now rewrite keep_char_lower, IH.
Qed.

Lemma replace_other_kept (s : str) :
  Forall (fun c => keep_char c = true) s -> replace_other s = s.
Proof.
  induction 1 as [| c r Hc _ IH]; simpl; [reflexivity |].
  now rewrite Hc, IH.
Qed.

Lemma replace_other_keeps (s : str) :
  Forall (fun c => keep_char c = true) (replace_other s).
Proof.
  induction s as [| c r IH]; simpl; constructor; auto.
  destruct (keep_char c) eqn:E; [exact E | apply keep_char_space].
Qed.

Lemma collapse_from_keeps (s : str) :
  Forall (fun c => keep_char c = true) s ->
  forall b, Forall (fun c => keep_char c = true) (collapse_from b s).
Proof.
  induction 1 as [| c r Hc _ IH]; intros b; simpl; [constructor |].
  destruct (is_space c), b; auto using Forall_cons, keep_char_space.
Qed.

Lemma trim_start_suffix (s : str) : exists w, s = w ++ trim_start s.
Proof.
  induction s as [| c r [w IH]]; simpl.
  - now exists [].
  - destruct (is_space c).
    + exists (c :: w). simpl. now f_equal.
    + now exists [].
Qed.

Lemma trim_end_prefix (s : str) : exists w, s = trim_end s ++ w.
Proof.
  unfold trim_end. destruct (trim_start_suffix (rev s)) as [w Hw].
  exists (rev w). rewrite <- rev_app_distr, <- Hw. now rewrite rev_involutive.
Qed.

Lemma trim_keeps (P : ascii -> Prop) (s : str) :
  Forall P s -> Forall P (trim s).
Proof.
  intros H. unfold trim.
  destruct (trim_start_suffix s) as [w Hw].
  destruct (trim_end_prefix (trim_start s)) as [w' Hw'].
  rewrite Hw, Hw' in H.
  apply Forall_app in H. destruct H as [_ H].
  apply Forall_app in H. now destruct H.
Qed.

Lemma single_spaced_weaken (s : str) :
  single_spaced true s = true -> single_spaced false s = true.
Proof.
  destruct s as [| c r]; simpl; [auto |].
  destruct (is_space c); [discriminate | auto].
Qed.

Lemma collapse_from_single_spaced (s : str) (b : bool) :
  single_spaced b (collapse_from b s) = true.
Proof.
  revert b. induction s as [| c r IH]; intros b; simpl; [reflexivity |].
  destruct (is_space c) eqn:E.
  - destruct b; [apply IH |].
    simpl. now rewrite IH.
  - simpl. now rewrite E, IH.
Qed.

Lemma collapse_from_fixed (s : str) (b : bool) :
  single_spaced b s = true -> collapse_from b s = s.
Proof.
  revert b. induction s as [| c r IH]; intros b; simpl; [reflexivity |].
  destruct (is_space c) eqn:E.
  - intros H. bools. destruct b; [discriminate |].
    apply Ascii.eqb_eq in H1. subst c. now rewrite IH.
  - intros H. now rewrite IH.
Qed.

Lemma single_spaced_suffix (w s : str) (b : bool) :
  single_spaced b (w ++ s) = true -> single_spaced false s = true.
Proof.
  revert b. induction w as [| c r IH]; intros b; simpl.
  - destruct b; [apply single_spaced_weaken | auto].
  - destruct (is_space c); intros H; bools; eauto.
Qed.

Lemma single_spaced_prefix (s w : str) (b : bool) :
  single_spaced b (s ++ w) = true -> single_spaced b s = true.
Proof.
  revert b. induction s as [| c r IH]; intros b; simpl; [reflexivity |].
  destruct (is_space c); intros H; bools; eauto.
  rewrite H, H1. simpl. eauto.
Qed.

Lemma trim_start_clean (s : str) : starts_clean (trim_start s) = true.
Proof.
  induction s as [| c r IH]; simpl; [reflexivity |].
  destruct (is_space c) eqn:E; [exact IH | simpl; now rewrite E].
Qed.

Lemma trim_start_fixed (s : str) :
  starts_clean s = true -> trim_start s = s.
Proof.
  destruct s as [| c r]; simpl; [reflexivity |].
  intros H. bools. now rewrite H.
Qed.

Lemma starts_clean_prefix (s w : str) :
  starts_clean (s ++ w) = true -> starts_clean s = true.
Proof. destruct s; simpl; auto. Qed.

Lemma trim_end_fixed (s : str) : trim_end (trim_end s) = trim_end s.
Proof.
  unfold trim_end. rewrite rev_involutive.
  now rewrite (trim_start_fixed _ (trim_start_clean (rev s))).
Qed.

Lemma trim_fixed (s : str) : trim (trim s) = trim s.
Proof.
  unfold trim.
  assert (H : starts_clean (trim_end (trim_start s)) = true).
  { destruct (trim_end_prefix (trim_start s)) as [w Hw].
    apply starts_clean_prefix with (w := w).
    rewrite <- Hw. apply trim_start_clean. }
  rewrite (trim_start_fixed _ H). apply trim_end_fixed.
Qed.

Lemma trim_single_spaced (s : str) :
  single_spaced false s = true -> single_spaced false (trim s) = true.
Proof.
  intros H. unfold trim.
  destruct (trim_start_suffix s) as [w Hw].
  destruct (trim_end_prefix (trim_start s)) as [w' Hw'].
  rewrite Hw in H. apply single_spaced_suffix in H.
  rewrite Hw' in H. now apply single_spaced_prefix in H.
Qed.

(** C9. Text normalisation is idempotent: what [normalizeText] returns
    (lower case, every run of code units other than [a-z0-9] replaced by
    one space, no space at either end) is left as it is by each of its
    stages, so normalising it again returns it unchanged. *)
Theorem normalizeText_idempotent (s : str) :
  normalizeText (normalizeText s) = normalizeText s.
Proof.
  unfold normalizeText at 1.
  set (t := normalizeText s).
  assert (K : Forall (fun c => keep_char c = true) t).
  { apply trim_keeps, collapse_from_keeps, replace_other_keeps. }
  assert (S1 : single_spaced false t = true).
  { apply trim_single_spaced, collapse_from_single_spaced. }
  rewrite (toLowerCase_kept _ K), (replace_other_kept _ K).
  unfold collapse_spaces. rewrite (collapse_from_fixed _ _ S1).
  apply trim_fixed.
Qed.

End TextFacts.

(** ** The table of [levenshtein] holds the edit distances of the prefixes *)

Section LevenshteinFacts.

Lemma prefix_distance_0_l (a b : str) (j : nat) : prefix_distance a b 0 j = j.
Proof. reflexivity. Qed.

Lemma prefix_distance_0_r (a b : str) (i : nat) : prefix_distance a b i 0 = i.
Proof. destruct i; reflexivity. Qed.

Lemma prefix_distance_step (a b : str) (i j : nat) :
  prefix_distance a b (S i) (S j) =
  Nat.min (prefix_distance a b i (S j) + 1)
    (Nat.min (prefix_distance a b (S i) j + 1)
       (prefix_distance a b i j + cost (nth i a zero) (nth j b zero))).
Proof. reflexivity. Qed.

Lemma fill_row_spec (a b : str) (i : nat) (rest : str) :
  forall (done : str) (j : nat),
    b = done ++ rest ->
    List.length done = j ->
    fill_row (nth i a zero) rest
      (map (prefix_distance a b i) (seq j (S (List.length rest))))
      (prefix_distance a b (S i) j)
    = map (prefix_distance a b (S i)) (seq (S j) (List.length rest)).
Proof.
  induction rest as [| y rest IH]; intros done j Hb Hj; [reflexivity |].
  cbn [List.length seq map fill_row].
  assert (Hy : nth j b zero = y).
  { subst b j. rewrite app_nth2, Nat.sub_diag by lia. reflexivity. }
  rewrite <- Hy, <- prefix_distance_step. f_equal.
  apply (IH (done ++ [y]) (S j)).
  - now rewrite <- app_assoc.
  - rewrite length_app. simpl. lia.
Qed.

Lemma next_row_spec (a b : str) (i : nat) :
  next_row (S i) (nth i a zero) b
    (map (prefix_distance a b i) (seq 0 (S (List.length b))))
  = map (prefix_distance a b (S i)) (seq 0 (S (List.length b))).
Proof.
  unfold next_row.
  change (S i :: fill_row (nth i a zero) b
                   (map (prefix_distance a b i) (seq 0 (S (List.length b))))
                   (S i))
    with (prefix_distance a b (S i) 0
          :: fill_row (nth i a zero) b
               (map (prefix_distance a b i) (seq 0 (S (List.length b))))
               (prefix_distance a b (S i) 0)).
  now rewrite (@fill_row_spec a b i b [] 0 eq_refl eq_refl).
Qed.

Lemma rows_from_spec (a b : str) (rest : str) :
  forall (done : str) (i : nat),
    a = done ++ rest ->
    List.length done = i ->
    rows_from (S i) rest b
      (map (prefix_distance a b i) (seq 0 (S (List.length b))))
    = map (prefix_distance a b (List.length a)) (seq 0 (S (List.length b))).
Proof.
  induction rest as [| x rest IH]; intros done i Ha Hi.
  - simpl. subst a i. now rewrite app_nil_r.
  - cbn [rows_from].
    assert (Hx : nth i a zero = x).
    { subst a i. rewrite app_nth2, Nat.sub_diag by lia. reflexivity. }
    rewrite <- Hx, next_row_spec.
    apply (IH (done ++ [x]) (S i)).
    + now rewrite <- app_assoc.
    + rewrite length_app. simpl. lia.
Qed.

Lemma last_map_seq (f : nat -> nat) (n d : nat) :
  last (map f (seq 0 (S n))) d = f n.
Proof.
  rewrite seq_S, map_app. simpl. apply last_last.
Qed.

(** The dynamic programme computes the classic distance. *)
Lemma levenshtein_edit_distance (a b : str) :
  levenshtein a b = edit_distance a b.
Proof.
  unfold levenshtein, edit_distance.
  destruct (List.length a =? 0) eqn:Ea.
  - apply Nat.eqb_eq in Ea. now rewrite Ea.
  - destruct (List.length b =? 0) eqn:Eb.
    + apply Nat.eqb_eq in Eb. now rewrite Eb, prefix_distance_0_r.
    + replace (first_row (List.length b))
        with (map (prefix_distance a b 0) (seq 0 (S (List.length b))))
        by apply map_id.
      rewrite (@rows_from_spec a b a [] 0 eq_refl eq_refl).
      apply last_map_seq.
Qed.

Lemma cost_same (x : ascii) : cost x x = 0.
Proof. unfold cost. now rewrite Ascii.eqb_refl. Qed.

Lemma prefix_distance_diag (a : str) (i : nat) : prefix_distance a a i i = 0.
Proof.
  induction i as [| i IH]; [reflexivity |].
  rewrite prefix_distance_step, IH, cost_same. lia.
Qed.

Lemma levenshtein_same (a : str) : levenshtein a a = 0.
Proof.
  rewrite levenshtein_edit_distance. apply prefix_distance_diag.
Qed.

End LevenshteinFacts.

(** ** Reconciliation *)

Create HintDb traced.

Section StockFacts.
Import Stock.
Context {P : JsParsers}.
Local Open Scope Z_scope.

Lemma traced_ret {A} (a : A) : traced (ret a).
Proof.
  intros s r s' H. inversion H; subst. exists []. now rewrite app_nil_r.
Qed.

Lemma traced_bind {A B} (m : M A) (k : A -> M B) :
  traced m -> (forall a, traced (k a)) -> traced (bind m k).
Proof.
  intros Hm Hk s r s' H. unfold bind in H.
  destruct (m s) as [[a |] s1] eqn:E.
  - destruct (Hm _ _ _ E) as [e1 [L1 O1]].
    destruct (Hk a _ _ _ H) as [e2 [L2 O2]].
    exists (e1 ++ e2). split.
    + now rewrite L2, L1, app_assoc.
    + destruct r.
      * now rewrite forallb_app, O1, O2.
      * rewrite existsb_app, O2. apply orb_true_r.
  - inversion H; subst. exact (Hm _ _ _ E).
Qed.

Lemma apply_statement_log (now : Z) (st : statement) (s s' : session)
    (rows : list product) :
  apply_statement now st s = Some (rows, s') -> log s' = log s.
Proof.
  destruct st; simpl; intros H;
    repeat match type of H with
      | context [match ?x with _ => _ end] => destruct x
      end;
    inversion H; reflexivity.
Qed.

Lemma traced_query (faults : environment) (now : Z) (st : statement) :
  traced (query faults now st).
Proof.
  intros s r s' H. unfold query in H.
  destruct (faults _ st).
  - inversion H; subst. now exists [(st, false)].
  - destruct (apply_statement now st s) as [[rows s1] |] eqn:E.
    + inversion H; subst. exists [(st, true)]. simpl.
      now rewrite (apply_statement_log _ _ _ _ _ E).
    + inversion H; subst. now exists [(st, false)].
Qed.

Hint Resolve traced_ret traced_bind traced_query : traced.

Lemma traced_upsert_item (faults : environment) (now : Z) (it : item) :
  traced (upsert_item faults now it).
Proof.
  unfold upsert_item. apply traced_bind; auto with traced.
  intros [| row rows]; auto with traced.
Qed.

Lemma traced_for_each (faults : environment) (now : Z) (its : list item) :
  traced (for_each faults now its).
Proof.
  induction its; simpl; auto using traced_upsert_item with traced.
Qed.

Lemma traced_save_invoice (faults : environment) (now : Z)
    (info : option invoice_info) :
  traced (save_invoice faults now info).
Proof. destruct info; simpl; auto with traced. Qed.

Lemma traced_transaction (faults : environment) (now : Z) (req : request) :
  traced (transaction faults now req).
Proof.
  unfold transaction.
  auto 10 using traced_for_each, traced_save_invoice with traced.
Qed.

Lemma forallb_snd_no_failure (lg : list (statement * bool)) (st : statement) :
  forallb snd lg = true -> In (st, false) lg -> False.
Proof.
  intros H I. rewrite forallb_forall in H. now specialize (H _ I).
Qed.

Lemma existsb_failure (lg : list (statement * bool)) :
  existsb (fun e => negb (snd e)) lg = true -> exists st, In (st, false) lg.
Proof.
  intros H. apply existsb_exists in H. destruct H as [[st b] [I N]].
  destruct b; [discriminate | now exists st].
Qed.

(** C1. [POST /add-stock] is all-or-nothing.  Whenever a statement of
    the reconciliation fails (the log of the request holds a statement
    that did not go through: [BEGIN], the invoice insert, a select, an
    update or an insert of an item, or [COMMIT]), the response is the
    one transaction-failed error and the tables [products] and
    [invoices] are what they were before the call; in particular so
    when the invoice insert went through and a later statement of an
    item threw.  A response other than that error is sent only when no
    statement failed. *)
Theorem add_stock_all_or_nothing
    (faults : environment) (now : Z) (d d' : db) (req : request)
    (resp : response) (lg : list (statement * bool)) :
  add_stock faults now d req = (resp, d', lg) ->
  ((exists st, In (st, false) lg) ->
     resp = TransactionFailed /\
     products (committed d') = products (committed d) /\
     invoices (committed d') = invoices (committed d)) /\
  (resp = TransactionFailed <-> exists st, In (st, false) lg).
Proof.
  unfold add_stock. intros H.
  destruct (transaction faults now req (open_session d)) as [r s] eqn:E.
  destruct (traced_transaction _ _ _ _ _ _ E) as [ext [L O]].
  simpl in L. subst ext.
  destruct r as [u |]; inversion H; subst; clear H.
  - split.
    + intros [st I]. now destruct (forallb_snd_no_failure _ _ O I).
    + split; [discriminate |].
      intros [st I]. now destruct (forallb_snd_no_failure _ _ O I).
  - split; [now intros _ |].
    split; [intros _; now apply existsb_failure | reflexivity].
Qed.

End StockFacts.

Section UpsertFacts.
Import Stock.
Context {P : JsParsers}.
Local Open Scope Z_scope.

Lemma str_eqb_refl (a : str) : str_eqb a a = true.
Proof. unfold str_eqb. now destruct (list_eq_dec ascii_dec a a). Qed.

Lemma str_eqb_eq (a b : str) : str_eqb a b = true <-> a = b.
Proof.
unfold str_eqb. destruct (list_eq_dec ascii_dec a b); split; auto; discriminate.
Qed.

Lemma query_returns (faults : environment) (now : Z) (st : statement)
  (s s' : session) (rows : list product) :
  query faults now st s = (Some rows, s') ->
  exists s1, apply_statement now st s = Some (rows, s1) /\ s' = logged st true s1.
Proof.
unfold query. destruct (faults _ st); [discriminate |].
destruct (apply_statement now st s) as [[rows1 s1] |]; [| discriminate].
intros H. inversion H; subst. now exists s1.
Qed.

Lemma update_quantity_ids (now q i : Z) (ps : list product) :
  map p_id (update_quantity now q i ps) = map p_id ps.
Proof.
unfold update_quantity. rewrite map_map. apply map_ext.
intros r. now destruct (p_id r =? i).
Qed.

Lemma update_quantity_other (now q i : Z) (ps : list product) :
  ~ In i (map p_id ps) -> update_quantity now q i ps = ps.
Proof.
induction ps as [| p r IH]; simpl; intros H; [reflexivity |].
destruct (Z.eqb_spec (p_id p) i) as [E | _]; [tauto |].
f_equal. apply IH. tauto.
Qed.

(** Under the primary key, the update by identifier of the first row of
    the select is the increment of the first product with that
    description. *)
Lemma update_is_increment_first (now qty : Z) (d : str) (ps : list product)
  (row : product) (rest : list product) :
  NoDup (map p_id ps) ->
  filter (fun r => str_eqb (p_description r) d) ps = row :: rest ->
  increment_first now d qty ps =
  Some (update_quantity now
          (match p_quantity row with Some q => q | None => 0 end + qty)
          (p_id row) ps).
Proof.
induction ps as [| p r IH]; simpl; intros N F; [discriminate |].
inversion N as [| ? ? Hnotin N']; subst.
destruct (str_eqb (p_description p) d) eqn:E.
- inversion F; subst. rewrite Z.eqb_refl.
  now rewrite (update_quantity_other _ _ _ _ Hnotin).
- rewrite (IH N' F). simpl.
  destruct (Z.eqb_spec (p_id p) (p_id row)) as [Eid | _]; [| reflexivity].
  exfalso. apply Hnotin. rewrite Eid. apply in_map.
  assert (I : In row (filter (fun r0 => str_eqb (p_description r0) d) r))
    by (rewrite F; now left).
  now apply filter_In in I.
Qed.

Lemma increment_first_none (now qty : Z) (d : str) (ps : list product) :
  filter (fun r => str_eqb (p_description r) d) ps = [] ->
  increment_first now d qty ps = None.
Proof.
induction ps as [| p r IH]; simpl; intros F; [reflexivity |].
destruct (str_eqb (p_description p) d); [discriminate |].
now rewrite (IH F).
Qed.

Lemma primary_key_update (now q i next : Z) (ps : list product) :
  primary_key ps next -> primary_key (update_quantity now q i ps) next.
Proof.
intros [N B]. split.
- now rewrite update_quantity_ids.
- unfold update_quantity. rewrite Forall_map.
  eapply Forall_impl; [| exact B]. intros r Hr. simpl.
  now destruct (p_id r =? i).
Qed.

Lemma primary_key_insert (next : Z) (ps : list product) (row : product) :
  p_id row = next ->
  primary_key ps next -> primary_key (ps ++ [row]) (next + 1).
Proof.
intros E [N B]. split.
- rewrite map_app. simpl. apply NoDup_app_remove_l with (l := []). simpl.
  rewrite <- (rev_involutive (map p_id ps ++ [p_id row])).
  apply NoDup_rev. rewrite rev_app_distr. simpl. constructor.
  + rewrite <- in_rev. intros I. apply in_map_iff in I.
    destruct I as [r [Er Ir]]. rewrite Forall_forall in B.
    specialize (B _ Ir). lia.
  + now apply NoDup_rev.
- apply Forall_app. split.
  + eapply Forall_impl; [| exact B]. intros r Hr. simpl in Hr. lia.
  + constructor; [lia | constructor].
Qed.

(** One turn of the loop that returns normally is the additive upsert. *)
Lemma upsert_item_spec (faults : environment) (now : Z) (it : item)
  (s s' : session) :
  upsert_item faults now it s = (Some tt, s') ->
  primary_key (products (work s)) (next_product_id s) ->
  (products (work s'), next_product_id s')
  = additive_upsert now (products (work s), next_product_id s) it /\
  invoices (work s') = invoices (work s) /\
  next_invoice_id s' = next_invoice_id s /\
  primary_key (products (work s')) (next_product_id s').
Proof.
unfold upsert_item, bind. intros H K.
destruct (query faults now (SelectProductsByDescription (item_description it)) s)
  as [[check |] s1] eqn:Q1; [| discriminate].
apply query_returns in Q1. destruct Q1 as [s0 [A1 L1]].
unfold additive_upsert. simpl in A1.
destruct (item_description it) as [d |] eqn:D.
- inversion A1; subst s0 check; clear A1.
  destruct (filter _ _) as [| row rest] eqn:F.
  + destruct (query faults now _ s1) as [[rows |] s2] eqn:Q2; [| discriminate].
    apply query_returns in Q2. destruct Q2 as [s3 [A2 L2]].
    inversion H; clear H. subst s1. simpl in A2.
    destruct (in_int4 _); [| discriminate].
    inversion A2; clear A2. subst. simpl.
    rewrite (increment_first_none _ _ _ _ F).
    split; [reflexivity | split; [reflexivity | split; [reflexivity |]]].
    now apply primary_key_insert.
  + destruct (query faults now _ s1) as [[rows |] s2] eqn:Q2; [| discriminate].
    apply query_returns in Q2. destruct Q2 as [s3 [A2 L2]].
    inversion H; clear H. subst s1. simpl in A2.
    destruct (in_int4 _); [| discriminate].
    inversion A2; clear A2. subst. simpl.
    destruct K as [N B].
    rewrite (@update_is_increment_first now (int_or_0 (item_quantity it)) d _ row rest N F).
    split; [reflexivity | split; [reflexivity | split; [reflexivity |]]].
    now apply primary_key_update.
- inversion A1; subst s0 check; clear A1.
  destruct (query faults now _ s1) as [[rows |] s2] eqn:Q2; [| discriminate].
  apply query_returns in Q2. destruct Q2 as [s3 [A2 L2]].
  subst s1. simpl in A2. discriminate.
Qed.

Lemma for_each_spec (faults : environment) (now : Z) (its : list item) :
  forall s s',
    for_each faults now its s = (Some tt, s') ->
    primary_key (products (work s)) (next_product_id s) ->
    (products (work s'), next_product_id s')
    = fold_left (additive_upsert now) its
        (products (work s), next_product_id s) /\
    invoices (work s') = invoices (work s) /\
    next_invoice_id s' = next_invoice_id s.
Proof.
induction its as [| it rest IH]; simpl; intros s s' H K.
- inversion H; subst. auto.
- unfold bind in H.
  destruct (upsert_item faults now it s) as [[[] |] s1] eqn:U; [| discriminate].
  destruct (upsert_item_spec _ _ _ _ _ U K) as [E1 [E2 [E3 K1]]].
  destruct (IH _ _ H K1) as [F1 [F2 F3]].
  rewrite <- E1, F1, F2, F3. auto.
Qed.

Lemma save_invoice_spec (faults : environment) (now : Z)
  (info : option invoice_info) (s s' : session) :
  save_invoice faults now info s = (Some tt, s') ->
  products (work s') = products (work s) /\
  next_product_id s' = next_product_id s /\
  invoices (work s') = invoices (work s) ++ invoice_rows now (next_invoice_id s) info.
Proof.
destruct info as [i |]; simpl; intros H.
- unfold bind in H.
  destruct (query faults now _ s) as [[rows |] s1] eqn:Q; [| discriminate].
  apply query_returns in Q. destruct Q as [s0 [A L]].
  inversion H; subst s'; clear H. simpl in A. inversion A; subst. now simpl.
- inversion H; subst. now rewrite app_nil_r.
Qed.

(** A request that commits leaves the fold of the additive upsert over
    its items, and its invoice row if it has one. *)
Lemma add_stock_committed (faults : environment) (now : Z) (d d' : db)
  (req : request) (lg : list (statement * bool)) :
  primary_key (products (committed d)) (products_id_seq d) ->
  add_stock faults now d req = (StockUpdated, d', lg) ->
  (products (committed d'), products_id_seq d')
  = fold_left (additive_upsert now) (items req)
      (products (committed d), products_id_seq d) /\
  invoices (committed d')
  = invoices (committed d) ++ invoice_rows now (invoices_id_seq d) (invoiceInfo req).
Proof.
unfold add_stock, transaction, bind. intros K H.
destruct (query faults now BEGIN (open_session d)) as [[r0 |] s0] eqn:Q0;
  [| discriminate].
apply query_returns in Q0. destruct Q0 as [t0 [A0 L0]].
simpl in A0. inversion A0; subst t0 r0; clear A0.
destruct (save_invoice faults now (invoiceInfo req) s0) as [[[] |] s1] eqn:Q1;
  [| discriminate].
destruct (save_invoice_spec _ _ _ _ _ Q1) as [I1 [I2 I3]].
destruct (for_each faults now (items req) s1) as [[[] |] s2] eqn:Q2;
  [| discriminate].
assert (K1 : primary_key (products (work s1)) (next_product_id s1)).
{ rewrite I1, I2. subst s0. exact K. }
destruct (for_each_spec _ _ _ _ _ Q2 K1) as [F1 [F2 F3]].
destruct (query faults now COMMIT s2) as [[r3 |] s3] eqn:Q3; [| discriminate].
apply query_returns in Q3. destruct Q3 as [t3 [A3 L3]].
simpl in A3. inversion A3; subst t3 r3; clear A3.
inversion H; subst d' lg; clear H. subst s3. simpl.
rewrite F1, F2, I1, I2, I3. subst s0. simpl. auto.
Qed.

End UpsertFacts.

Section FrameFacts.
Import Stock.
Context {P : JsParsers}.
Local Open Scope Z_scope.

Lemma find_filter_head (f : product -> bool) (ps : list product) (p : product) :
  find f ps = Some p -> exists rest, filter f ps = p :: rest.
Proof.
induction ps as [| r ps IH]; simpl; [discriminate |].
destruct (f r).
- intros H. inversion H; subst. eauto.
- exact IH.
Qed.

Lemma unique_by_id (ps : list product) (p r : product) :
  NoDup (map p_id ps) -> In p ps -> In r ps -> p_id r = p_id p -> r = p.
Proof.
induction ps as [| q ps IH]; simpl; intros N Ip Ir E; [tauto |].
inversion N as [| ? ? Hnotin N']; subst.
destruct Ip as [-> | Ip], Ir as [-> | Ir]; auto.
- exfalso. apply Hnotin. rewrite <- E. now apply in_map.
- exfalso. apply Hnotin. rewrite E. now apply in_map.
Qed.

(** C10. Frame property of reconciliation on an existing product.  When
    the description of an item is that of an existing product [p] (the
    first one the select returns) and the turn of the loop goes through,
    row by row the table after it is the table before it, except that
    [p] has its quantity incremented by the parsed quantity and its
    [last_updated] set to the time of the transaction: the identifier,
    reference, description, unit price, unit and category of [p] are
    what they were, whatever unit price and reference the item
    carries; no other row of [products] and no row of [invoices] is
    modified. *)
Theorem matched_item_changes_one_quantity
  (faults : environment) (now : Z) (it : item) (s s' : session)
  (d : str) (p : product) :
  NoDup (map p_id (products (work s))) ->
  item_description it = Some d ->
  find (fun r => str_eqb (p_description r) d) (products (work s)) = Some p ->
  upsert_item faults now it s = (Some tt, s') ->
  let p' := incremented now (int_or_0 (item_quantity it)) p in
  Forall2 (fun r r' => (r = p -> r' = p') /\ (r <> p -> r' = r))
    (products (work s)) (products (work s')) /\
  invoices (work s') = invoices (work s) /\
  p_id p' = p_id p /\
  p_reference p' = p_reference p /\
  p_description p' = p_description p /\
  p_unit_price p' = p_unit_price p /\
  p_unit p' = p_unit p /\
  p_category p' = p_category p /\
  p_quantity p'
  = Some (match p_quantity p with Some q => q | None => 0 end
          + int_or_0 (item_quantity it)) /\
  p_last_updated p' = Some now.
Proof.
intros N D F H p'.
destruct (find_filter_head _ _ _ F) as [rest Hf].
assert (Ip : In p (products (work s))).
{ apply find_some in F. tauto. }
unfold upsert_item, bind in H.
destruct (query faults now _ s) as [[check |] s1] eqn:Q1; [| discriminate].
apply query_returns in Q1. destruct Q1 as [s0 [A1 L1]].
rewrite D in A1. simpl in A1. rewrite Hf in A1.
inversion A1; subst s0 check; clear A1.
destruct (query faults now _ s1) as [[rows |] s2] eqn:Q2; [| discriminate].
apply query_returns in Q2. destruct Q2 as [s3 [A2 L2]].
inversion H; clear H. subst s1. simpl in A2.
destruct (in_int4 _); [| discriminate].
inversion A2; clear A2. subst. simpl.
split; [| repeat split].
unfold update_quantity.
assert (U : forall r, In r (products (work s)) -> p_id r = p_id p -> r = p)
  by (intros r Ir E; now apply (unique_by_id _ _ _ N Ip Ir)).
clear - U. induction (products (work s)) as [| r ps IH]; simpl; constructor.
- destruct (Z.eqb_spec (p_id r) (p_id p)) as [E | E].
  + rewrite (U r (or_introl eq_refl) E). split; [reflexivity | tauto].
  + split; [| reflexivity]. intros ->. tauto.
- apply IH. intros r0 I0. apply U. now right.
Qed.

End FrameFacts.

Section AdditiveFacts.
Import Stock.
Context {P : JsParsers}.
Local Open Scope Z_scope.





End AdditiveFacts.

(** ** The reconciliation at sample requests *)

Section StockSamples.
Import Stock.
Local Open Scope Z_scope.

Lemma add_stock_all_or_nothing_witness :
  exists resp d' lg,
    add_stock Sample.third_fails 7 Sample.empty_db Sample.widget_invoiced
    = (resp, d', lg) /\
    (exists n s t dt, nth_error lg 1 = Some (InsertInvoice n s t dt, true)) /\
    resp = TransactionFailed /\
    products (committed d') = [] /\
    invoices (committed d') = [].
Proof.
eexists _, _, _. split; [lazy; reflexivity |].
split; [do 4 eexists; reflexivity |].
apply (proj1 (add_stock_all_or_nothing Sample.third_fails 7 Sample.empty_db _
                Sample.widget_invoiced _ _ eq_refl)).
eexists. right. right. left. reflexivity.
Defined.



Lemma matched_item_changes_one_quantity_witness :
  exists s',
    upsert_item no_faults 7 Sample.widget_repriced Sample.stocked = (Some tt, s') /\
    Forall2 (fun r r' =>
               (r = Sample.widget_row ->
                r' = incremented 7 3 Sample.widget_row) /\
               (r <> Sample.widget_row -> r' = r))
      [Sample.widget_row; Sample.gadget_row] (products (work s')) /\
    p_unit_price (incremented 7 3 Sample.widget_row) = Some (Float64.of_Z 2) /\
    p_quantity (incremented 7 3 Sample.widget_row) = Some 8.
Proof.
exists (snd (upsert_item no_faults 7 Sample.widget_repriced Sample.stocked)).
split; [lazy; reflexivity |].
destruct (matched_item_changes_one_quantity no_faults 7 Sample.widget_repriced
            Sample.stocked
            (snd (upsert_item no_faults 7 Sample.widget_repriced Sample.stocked))
            (lit "Widget A") Sample.widget_row)
  as (A & _ & _ & _ & _ & B & _ & _ & C & _).
- simpl. repeat constructor; simpl; intuition discriminate.
- reflexivity.
- reflexivity.
- lazy. reflexivity.
- split; [exact A | split; [exact B | exact C]].
Defined.

End StockSamples.

(** ** Matching *)

Section MatcherFacts.
Import Matcher.
Local Open Scope Z_scope.

Lemma insert_sorted_length (x : scored) (l : list scored) :
  List.length (insert_sorted x l) = S (List.length l).
Proof.
induction l as [| y r IH]; simpl; [reflexivity |].
destruct (ltb _ _); simpl; [now rewrite IH | reflexivity].
Qed.

Lemma sort_by_score_length (l : list scored) :
  List.length (sort_by_score l) = List.length l.
Proof.
induction l as [| x r IH]; simpl; [reflexivity |].
now rewrite insert_sorted_length, IH.
Qed.

Lemma insert_sorted_in (x y : scored) (l : list scored) :
  In y (insert_sorted x l) <-> y = x \/ In y l.
Proof.
induction l as [| z r IH]; simpl.
- intuition.
- destruct (ltb _ _); simpl; rewrite ?IH; intuition.
Qed.

Lemma sort_by_score_in (y : scored) (l : list scored) :
  In y (sort_by_score l) <-> In y l.
Proof.
induction l as [| x r IH]; simpl; [tauto |].
rewrite insert_sorted_in, IH. intuition.
Qed.

Lemma firstn_3_of_5 {A} (l : list A) : firstn 3 (firstn 5 l) = firstn 3 l.
Proof. rewrite firstn_firstn. reflexivity. Qed.

Lemma rank_head (d : db) (description : str) :
  products (committed d) <> [] ->
  exists top rest,
    rank description (map view_of (products (committed d))) = top :: rest /\
    hd_error (sort_by_score (scored_catalog d description)) = Some top /\
    In (candidate top) (map view_of (products (committed d))).
Proof.
intros N. unfold rank. fold (scored_catalog d description).
destruct (sort_by_score (scored_catalog d description)) as [| top rest] eqn:E.
- exfalso. apply (f_equal (@List.length _)) in E.
  rewrite sort_by_score_length in E. unfold scored_catalog, score_all in E.
  rewrite !length_map in E. apply N. now apply length_zero_iff_nil.
- exists top, (firstn 4 rest). split; [reflexivity | split; [reflexivity |]].
  assert (I : In top (scored_catalog d description)).
  { apply sort_by_score_in. rewrite E. now left. }
  unfold scored_catalog, score_all in I. apply in_map_iff in I.
  destruct I as [v [Ev Iv]]. now subst top.
Qed.

Lemma findBestMatchWithGemini_unavailable (ask : oracle) (name : str)
  (candidates : list scored) :
  (forall q c, ask q c = Unavailable) ->
  findBestMatchWithGemini ask name candidates = None.
Proof.
intros U. unfold findBestMatchWithGemini.
destruct candidates; [reflexivity | now rewrite U].
Qed.

(** C6. The code at an item without stored mapping for which the
    oracle names an identifier that none of the candidates it was given
    has: the match is the head of the ranking, the top deterministic
    candidate, but the result is attributed to "ai-gemini" and scored
    with the confidence of the oracle; it is not attributed to the
    heuristic. *)
Theorem stray_oracle_id_is_attributed_to_oracle
  (ask : oracle) (d : db) (item : line_item) (top : scored)
  (rest : list scored) (a : ai_response) (k : Z) (x : number) :
  let description :=
    match line_description item with Some t => t | None => [] end in
  (if nonempty (normalizeText description)
   then mapping_query d (normalizeText description) else []) = [] ->
  rank description (map view_of (products (committed d))) = top :: rest ->
  ltb (score top) (of_Z 100) = true ->
  ask description (top :: rest) = Parsed (Some a) ->
  best_match_id a = Some k ->
  k <> 0 ->
  (forall c, In c (top :: rest) -> id (candidate c) <> k) ->
  confidence a = Some x ->
  truthy x = true ->
  let r := match_item ask d item in
  source r = SrcAiGemini /\
  source r <> SrcSuggestion /\
  matched r = Some (candidate top) /\
  result_score r = x.
Proof.
intros description Q R L A B K O C T. unfold match_item.
fold description. rewrite Q.
unfold heuristic_match. rewrite R, L.
unfold findBestMatchWithGemini. rewrite A. unfold usable_id. rewrite B.
destruct (Z.eqb_spec k 0) as [E | _]; [tauto |].
assert (F : find (fun p => id (candidate p) =? k) (top :: rest) = None).
{ destruct (find _ _) as [c |] eqn:Fd; [| reflexivity].
  apply find_some in Fd. destruct Fd as [Ic Ec].
  apply Z.eqb_eq in Ec. now destruct (O c Ic). }
rewrite F. simpl. rewrite C. unfold first_truthy. rewrite T.
repeat split. discriminate.
Qed.

(** C7, as amended. A result resolved by a stored mapping carries an
    empty list of suggestions; every other result (resolved by the
    oracle or by the heuristic fallback) carries the three best scored
    candidates of the catalog, in ranking order. *)
Theorem suggestions_by_source (ask : oracle) (d : db) (item : line_item) :
  let r := match_item ask d item in
  let description :=
    match line_description item with Some t => t | None => [] end in
  suggestions r
  = match source r with
    | SrcMapping => []
    | _ => firstn 3 (sort_by_score (scored_catalog d description))
    end.
Proof.
unfold match_item.
destruct (if nonempty _ then _ else _) as [| row rows]; [| reflexivity].
unfold heuristic_match, rank. cbn [suggestions source].
fold (scored_catalog d (match line_description item with Some t => t | None => [] end)).
rewrite firstn_3_of_5.
now destruct (usable_id _).
Qed.

End MatcherFacts.

(** ** The mapping store *)

Section MappingFacts.
Import Mapping Matcher.
Local Open Scope Z_scope.

Variable ps : list product.
Variable key : str.

Lemma no_key_no_row (ms : list mapping) :
  existsb (has_key key) ms = false -> flat_map (joined ps key) ms = [].
Proof.
induction ms as [| m r IH]; simpl; [reflexivity |].
intros H. apply orb_false_iff in H. destruct H as [Hm Hr].
unfold joined at 1. unfold has_key in Hm. rewrite Hm. now apply IH.
Qed.

Lemma no_key_no_update (pid : Z) (sid : option str) (ms : list mapping) :
  existsb (has_key key) ms = false -> on_conflict_update key pid sid ms = ms.
Proof.
induction ms as [| m r IH]; simpl; [reflexivity |].
intros H. apply orb_false_iff in H. destruct H as [Hm Hr].
rewrite Hm. now rewrite IH.
Qed.

Lemma absent_key (ms : list mapping) :
  ~ In key (map m_supplier_name_normalized ms) -> existsb (has_key key) ms = false.
Proof.
induction ms as [| m r IH]; simpl; [reflexivity |].
intros H. apply orb_false_iff. split.
- unfold has_key. destruct (str_eqb _ key) eqn:E; [| reflexivity].
  apply str_eqb_eq in E. exfalso. apply H. now left.
- apply IH. intros I. apply H. now right.
Qed.

Lemma present_key (ms : list mapping) :
  existsb (has_key key) ms = false -> ~ In key (map m_supplier_name_normalized ms).
Proof.
induction ms as [| m r IH]; simpl; [tauto |].
intros H. apply orb_false_iff in H. destruct H as [Hm Hr].
intros [E | I]; [| now apply IH].
unfold has_key in Hm. rewrite E, str_eqb_refl in Hm. discriminate.
Qed.

Lemma updated_rows_join (pid : Z) (sid : option str) (ms : list mapping) :
  NoDup (map m_supplier_name_normalized ms) ->
  existsb (has_key key) ms = true ->
  flat_map (joined ps key) (on_conflict_update key pid sid ms)
  = map view_of (filter (fun p => p_id p =? pid) ps).
Proof.
induction ms as [| m r IH]; simpl; intros N E; [discriminate |].
inversion N as [| ? ? Hnotin N']; subst.
destruct (has_key key m) eqn:K; unfold has_key in K.
- simpl. unfold joined at 1. simpl. rewrite K.
  apply str_eqb_eq in K. rewrite K in Hnotin.
  rewrite (no_key_no_update _ _ _ (absent_key _ Hnotin)).
  rewrite (no_key_no_row _ (absent_key _ Hnotin)). apply app_nil_r.
- simpl in E. simpl. unfold joined at 1. rewrite K. simpl. now apply IH.
Qed.

Lemma updated_rows_keys (pid : Z) (sid : option str) (ms : list mapping) :
  map m_supplier_name_normalized (on_conflict_update key pid sid ms)
  = map m_supplier_name_normalized ms.
Proof.
unfold on_conflict_update. rewrite map_map. apply map_ext.
intros m. now destruct (has_key key m).
Qed.

Lemma no_key_no_filter (ms : list mapping) :
  existsb (has_key key) ms = false -> filter (has_key key) ms = [].
Proof.
induction ms as [| m r IH]; simpl; [reflexivity |].
intros H. apply orb_false_iff in H. destruct H as [Hm Hr].
rewrite Hm. now apply IH.
Qed.

Lemma one_row_per_key (ms : list mapping) :
  NoDup (map m_supplier_name_normalized ms) ->
  existsb (has_key key) ms = true ->
  List.length (filter (has_key key) ms) = 1%nat.
Proof.
induction ms as [| m r IH]; simpl; intros N E; [discriminate |].
inversion N as [| ? ? Hnotin N']; subst.
destruct (has_key key m) eqn:K.
- unfold has_key in K. apply str_eqb_eq in K. rewrite K in Hnotin.
  now rewrite (no_key_no_filter _ (absent_key _ Hnotin)).
- simpl in E. now apply IH.
Qed.

(** Rows of the key that already hold the values are left alone. *)
Lemma update_with_same_values (pid : Z) (sid : option str) (ms : list mapping) :
  (forall m, In m ms -> has_key key m = true ->
             m_product_id m = pid /\ m_supplier_id m = sid) ->
  on_conflict_update key pid sid ms = ms.
Proof.
induction ms as [| m r IH]; simpl; intros H; [reflexivity |].
rewrite IH by (intros x Ix; apply H; now right). f_equal.
destruct (has_key key m) eqn:K; [| reflexivity].
destruct (H m (or_introl eq_refl) K) as [E1 E2].
destruct m; simpl in *. now subst.
Qed.

Lemma updated_rows_hold_values (pid : Z) (sid : option str) (ms : list mapping) :
  forall m, In m (on_conflict_update key pid sid ms) -> has_key key m = true ->
            m_product_id m = pid /\ m_supplier_id m = sid.
Proof.
intros m I K. unfold on_conflict_update in I. apply in_map_iff in I.
destruct I as [x [E I]].
destruct (has_key key x) eqn:Kx.
- subst m. simpl. auto.
- subst m. rewrite Kx in K. discriminate.
Qed.

End MappingFacts.

Section MappingStore.
Import Mapping Matcher.
Local Open Scope Z_scope.

Lemma existing_product_joins (d : db) (pid : Z) :
  product_exists pid d = true ->
  exists p rest,
    filter (fun p => p_id p =? pid) (products (committed d)) = p :: rest /\
    p_id p = pid.
Proof.
unfold product_exists. intros E. apply existsb_exists in E.
destruct E as [p [I Ep]].
destruct (filter (fun p => p_id p =? pid) (products (committed d))) as [| q rest] eqn:F.
- assert (In p []) by (rewrite <- F; apply filter_In; auto). contradiction.
- exists q, rest. split; [reflexivity |].
  assert (Iq : In q (q :: rest)) by now left.
  rewrite <- F in Iq. apply filter_In in Iq. now apply Z.eqb_eq.
Qed.

(** What a successful save leaves: the request was well formed, the
    product exists, and the table is the upsert. *)
Lemma save_mapping_saved (throws : bool) (now : Z) (d d1 : db) (label : str)
  (pid : Z) (sid : option str) :
  save_mapping throws now d (mkRequest (Some label) (Some pid) sid)
  = (Saved, d1) ->
  pid <> 0 /\ product_exists pid d = true /\
  exists stored,
    varchar_100 (id_or_null sid) = Some stored /\
    d1 = upsert_mapping now label (normalizeText label) pid stored d.
Proof.
unfold save_mapping. simpl. destruct label as [| c l]; [discriminate |].
destruct (Z.eqb_spec pid 0); [discriminate |].
destruct (varchar_100 (id_or_null sid)) as [stored |]; [| discriminate].
destruct throws; [discriminate |]. simpl.
destruct (product_exists pid d); [| discriminate].
intros H. inversion H. eauto.
Qed.

Lemma save_mapping_again (now : Z) (d0 : db) (label : str) (pid : Z)
  (sid stored : option str) :
  label <> [] -> pid <> 0 ->
  varchar_100 (id_or_null sid) = Some stored ->
  product_exists pid d0 = true ->
  save_mapping false now d0 (mkRequest (Some label) (Some pid) sid)
  = (Saved, upsert_mapping now label (normalizeText label) pid stored d0).
Proof.
unfold save_mapping. simpl. destruct label as [| c l]; [tauto |].
intros _ N V E.
destruct (Z.eqb_spec pid 0); [tauto |].
rewrite V, E. reflexivity.
Qed.

Lemma upsert_lookup (now : Z) (d : db) (label key : str) (pid : Z)
  (sid : option str) :
  unique_keys d ->
  product_exists pid d = true ->
  exists row,
    mapping_query (upsert_mapping now label key pid sid d) key = [row] /\
    id row = pid.
Proof.
intros U E. destruct (existing_product_joins d pid E) as [p [rest [F Ep]]].
exists (view_of p). split; [| exact Ep].
unfold mapping_query, upsert_mapping. simpl.
destruct (existsb _ (supplier_mappings d)) eqn:X.
- rewrite (updated_rows_join (products (committed d)) key pid sid _ U X).
  now rewrite F.
- rewrite flat_map_app.
  rewrite (no_key_no_row (products (committed d)) key _ X).
  simpl. unfold joined at 1. simpl.
  rewrite str_eqb_refl, app_nil_r. simpl. now rewrite F.
Qed.

Lemma upsert_unique (now : Z) (d : db) (label key : str) (pid : Z)
  (sid : option str) :
  unique_keys d -> unique_keys (upsert_mapping now label key pid sid d).
Proof.
unfold unique_keys, upsert_mapping. simpl. intros U.
destruct (existsb _ (supplier_mappings d)) eqn:X.
- now rewrite updated_rows_keys.
- rewrite map_app. simpl.
  rewrite <- (rev_involutive (_ ++ [key])). apply NoDup_rev.
  rewrite rev_app_distr. simpl. constructor.
  + rewrite <- in_rev. now apply present_key.
  + now apply NoDup_rev.
Qed.

Lemma upsert_has_key (now : Z) (d : db) (label key : str) (pid : Z)
  (sid : option str) :
  existsb (has_key key)
    (supplier_mappings (upsert_mapping now label key pid sid d)) = true.
Proof.
unfold upsert_mapping. simpl.
destruct (existsb _ (supplier_mappings d)) eqn:X.
- clear - X. induction (supplier_mappings d) as [| m r IH]; simpl in *;
    [discriminate |].
  unfold on_conflict_update. simpl.
  destruct (has_key key m) eqn:K; simpl.
  + unfold has_key in *. simpl. now rewrite K.
  + rewrite K. simpl. now apply IH.
- rewrite existsb_app. simpl. unfold has_key at 2. simpl.
  rewrite str_eqb_refl. apply orb_true_r.
Qed.

Lemma upsert_holds_values (now : Z) (d : db) (label key : str) (pid : Z)
  (sid : option str) :
  forall m,
    In m (supplier_mappings (upsert_mapping now label key pid sid d)) ->
    has_key key m = true ->
    m_product_id m = pid /\ m_supplier_id m = sid.
Proof.
unfold upsert_mapping. simpl. intros m I K.
destruct (existsb _ (supplier_mappings d)) eqn:X.
- now apply (updated_rows_hold_values key pid sid (supplier_mappings d)).
- apply in_app_iff in I. destruct I as [I | [E | []]].
  + exfalso. assert (Y : existsb (has_key key) (supplier_mappings d) = true).
    { apply existsb_exists. now exists m. }
    congruence.
  + subst m. simpl. auto.
Qed.

(** C5. The mapping store is an upsert keyed on the normalised label.
    After a successful [save-mapping (label, pid)] the mapping query on
    [normalizeText label] returns the product [pid], and for a label
    whose normalisation is not empty [match-products] resolves it from
    the mapping; saving the same label with the same [pid] again leaves
    the tables as they are after the first save; saving it with another
    product [pid'] overwrites the association: the query then returns
    [pid'], and exactly one row of [supplier_mappings] has that key. *)
Theorem mapping_store_is_upsert
  (throws throws' : bool) (now now' : Z) (d d1 : db) (label : str)
  (pid pid' : Z) (sid sid' : option str) :
  unique_keys d ->
  save_mapping throws now d (mkRequest (Some label) (Some pid) sid)
  = (Saved, d1) ->
  let key := normalizeText label in
  (exists row, mapping_query d1 key = [row] /\ id row = pid) /\
  (nonempty key = true ->
   forall ask,
     exists row,
       matched (match_item ask d1 (mkLineItem (Some label))) = Some row /\
       id row = pid /\
       source (match_item ask d1 (mkLineItem (Some label))) = SrcMapping) /\
  (exists d2,
      save_mapping false now' d1 (mkRequest (Some label) (Some pid) sid)
      = (Saved, d2) /\
      supplier_mappings d2 = supplier_mappings d1 /\
      committed d2 = committed d1) /\
  (forall d3,
      save_mapping throws' now' d1 (mkRequest (Some label) (Some pid') sid')
      = (Saved, d3) ->
      (exists row, mapping_query d3 key = [row] /\ id row = pid') /\
      List.length
        (filter (has_key key) (supplier_mappings d3)) = 1%nat).
Proof.
intros U H key.
destruct (save_mapping_saved throws now d d1 label pid sid H)
  as (N & E & stored & V & Hd1).
assert (L : exists row, mapping_query d1 key = [row] /\ id row = pid).
{ subst d1. now apply upsert_lookup. }
assert (U1 : unique_keys d1) by (subst d1; now apply upsert_unique).
split; [exact L | split; [| split]].
- intros Ne ask. destruct L as [row [Q Ei]]. exists row.
  unfold match_item. simpl. fold key. rewrite Ne, Q. auto.
- exists (upsert_mapping now' label key pid stored d1).
  split; [| split].
  + apply save_mapping_again; [| exact N | exact V | subst d1; exact E].
    intros ->. discriminate H.
  + unfold upsert_mapping at 1. simpl.
    assert (X : existsb (has_key key) (supplier_mappings d1) = true)
      by (subst d1; apply upsert_has_key).
    rewrite X. apply update_with_same_values.
    subst d1. apply upsert_holds_values.
  + reflexivity.
- intros d3 H3.
  destruct (save_mapping_saved throws' now' d1 d3 label pid' sid' H3)
    as (N3 & E3 & stored3 & V3 & Hd3).
  split.
  + subst d3. now apply upsert_lookup.
  + apply one_row_per_key.
    * subst d3. now apply upsert_unique.
    * subst d3. apply upsert_has_key.
Qed.

End MappingStore.

(** ** The matcher and the mapping store at sample requests *)

Section MatcherSamples.
Import Mapping Matcher.
Local Open Scope Z_scope.

(** The oracle answers 999, with confidence 90, for the description
    "Widgit A" against a catalog of two products. *)
Lemma stray_oracle_id_is_attributed_to_oracle_witness :
  source (match_item Sample.stray_oracle Sample.catalog_db Sample.widgit)
  = SrcAiGemini /\
  source (match_item Sample.stray_oracle Sample.catalog_db Sample.widgit)
  <> SrcSuggestion /\
  matched (match_item Sample.stray_oracle Sample.catalog_db Sample.widgit)
  = Some (view_of Sample.widget_row) /\
  result_score (match_item Sample.stray_oracle Sample.catalog_db Sample.widgit)
  = of_Z 90.
Proof.
apply (stray_oracle_id_is_attributed_to_oracle
         Sample.stray_oracle Sample.catalog_db Sample.widgit
         (mkScored (view_of Sample.widget_row)
            (similarityScore (lit "Widgit A")
               (candidate_text (view_of Sample.widget_row))))
         [mkScored (view_of Sample.gadget_row)
            (similarityScore (lit "Widgit A")
               (candidate_text (view_of Sample.gadget_row)))]
         (mkAi (Some 999) (Some (of_Z 90)) (Some (lit "best guess")))
         999 (of_Z 90)).
- reflexivity.
- vm_compute. reflexivity.
- vm_compute. reflexivity.
- reflexivity.
- reflexivity.
- discriminate.
- intros c [<- | [<- | []]]; discriminate.
- reflexivity.
- reflexivity.
Defined.

(** A mapping hit comes with no suggestion although the catalog has
    candidates to offer. *)
Lemma mapping_hit_has_no_suggestions :
  source (match_item Sample.silent_oracle Sample.mapped_db Sample.acme_widget)
  = SrcMapping /\
  suggestions (match_item Sample.silent_oracle Sample.mapped_db Sample.acme_widget)
  = [] /\
  List.length
    (firstn 3 (sort_by_score (scored_catalog Sample.mapped_db (lit "ACME Widget!"))))
  = 2%nat /\
  suggestions (match_item Sample.silent_oracle Sample.mapped_db Sample.acme_widget)
  <> firstn 3 (sort_by_score (scored_catalog Sample.mapped_db (lit "ACME Widget!"))).
Proof.
vm_compute. repeat split. discriminate.
Qed.

Lemma mapping_store_is_upsert_witness :
  exists d1,
    save_mapping false 5 Sample.catalog_db
      (Mapping.mkRequest (Some (lit "ACME Widget!")) (Some 1) None) = (Saved, d1) /\
    (exists row,
        mapping_query d1 (lit "acme widget") = [row] /\ id row = 1) /\
    (forall d3,
        save_mapping false 6 d1
          (Mapping.mkRequest (Some (lit "ACME Widget!")) (Some 2) None) = (Saved, d3) ->
        (exists row, mapping_query d3 (lit "acme widget") = [row] /\ id row = 2) /\
        List.length
          (filter (has_key (lit "acme widget")) (supplier_mappings d3))
        = 1%nat).
Proof.
eexists. split; [lazy; reflexivity |].
destruct (mapping_store_is_upsert false false 5 6 Sample.catalog_db _
            (lit "ACME Widget!") 1 2 None None (NoDup_nil _) eq_refl)
  as (A & _ & _ & B).
split; [exact A | exact B].
Defined.

End MatcherSamples.

(** ** Rounding to binary64 *)

Section RoundingFacts.
Local Open Scope Z_scope.

Lemma fexp_eq (e : Z) : fexp prec emax e = Z.max (e - 53) (-1074).
Proof. reflexivity. Qed.

Lemma digits2_pos_size (p : positive) : digits2_pos p = Pos.size p.
Proof. induction p; simpl; now rewrite ?IHp. Qed.

Lemma Zdigits2_log2 (m : Z) : 0 < m -> Zdigits2 m = Z.log2 m + 1.
Proof.
destruct m as [| p | p]; try lia. intros _. simpl.
rewrite digits2_pos_size. destruct p; simpl; lia.
Qed.

Lemma Zdigits2_nonneg (m : Z) : 0 <= Zdigits2 m.
Proof. destruct m; simpl; lia. Qed.

Lemma Zdigits2_bounds (m : Z) :
  0 < m -> 2 ^ (Zdigits2 m - 1) <= m < 2 ^ Zdigits2 m.
Proof.
intros H. rewrite (Zdigits2_log2 m H).
replace (Z.log2 m + 1 - 1) with (Z.log2 m) by lia.
replace (Z.log2 m + 1) with (Z.succ (Z.log2 m)) by lia.
now apply Z.log2_spec.
Qed.

Lemma Zdigits2_le (m k : Z) : 0 <= k -> 0 <= m < 2 ^ k -> Zdigits2 m <= k.
Proof.
intros Hk [H0 H]. destruct (Z.eq_dec m 0) as [-> | N]; [simpl; lia |].
assert (P : 0 < m) by lia.
destruct (Zdigits2_bounds m P) as [L _].
destruct (Z_le_gt_dec (Zdigits2 m) k) as [|G]; [assumption |].
exfalso. assert (2 ^ k <= 2 ^ (Zdigits2 m - 1)) by (apply Z.pow_le_mono_r; lia).
lia.
Qed.

Lemma Zdigits2_gt (m k : Z) : 0 <= k -> 2 ^ k <= m -> k < Zdigits2 m.
Proof.
intros Hk H. assert (P : 0 < m).
{ assert (0 < 2 ^ k) by (apply Z.pow_pos_nonneg; lia). lia. }
destruct (Zdigits2_bounds m P) as [_ U].
destruct (Z_lt_ge_dec k (Zdigits2 m)) as [| G]; [assumption |].
exfalso. assert (2 ^ Zdigits2 m <= 2 ^ k).
{ apply Z.pow_le_mono_r; [lia |]. lia. }
lia.
Qed.

Lemma shr_1_m (mrs : shr_record) :
  0 <= shr_m mrs -> shr_m (shr_1 mrs) = shr_m mrs / 2.
Proof.
destruct mrs as [m r s]. simpl. intros H.
destruct m as [| p | p]; [reflexivity | | lia].
destruct p as [p | p |]; simpl.
- rewrite (Pos2Z.inj_xI p). apply Z.div_unique with (r := 1); lia.
- rewrite (Pos2Z.inj_xO p). apply Z.div_unique with (r := 0); lia.
- reflexivity.
Qed.

Lemma pow2_xO (p : positive) : 2 ^ Z.pos p~0 = 2 ^ Z.pos p * 2 ^ Z.pos p.
Proof.
rewrite (Pos2Z.inj_xO p).
replace (2 * Z.pos p) with (Z.pos p + Z.pos p) by lia.
apply Z.pow_add_r; lia.
Qed.

Lemma pow2_xI (p : positive) : 2 ^ Z.pos p~1 = 2 * 2 ^ Z.pos p * 2 ^ Z.pos p.
Proof.
rewrite (Pos2Z.inj_xI p).
replace (2 * Z.pos p + 1) with (1 + Z.pos p + Z.pos p) by lia.
rewrite !Z.pow_add_r by lia. reflexivity.
Qed.

Lemma iter_shr_1_m (p : positive) :
  forall mrs, 0 <= shr_m mrs ->
              shr_m (iter_pos shr_1 p mrs) = shr_m mrs / 2 ^ Z.pos p.
Proof.
assert (Q : forall k, 0 < 2 ^ Z.pos k) by (intros; apply Z.pow_pos_nonneg; lia).
assert (N : forall a b, 0 <= a -> 0 < b -> 0 <= a / b)
  by (intros; apply Z.div_pos; lia).
induction p as [p IH | p IH |]; intros mrs H; cbn [iter_pos].
- assert (H1 : 0 <= shr_m (shr_1 mrs)) by (rewrite shr_1_m; auto with zarith).
  assert (H2 : 0 <= shr_m (iter_pos shr_1 p (shr_1 mrs))) by (rewrite IH; auto).
  rewrite (IH _ H2), (IH _ H1), (shr_1_m _ H).
  pose proof (Q p) as Qp.
  rewrite (Z.div_div _ 2 (2 ^ Z.pos p)) by lia.
  rewrite (Z.div_div _ (2 * 2 ^ Z.pos p) (2 ^ Z.pos p)) by lia.
  now rewrite pow2_xI.
- assert (H2 : 0 <= shr_m (iter_pos shr_1 p mrs)) by (rewrite IH; auto).
  rewrite (IH _ H2), (IH _ H).
  pose proof (Q p) as Qp.
  rewrite Z.div_div by lia.
  now rewrite pow2_xO.
- rewrite (shr_1_m _ H). reflexivity.
Qed.

Lemma shr_record_of_loc_m (m : Z) (l : location) :
  shr_m (shr_record_of_loc m l) = m.
Proof. destruct l as [| []]; reflexivity. Qed.

(** The shift of [shr_fexp] is a floor division. *)
Lemma shr_fexp_spec (m e : Z) (l : location) :
  0 <= m ->
  shr_m (fst (shr_fexp prec emax m e l))
  = m / 2 ^ Z.max 0 (fexp prec emax (Zdigits2 m + e) - e) /\
  snd (shr_fexp prec emax m e l)
  = e + Z.max 0 (fexp prec emax (Zdigits2 m + e) - e).
Proof.
intros H. unfold shr_fexp, shr.
destruct (fexp prec emax (Zdigits2 m + e) - e) as [| p | p] eqn:E; simpl.
- rewrite shr_record_of_loc_m, Z.div_1_r. split; [reflexivity | lia].
- rewrite iter_shr_1_m by (rewrite shr_record_of_loc_m; assumption).
  rewrite shr_record_of_loc_m. split; reflexivity.
- rewrite shr_record_of_loc_m, Z.div_1_r. split; [reflexivity | lia].
Qed.

Lemma round_nearest_even_step (m : Z) (l : location) :
  round_nearest_even m l = m \/ round_nearest_even m l = m + 1.
Proof.
destruct l as [| []]; simpl; auto. destruct (Z.even m); auto.
Qed.

(** [binary_round_aux] in integer arithmetic: a first shift to the target
    exponent, one step of rounding, a second shift when the rounding
    carried into one more digit. *)
Lemma binary_round_aux_spec (s : bool) (mx ex : Z) (lx : location) :
  0 <= mx ->
  exists m2,
    let n1 := Z.max 0 (fexp prec emax (Zdigits2 mx + ex) - ex) in
    let m1 := mx / 2 ^ n1 in
    let e1 := ex + n1 in
    let n2 := Z.max 0 (fexp prec emax (Zdigits2 m2 + e1) - e1) in
    (m2 = m1 \/ m2 = m1 + 1) /\
    (lx = loc_Exact -> n1 = 0 -> m2 = m1) /\
    binary_round_aux prec emax s mx ex lx
    = match m2 / 2 ^ n2 with
      | Z0 => S754_zero s
      | Zpos m =>
          if e1 + n2 <=? emax - prec then S754_finite s m (e1 + n2)
          else S754_infinity s
      | Zneg _ => S754_nan
      end.
Proof.
intros H. unfold binary_round_aux.
destruct (shr_fexp_spec mx ex lx H) as [M1 E1].
destruct (shr_fexp prec emax mx ex lx) as [mrs1 e1] eqn:S1.
simpl in M1, E1.
set (m2 := round_nearest_even (shr_m mrs1) (loc_of_shr_record mrs1)).
assert (P1 : 0 <= shr_m mrs1).
{ rewrite M1. apply Z.div_pos; [assumption |]. apply Z.pow_pos_nonneg; lia. }
assert (P2 : 0 <= m2).
{ unfold m2. destruct (round_nearest_even_step (shr_m mrs1) (loc_of_shr_record mrs1))
    as [-> | ->]; lia. }
destruct (shr_fexp_spec m2 e1 loc_Exact P2) as [M2 E2].
destruct (shr_fexp prec emax m2 e1 loc_Exact) as [mrs2 e2] eqn:S2.
simpl in M2, E2.
exists m2. cbv zeta. rewrite <- E1, <- M1, <- E2, <- M2.
split; [apply round_nearest_even_step | split; [| reflexivity]].
intros -> N0. unfold m2.
assert (L : loc_of_shr_record mrs1 = loc_Exact).
{ unfold shr_fexp, shr in S1.
  destruct (fexp prec emax (Zdigits2 mx + ex) - ex) eqn:F;
    try (inversion S1; reflexivity).
  exfalso. lia. }
now rewrite L.
Qed.

(** A rounded result is a zero or has a mantissa of at most 53 digits and
    an exponent bounded by that of the argument; it is finite if that
    exponent fits and an infinity otherwise.  The sign is the one asked
    for. *)
Lemma binary_round_aux_cases (s : bool) (mx ex : Z) (lx : location) :
  0 <= mx ->
  binary_round_aux prec emax s mx ex lx = S754_zero s \/
  exists m e,
    Zdigits2 (Z.pos m) <= 53 /\
    e <= Z.max ex (fexp prec emax (Zdigits2 mx + ex + 1)) /\
    binary_round_aux prec emax s mx ex lx
    = if e <=? 971 then S754_finite s m e else S754_infinity s.
Proof.
intros H. destruct (binary_round_aux_spec s mx ex lx H) as [m2 [Hm2 [_ E]]].
cbv zeta in *. rewrite E. clear E.
set (n1 := Z.max 0 (fexp prec emax (Zdigits2 mx + ex) - ex)) in *.
set (e1 := ex + n1) in *.
set (n2 := Z.max 0 (fexp prec emax (Zdigits2 m2 + e1) - e1)) in *.
assert (Q1 : 0 < 2 ^ n1) by (apply Z.pow_pos_nonneg; lia).
assert (Q2 : 0 < 2 ^ n2) by (apply Z.pow_pos_nonneg; lia).
assert (P1 : 0 <= mx / 2 ^ n1) by (apply Z.div_pos; lia).
assert (P2 : 0 <= m2) by lia.
destruct (m2 / 2 ^ n2) as [| m | m] eqn:D; [now left | | ].
- right. exists m, (e1 + n2).
  assert (G2 : n2 < Zdigits2 m2).
  { apply Zdigits2_gt; [lia |].
    destruct (Z_le_gt_dec (2 ^ n2) m2) as [| G]; [assumption |].
    rewrite Z.div_small in D by lia. discriminate. }
  assert (Dm : Zdigits2 (Z.pos m) <= Zdigits2 m2 - n2).
  { apply Zdigits2_le; [lia |]. split; [lia |]. rewrite <- D.
    assert (0 < m2)
      by (destruct (Z.eq_dec m2 0) as [Z0 | ]; [rewrite Z0 in D; discriminate | lia]).
    apply Z.div_lt_upper_bound; [lia |].
    rewrite <- Z.pow_add_r by lia.
    replace (n2 + (Zdigits2 m2 - n2)) with (Zdigits2 m2) by lia.
    now apply Zdigits2_bounds. }
  assert (D2 : Zdigits2 m2 <= Zdigits2 mx - n1 + 1 \/ Zdigits2 m2 <= 1).
  { destruct (Z.eq_dec (mx / 2 ^ n1) 0) as [Z0 | NZ].
    - right. destruct Hm2 as [-> | ->]; rewrite Z0; simpl; lia.
    - left. assert (Pm : 0 < mx / 2 ^ n1) by lia.
      assert (n1 < Zdigits2 mx).
      { apply Zdigits2_gt; [lia |].
        destruct (Z_le_gt_dec (2 ^ n1) mx) as [| G]; [assumption |].
        rewrite Z.div_small in NZ by lia. lia. }
      apply Zdigits2_le; [lia |]. split; [lia |].
      assert (U : mx / 2 ^ n1 < 2 ^ (Zdigits2 mx - n1)).
      { apply Z.div_lt_upper_bound; [lia |].
        rewrite <- Z.pow_add_r by lia.
        replace (n1 + (Zdigits2 mx - n1)) with (Zdigits2 mx) by lia.
        apply Zdigits2_bounds.
        destruct (Z.eq_dec mx 0) as [Z0 | ]; [| lia].
        rewrite Z0 in NZ. rewrite Z.div_0_l in NZ; lia. }
      replace (Zdigits2 mx - n1 + 1) with (Z.succ (Zdigits2 mx - n1)) by lia.
      rewrite Z.pow_succ_r by lia. lia. }
  split; [| split; [| reflexivity]].
  + unfold n2, e1, n1 in *. rewrite ?fexp_eq in *. lia.
  + unfold n2, e1, n1 in *. rewrite ?fexp_eq in *. lia.
- exfalso. assert (0 <= m2 / 2 ^ n2) by (apply Z.div_pos; lia). lia.
Qed.

Lemma binary_round_aux_not_nan (s : bool) (mx ex : Z) (lx : location) :
  0 <= mx ->
  not_nan (binary_round_aux prec emax s mx ex lx) /\
  finite_53 (binary_round_aux prec emax s mx ex lx).
Proof.
intros H. destruct (binary_round_aux_cases s mx ex lx H) as [-> | (m & e & D & _ & ->)].
- split; [discriminate | exact I].
- destruct (e <=? 971); split; try discriminate; simpl; auto.
Qed.

End RoundingFacts.

(** ** Numbers of integers *)

Section IntegerNumbers.
Local Open Scope Z_scope.

Lemma iter_xO_Z (p d : positive) :
  Z.pos (Pos.iter xO p d) = Z.pos p * 2 ^ Z.pos d.
Proof.
induction d as [| d IH] using Pos.peano_ind.
- simpl. lia.
- rewrite Pos.iter_succ, (Pos2Z.inj_xO (Pos.iter xO p d)), IH, Pos2Z.inj_succ.
  rewrite Z.pow_succ_r by lia. lia.
Qed.

Lemma Zdigits2_shift (m k : Z) :
  0 < m -> 0 <= k -> Zdigits2 (m * 2 ^ k) = Zdigits2 m + k.
Proof.
intros Hm Hk.
assert (0 < 2 ^ k) by (apply Z.pow_pos_nonneg; lia).
rewrite !Zdigits2_log2 by nia.
rewrite Z.log2_mul_pow2 by lia. lia.
Qed.

Lemma Zdigits2_mul (a b : Z) :
  0 < a -> 0 < b -> Zdigits2 (a * b) <= Zdigits2 a + Zdigits2 b.
Proof.
intros Ha Hb.
pose proof (Zdigits2_bounds a Ha) as [_ Ua].
pose proof (Zdigits2_bounds b Hb) as [_ Ub].
pose proof (Zdigits2_nonneg a). pose proof (Zdigits2_nonneg b).
apply Zdigits2_le; [lia |]. split; [nia |].
rewrite Z.pow_add_r by lia. nia.
Qed.


(** The Number of a mantissa below 2^53 at exponent 0: the mantissa is
    shifted to 53 digits and nothing is rounded. *)
Lemma binary_round_small (s : bool) (p : positive) :
  Z.pos p < 2 ^ 53 ->
  exists m,
    binary_round prec emax s p 0
    = S754_finite s m (Zdigits2 (Z.pos p) - 53) /\
    Z.pos m = Z.pos p * 2 ^ (53 - Zdigits2 (Z.pos p)) /\
    Zdigits2 (Z.pos m) = 53.
Proof.
intros B.
assert (D1 : 1 <= Zdigits2 (Z.pos p)).
{ assert (0 < Zdigits2 (Z.pos p)); [| lia]. apply Zdigits2_gt; simpl; lia. }
assert (D2 : Zdigits2 (Z.pos p) <= 53) by (apply Zdigits2_le; lia).
unfold binary_round, shl_align.
change (Z.pos (digits2_pos p)) with (Zdigits2 (Z.pos p)).
rewrite fexp_eq.
set (d := Zdigits2 (Z.pos p)) in *.
assert (K : exists mz,
           Z.pos mz = Z.pos p * 2 ^ (53 - d) /\
           match Z.max (d + 0 - 53) (-1074) - 0 with
           | Z.neg k => (Pos.iter xO p k, Z.max (d + 0 - 53) (-1074))
           | _ => (p, 0)
           end = (mz, d - 53)).
{ destruct (Z.max (d + 0 - 53) (-1074) - 0) as [| k | k] eqn:E.
  - exists p. replace (53 - d) with 0 by lia.
    split; [simpl; lia | f_equal; lia].
  - lia.
  - exists (Pos.iter xO p k). split.
    + rewrite iter_xO_Z. f_equal. f_equal. lia.
    + f_equal. lia. }
destruct K as [mz [Hmz Hal]]. rewrite Hal.
assert (Dz : Zdigits2 (Z.pos mz) = 53).
{ rewrite Hmz, Zdigits2_shift by lia. fold d. lia. }
exists mz. split; [| split; assumption].
destruct (binary_round_aux_spec s (Z.pos mz) (d - 53) loc_Exact) as [m2 [_ [X E]]];
  [lia |].
cbv zeta in *.
assert (N1 : Z.max 0 (fexp prec emax (Zdigits2 (Z.pos mz) + (d - 53)) - (d - 53)) = 0)
  by (rewrite Dz, fexp_eq; lia).
rewrite N1 in X. specialize (X eq_refl eq_refl).
rewrite Z.pow_0_r, Z.div_1_r in X. subst m2.
rewrite N1, Z.add_0_r, N1, Z.pow_0_r, Z.div_1_r, Z.add_0_r in E.
rewrite E. change (emax - prec) with 971.
destruct (Z.leb_spec (d - 53) 971); [reflexivity | lia].
Qed.

End IntegerNumbers.

(** ** The operations of the scorer on Numbers *)

Section OperationFacts.
Local Open Scope Z_scope.

Lemma signed_not_nan (s : bool) (x : number) : signed s x -> not_nan x.
Proof. destruct x; simpl; intros H; try discriminate. contradiction. Qed.

Lemma binary_round_aux_signed (s : bool) (mx ex : Z) (lx : location) :
  0 <= mx ->
  signed s (binary_round_aux prec emax s mx ex lx) /\
  finite_53 (binary_round_aux prec emax s mx ex lx).
Proof.
intros H.
destruct (binary_round_aux_cases s mx ex lx H) as [-> | (m & e & D & _ & ->)].
- now split.
- destruct (e <=? 971); now split.
Qed.

Lemma binary_round_signed (s : bool) (p : positive) (e : Z) :
  signed s (binary_round prec emax s p e) /\
  finite_53 (binary_round prec emax s p e).
Proof.
unfold binary_round.
destruct (shl_align p e (fexp prec emax (Z.pos (digits2_pos p) + e))) as [mz ez].
apply binary_round_aux_signed. lia.
Qed.

Lemma binary_normalize_not_nan (m e : Z) :
  not_nan (binary_normalize prec emax m e false) /\
  finite_53 (binary_normalize prec emax m e false).
Proof.
destruct m as [| p | p]; simpl.
- split; [discriminate | exact I].
- destruct (binary_round_signed false p e) as [S F].
  split; [now apply signed_not_nan with (s := false) | assumption].
- destruct (binary_round_signed true p e) as [S F].
  split; [now apply signed_not_nan with (s := true) | assumption].
Qed.

Lemma of_Z_0 : of_Z 0 = S754_zero false.
Proof. reflexivity. Qed.

Lemma of_Z_1 : of_Z 1 = S754_finite false 4503599627370496 (-52).
Proof. reflexivity. Qed.

Lemma of_Z_100 : of_Z 100 = S754_finite false 7036874417766400 (-46).
Proof. reflexivity. Qed.

Lemma of_Z_pos_small (n : Z) :
  0 < n < 2 ^ 53 ->
  exists m,
    of_Z n = S754_finite false m (Zdigits2 n - 53) /\
    Z.pos m = n * 2 ^ (53 - Zdigits2 n) /\
    Zdigits2 (Z.pos m) = 53.
Proof.
intros [H0 H]. destruct n as [| p | p]; try lia.
unfold of_Z, binary_normalize. now apply binary_round_small.
Qed.

Lemma of_Z_neg_signed (n : Z) : n < 0 -> signed true (of_Z n).
Proof.
intros H. destruct n as [| p | p]; try lia.
unfold of_Z, binary_normalize. apply binary_round_signed.
Qed.

Lemma of_nat_signed (n : nat) : signed false (of_nat n).
Proof.
unfold of_nat, of_Z, binary_normalize.
destruct (Z.of_nat n) as [| p | p] eqn:E; [reflexivity | | lia].
apply binary_round_signed.
Qed.

(** Comparing 100 with the Number of a positive integer below 2^53 is
    comparing the integers. *)
Lemma compare_100_of_Z (n : Z) :
  0 < n < 2 ^ 53 -> SFcompare (of_Z 100) (of_Z n) = Some (100 ?= n).
Proof.
intros B. destruct (of_Z_pos_small n B) as [m [E [Hm Dm]]].
rewrite E, of_Z_100. unfold SFcompare. f_equal.
assert (P : 0 < n) by lia.
pose proof (Zdigits2_bounds n P) as [L U].
destruct (Z.compare_spec (-46) (Zdigits2 n - 53)) as [C | C | C].
- assert (D7 : Zdigits2 n = 7) by lia. rewrite D7 in *.
  change (Pos.compare_cont Eq 7036874417766400 m)
    with (Pos.compare 7036874417766400 m).
  rewrite Pos2Z.inj_compare, Hm.
  change (Z.pos 7036874417766400) with (100 * 2 ^ 46). change (53 - 7) with 46.
  destruct (Z.compare_spec 100 n), (Z.compare_spec (100 * 2 ^ 46) (n * 2 ^ 46));
    try reflexivity; lia.
- assert (D8 : 8 <= Zdigits2 n) by lia.
  assert (2 ^ 7 <= 2 ^ (Zdigits2 n - 1)) by (apply Z.pow_le_mono_r; lia).
  destruct (Z.compare_spec 100 n); try reflexivity; lia.
- assert (D6 : Zdigits2 n <= 6) by lia.
  assert (2 ^ Zdigits2 n <= 2 ^ 6) by (apply Z.pow_le_mono_r; lia).
  destruct (Z.compare_spec 100 n); try reflexivity; lia.
Qed.

Lemma round_half_up_nonneg (m k : Z) : 0 <= m -> 0 <= k -> 0 <= round_half_up m k.
Proof.
intros Hm Hk. unfold round_half_up.
assert (0 < 2 ^ k) by (apply Z.pow_pos_nonneg; lia).
assert (0 < 2 ^ (k + 1)) by (apply Z.pow_pos_nonneg; lia).
apply Z.div_pos; lia.
Qed.

Lemma round_half_up_nonpos (m k : Z) : m <= 0 -> 0 <= k -> round_half_up m k <= 0.
Proof.
intros Hm Hk. unfold round_half_up.
assert (Q : 0 < 2 ^ k) by (apply Z.pow_pos_nonneg; lia).
assert (0 < 2 ^ (k + 1)) by (apply Z.pow_pos_nonneg; lia).
assert (2 ^ (k + 1) = 2 * 2 ^ k)
  by (replace (k + 1) with (Z.succ k) by lia; apply Z.pow_succ_r; lia).
assert ((2 * m + 2 ^ k) / 2 ^ (k + 1) < 1); [| lia].
apply Z.div_lt_upper_bound; lia.
Qed.

Lemma round_half_up_small (m k : Z) :
  0 <= m < 2 ^ 53 -> 1 <= k -> round_half_up m k < 2 ^ 53.
Proof.
intros Hm Hk. unfold round_half_up.
assert (Q : 0 < 2 ^ k) by (apply Z.pow_pos_nonneg; lia).
assert (E : 2 ^ (k + 1) = 2 * 2 ^ k)
  by (replace (k + 1) with (Z.succ k) by lia; apply Z.pow_succ_r; lia).
assert (2 <= 2 ^ k).
{ change 2 with (2 ^ 1) at 1. apply Z.pow_le_mono_r; lia. }
apply Z.div_lt_upper_bound; [lia |]. rewrite E. nia.
Qed.



Lemma Zdigits2_mono (a b : Z) : 0 <= a <= b -> Zdigits2 a <= Zdigits2 b.
Proof.
intros [Ha Hab]. destruct (Z.eq_dec a 0) as [-> | N].
- apply Zdigits2_nonneg.
- assert (Pb : 0 < b) by lia.
  pose proof (Zdigits2_bounds b Pb) as [_ U].
  apply Zdigits2_le; [apply Zdigits2_nonneg | lia].
Qed.

Lemma div_eucl_pair (a b : Z) : Z.div_eucl a b = (a / b, a mod b).
Proof. unfold Z.div, Z.modulo. now destruct (Z.div_eucl a b). Qed.

Lemma bounded_by_not_nan (k : Z) (x : number) : bounded_by k x -> not_nan x.
Proof. destruct x; simpl; intros H; try discriminate; contradiction. Qed.

Lemma bounded_by_finite_53 (k : Z) (x : number) : bounded_by k x -> finite_53 x.
Proof. destruct x; simpl; intros H; tauto. Qed.

(** *** Subtraction from 1, and sums *)

Lemma sub_1_not_nan (x : number) : not_nan x -> not_nan (sub (of_Z 1) x).
Proof.
intros N. rewrite of_Z_1. destruct x as [s | s | | s m e]; simpl.
- discriminate.
- discriminate.
- now destruct N.
- apply binary_normalize_not_nan.
Qed.

Lemma add_bounded_not_nan (k : Z) (x y : number) :
  not_nan x -> finite_53 x -> bounded_by k y ->
  not_nan (add x y) /\ finite_53 (add x y).
Proof.
intros N F B. unfold add.
destruct x as [sx | sx | | sx mx ex], y as [sy | sy | | sy my ey];
  simpl in *; try contradiction; try (now destruct N).
- destruct sx, sy; split; try discriminate; exact I.
- split; [discriminate | tauto].
- split; [discriminate | exact I].
- split; [discriminate | exact I].
- split; [discriminate | exact F].
- apply binary_normalize_not_nan.
Qed.

(** *** Products *)

Lemma mul_comm (x y : number) : mul x y = mul y x.
Proof.
unfold mul. destruct x as [sx | sx | | sx mx ex], y as [sy | sy | | sy my ey];
  simpl; try reflexivity; try (now rewrite xorb_comm).
now rewrite xorb_comm, Pos.mul_comm, Z.add_comm.
Qed.

Lemma mul_finite_not_nan (s : bool) (m : positive) (e : Z) (x : number) :
  not_nan x ->
  not_nan (mul (S754_finite s m e) x) /\ finite_53 (mul (S754_finite s m e) x).
Proof.
intros N. unfold mul. destruct x as [sx | sx | | sx mx ex]; simpl.
- split; [discriminate | exact I].
- split; [discriminate | exact I].
- now destruct N.
- destruct (binary_round_aux_signed (xorb s sx) (Z.pos (m * mx)) (e + ex) loc_Exact)
    as [S F]; [lia |].
  split; [now apply signed_not_nan with (s := xorb s sx) | exact F].
Qed.

(** A product whose exponents are far from the top of the range does not
    overflow. *)
Lemma mul_finite_bounded (s : bool) (m : positive) (e k : Z) (x : number) :
  Zdigits2 (Z.pos m) <= 53 ->
  e + k <= 800 ->
  bounded_by k x ->
  bounded_by 971 (mul (S754_finite s m e) x).
Proof.
intros D K B. unfold mul.
destruct x as [sx | sx | | sx mx ex]; cbn [bounded_by SFmul] in *;
  try contradiction; try exact I.
destruct B as [Dx Ex].
destruct (binary_round_aux_cases (xorb s sx) (Z.pos (m * mx)) (e + ex) loc_Exact)
  as [-> | (m3 & e3 & D3 & E3 & ->)]; [lia | exact I |].
assert (Dp : Zdigits2 (Z.pos (m * mx)) <= 106).
{ rewrite Pos2Z.inj_mul.
  pose proof (Zdigits2_mul (Z.pos m) (Z.pos mx) eq_refl eq_refl). lia. }
rewrite fexp_eq in E3.
destruct (Z.leb_spec e3 971); [cbn [bounded_by]; lia | lia].
Qed.

(** *** Quotients *)

Lemma div_signed (x : number) (m : positive) (e : Z) :
  signed false x -> signed false (div x (S754_finite false m e)).
Proof.
intros S. unfold div. destruct x as [sx | sx | | sx mx ex]; simpl in *;
  try contradiction; subst; try reflexivity.
unfold SFdiv_core_binary.
rewrite div_eucl_pair.
apply binary_round_aux_signed.
apply Z.div_pos; [| lia].
destruct (ex - e - _) as [| p | p]; try lia.
rewrite Z.shiftl_mul_pow2 by lia.
assert (0 < 2 ^ Z.pos p) by (apply Z.pow_pos_nonneg; lia). nia.
Qed.

Lemma div_zero_l (m : positive) (e : Z) :
  div (of_nat 0) (S754_finite false m e) = S754_zero false.
Proof. reflexivity. Qed.

(** A Number divided by itself is 1. *)
Lemma div_same (m : positive) (e : Z) :
  div (S754_finite false m e) (S754_finite false m e) = of_Z 1.
Proof.
unfold div, SFdiv, SFdiv_core_binary.
replace (Zdigits2 (Z.pos m) + e - (Zdigits2 (Z.pos m) + e)) with 0 by lia.
replace (e - e) with 0 by lia.
change (Z.min (fexp prec emax 0) 0) with (-53).
change (0 - -53) with 53.
rewrite div_eucl_pair, Z.shiftl_mul_pow2 by lia.
rewrite Z.mul_comm, Z.div_mul, Z.mod_mul by lia.
unfold new_location, new_location_even, new_location_odd.
destruct (Z.even (Z.pos m)); reflexivity.
Qed.

(** The quotient of the Numbers of two integers below 2^53 does not
    overflow. *)
Lemma div_small_bounded (m1 m2 : positive) (e1 e2 : Z) :
  Zdigits2 (Z.pos m1) = 53 -> Zdigits2 (Z.pos m2) = 53 ->
  -52 <= e1 <= 0 -> -52 <= e2 <= 0 ->
  bounded_by 53 (div (S754_finite false m1 e1) (S754_finite false m2 e2)).
Proof.
intros D1 D2 E1 E2. unfold div, SFdiv, SFdiv_core_binary.
rewrite D1, D2, fexp_eq.
replace (Z.min (Z.max (53 + e1 - (53 + e2) - 53) (-1074)) (e1 - e2))
  with (e1 - e2 - 53) by lia.
replace (e1 - e2 - (e1 - e2 - 53)) with 53 by lia.
rewrite div_eucl_pair, Z.shiftl_mul_pow2 by lia. simpl xorb.
set (q := Z.pos m1 * 2 ^ 53 / Z.pos m2).
assert (Q0 : 0 <= q) by (apply Z.div_pos; lia).
assert (Qd : Zdigits2 q <= 106).
{ assert (q <= Z.pos m1 * 2 ^ 53).
  { unfold q. apply Z.div_le_upper_bound; [lia |]. nia. }
  pose proof (Zdigits2_mono q (Z.pos m1 * 2 ^ 53)) as M.
  rewrite Zdigits2_shift in M by lia. lia. }
destruct (binary_round_aux_cases false q (e1 - e2 - 53)
            (new_location (Z.pos m2) (Z.pos m1 * 2 ^ 53 mod Z.pos m2)))
  as [-> | (m3 & e3 & D3 & E3 & ->)]; [exact Q0 | exact I |].
rewrite fexp_eq in E3.
destruct (Z.leb_spec e3 971); [cbn [bounded_by]; lia | lia].
Qed.

(** *** [Math.max(0, Math.min(100, Math.round(y)))] *)

Lemma percent_of_zero (s : bool) :
  Math_max (of_Z 0) (Math_min (of_Z 100) (Math_round (S754_zero s))) = of_Z 0.
Proof. destruct s; reflexivity. Qed.

Lemma percent_of_negative (z : number) :
  signed true z -> Math_max (of_Z 0) (Math_min (of_Z 100) z) = of_Z 0.
Proof. destruct z as [s | s | | s m e]; simpl; intros H; subst; try reflexivity. contradiction. Qed.

Lemma percent_of_finite_negative (m : positive) (e : Z) :
  Math_max (of_Z 0) (Math_min (of_Z 100) (Math_round (S754_finite true m e)))
  = of_Z 0.
Proof.
unfold Math_round. destruct (0 <=? e) eqn:E.
- now apply percent_of_negative.
- apply Z.leb_gt in E.
  pose proof (round_half_up_nonpos (Z.neg m) (- e)) as N.
  destruct (round_half_up (Z.neg m) (- e) =? 0) eqn:Z0.
  + reflexivity.
  + apply Z.eqb_neq in Z0. apply percent_of_negative, of_Z_neg_signed. lia.
Qed.

Lemma percent_of_large (m : positive) (e : Z) :
  0 <= e ->
  Math_max (of_Z 0) (Math_min (of_Z 100) (Math_round (S754_finite false m e)))
  = of_Z 100.
Proof.
intros H. unfold Math_round. apply Z.leb_le in H. rewrite H.
apply Z.leb_le in H.
unfold Math_min. rewrite of_Z_100. unfold SFcompare.
destruct (Z.compare_spec (-46) e); try lia. reflexivity.
Qed.

Lemma percent_of_Z (n : Z) :
  0 <= n < 2 ^ 53 ->
  Math_max (of_Z 0) (Math_min (of_Z 100) (if n =? 0 then S754_zero false else of_Z n))
  = of_Z (Z.min 100 n).
Proof.
intros B. destruct (Z.eqb_spec n 0) as [-> | N]; [reflexivity |].
assert (P : 0 < n < 2 ^ 53) by lia.
unfold Math_min at 1. rewrite (compare_100_of_Z n P).
destruct (of_Z_pos_small n P) as [m [E _]].
destruct (Z.compare_spec 100 n) as [C | C | C].
- subst n. reflexivity.
- rewrite Z.min_l by lia. reflexivity.
- rewrite Z.min_r by lia. rewrite E. reflexivity.
Qed.

Lemma percent_of_small (m : positive) (e : Z) :
  Zdigits2 (Z.pos m) <= 53 ->
  e < 0 ->
  Math_max (of_Z 0) (Math_min (of_Z 100) (Math_round (S754_finite false m e)))
  = of_Z (Z.min 100 (round_half_up (Z.pos m) (- e))).
Proof.
intros D E. unfold Math_round.
destruct (Z.leb_spec 0 e); [lia |].
apply percent_of_Z. split.
- apply round_half_up_nonneg; lia.
- apply round_half_up_small; [| lia].
  split; [lia |].
  pose proof (Zdigits2_bounds (Z.pos m) eq_refl) as [_ U].
  assert (2 ^ Zdigits2 (Z.pos m) <= 2 ^ 53) by (apply Z.pow_le_mono_r; lia).
  lia.
Qed.

(** The last line of the scorer returns the Number of an integer between
    0 and 100 unless its argument is [NaN]. *)
Lemma percent_range (y : number) :
  not_nan y ->
  finite_53 y ->
  exists n,
    0 <= n <= 100 /\
    Math_max (of_Z 0) (Math_min (of_Z 100) (Math_round y)) = of_Z n.
Proof.
intros N F. destruct y as [s | s | | s m e].
- exists 0. split; [lia | apply percent_of_zero].
- destruct s; [exists 0 | exists 100]; split; try lia; reflexivity.
- now destruct N.
- destruct s.
  + exists 0. split; [lia | apply percent_of_finite_negative].
  + destruct (Z_le_gt_dec 0 e) as [P | P].
    * exists 100. split; [lia | now apply percent_of_large].
    * exists (Z.min 100 (round_half_up (Z.pos m) (- e))). split.
      -- pose proof (round_half_up_nonneg (Z.pos m) (- e)). lia.
      -- apply percent_of_small; [exact F | lia].
Qed.

End OperationFacts.

(** ** The similarity scorer *)

Section ScoreFacts.
Local Open Scope Z_scope.

Lemma similarityScore_unfold (query candidate : str) :
  similarityScore query candidate
  = let q := normalizeText query in
    let c := normalizeText candidate in
    if negb (nonempty q) || negb (nonempty c) then of_Z 0
    else
      score_from (levenshtein q c)
        (or_one (Nat.max (List.length q) (List.length c)))
        (count_overlap (Set_of (split_space q)) (Set_of (split_space c)))
        (or_one (List.length
                   (Set_of (Set_of (split_space q) ++ Set_of (split_space c)))))
        (hasNumberMatch (extractNumbers query) (extractNumbers candidate)).
Proof. reflexivity. Qed.

Lemma of_nat_small (n : nat) :
  (0 < n)%nat -> Z.of_nat n < 2 ^ 53 ->
  exists m e,
    of_nat n = S754_finite false m e /\
    Zdigits2 (Z.pos m) = 53 /\ -52 <= e <= 0.
Proof.
intros P B. unfold of_nat.
destruct (of_Z_pos_small (Z.of_nat n)) as [m [E [Hm Dm]]]; [lia |].
exists m, (Zdigits2 (Z.of_nat n) - 53). split; [exact E | split; [exact Dm |]].
assert (Pz : 0 < Z.of_nat n) by lia.
assert (1 <= Zdigits2 (Z.of_nat n)).
{ assert (0 < Zdigits2 (Z.of_nat n)); [| lia]. apply Zdigits2_gt; simpl; lia. }
assert (Zdigits2 (Z.of_nat n) <= 53) by (apply Zdigits2_le; lia).
lia.
Qed.

(** The arithmetic never meets [NaN]: it ends on the Number of an
    integer between 0 and 100. *)
Lemma score_from_range (distance maxLen overlap union : nat) (bonus : bool) :
  (0 < maxLen)%nat -> Z.of_nat maxLen < 2 ^ 53 ->
  (0 < union)%nat -> Z.of_nat union < 2 ^ 53 ->
  Z.of_nat overlap < 2 ^ 53 ->
  exists n,
    0 <= n <= 100 /\
    score_from distance maxLen overlap union bonus = of_Z n.
Proof.
intros PL BL PU BU BO. unfold score_from. cbv zeta.
destruct (of_nat_small maxLen PL BL) as (mL & eL & EL & _ & _).
destruct (of_nat_small union PU BU) as (mU & eU & EU & DU & RU).
set (ls := sub (of_Z 1) (div (of_nat distance) (of_nat maxLen))).
assert (Nls : not_nan ls).
{ apply sub_1_not_nan. rewrite EL.
  apply signed_not_nan with (s := false), div_signed, of_nat_signed. }
set (ts := div (of_nat overlap) (of_nat union)).
assert (Bts : bounded_by 53 ts).
{ unfold ts. rewrite EU. destruct overlap as [| o].
  - rewrite div_zero_l. exact I.
  - destruct (of_nat_small (S o)) as (mO & eO & EO & DO & RO); [lia | lia |].
    rewrite EO. now apply div_small_bounded. }
unfold blend.
destruct (mul_finite_not_nan false 5404319552844595 (-53) ls Nls) as [Na Fa].
fold lit_0_6 in Na, Fa.
assert (Bb : bounded_by 971 (mul lit_0_4 ts)).
{ unfold lit_0_4. apply mul_finite_bounded with (k := 53);
    [apply Zdigits2_le; simpl; lia | lia | exact Bts]. }
destruct (add_bounded_not_nan 971 _ _ Na Fa Bb) as [Ns Fs].
assert (Bbonus : bounded_by 971 (if bonus then lit_0_1 else of_Z 0)).
{ destruct bonus; simpl; [split; lia | exact I]. }
destruct (add_bounded_not_nan 971 _ _ Ns Fs Bbonus) as [Nr Fr].
rewrite mul_comm.
destruct (mul_finite_not_nan false 7036874417766400 (-46) _ Nr) as [Ny Fy].
change (S754_finite false 7036874417766400 (-46)) with (of_Z 100) in Ny, Fy.
now apply percent_range.
Qed.

(** *** Lengths *)

Lemma collapse_from_length (s : str) (b : bool) :
  (List.length (collapse_from b s) <= List.length s)%nat.
Proof.
revert b. induction s as [| c r IH]; intros b; simpl; [lia |].
pose proof (IH true). pose proof (IH false).
destruct (is_space c); [destruct b |]; simpl; lia.
Qed.

Lemma trim_length (s : str) : (List.length (trim s) <= List.length s)%nat.
Proof.
unfold trim.
destruct (trim_start_suffix s) as [w Hw].
destruct (trim_end_prefix (trim_start s)) as [w' Hw'].
rewrite Hw at 2. rewrite Hw' at 2. rewrite !length_app. lia.
Qed.

Lemma normalizeText_length (s : str) :
  (List.length (normalizeText s) <= List.length s)%nat.
Proof.
unfold normalizeText, collapse_spaces, replace_other, toLowerCase.
pose proof (trim_length (collapse_from false
                           (map (fun c => if keep_char c then c else space)
                              (map lower_char s)))) as T.
pose proof (collapse_from_length
              (map (fun c => if keep_char c then c else space) (map lower_char s))
              false) as C.
rewrite !length_map in C. lia.
Qed.

Lemma split_from_length (s cur : str) :
  (1 <= List.length (split_from cur s) <= List.length s + 1)%nat.
Proof.
revert cur. induction s as [| c r IH]; intros cur; simpl; [lia |].
destruct (Ascii.eqb c space); simpl.
- specialize (IH []). lia.
- specialize (IH (c :: cur)). lia.
Qed.

(** *** Sets of tokens *)

Lemma set_has_in (s : list str) (x : str) : set_has s x = true <-> In x s.
Proof.
unfold set_has. rewrite existsb_exists. split.
- intros [y [I E]]. apply str_eqb_eq in E. now subst.
- intros I. exists x. split; [assumption | apply str_eqb_refl].
Qed.

Lemma set_add_in (s : list str) (x y : str) :
  In y (set_add s x) <-> In y s \/ y = x.
Proof.
unfold set_add. destruct (set_has s x) eqn:E.
- apply set_has_in in E. split; [auto | intros [I | ->]; assumption].
- rewrite in_app_iff. simpl. intuition.
Qed.

Lemma set_add_nodup (s : list str) (x : str) : NoDup s -> NoDup (set_add s x).
Proof.
intros N. unfold set_add. destruct (set_has s x) eqn:E; [assumption |].
rewrite <- (rev_involutive (s ++ [x])). apply NoDup_rev.
rewrite rev_app_distr. simpl. constructor.
- rewrite <- in_rev. intros I. apply set_has_in in I. congruence.
- now apply NoDup_rev.
Qed.

Lemma fold_set_add_in (l acc : list str) (y : str) :
  In y (fold_left set_add l acc) <-> In y acc \/ In y l.
Proof.
revert acc. induction l as [| x r IH]; intros acc; simpl; [tauto |].
rewrite IH, set_add_in. intuition.
Qed.

Lemma fold_set_add_nodup (l acc : list str) :
  NoDup acc -> NoDup (fold_left set_add l acc).
Proof.
revert acc. induction l as [| x r IH]; intros acc N; simpl; [assumption |].
now apply IH, set_add_nodup.
Qed.

Lemma Set_of_in (l : list str) (y : str) : In y (Set_of l) <-> In y l.
Proof. unfold Set_of. rewrite fold_set_add_in. simpl. tauto. Qed.

Lemma Set_of_nodup (l : list str) : NoDup (Set_of l).
Proof. apply fold_set_add_nodup. constructor. Qed.

Lemma fold_set_add_length (l acc : list str) :
  (List.length acc <= List.length (fold_left set_add l acc)
   <= List.length acc + List.length l)%nat.
Proof.
revert acc. induction l as [| x r IH]; intros acc; simpl; [lia |].
specialize (IH (set_add acc x)). unfold set_add in *.
destruct (set_has acc x); [lia |]. rewrite length_app in IH. simpl in IH. lia.
Qed.

Lemma Set_of_length (l : list str) :
  (List.length (Set_of l) <= List.length l)%nat.
Proof. pose proof (fold_set_add_length l []). simpl in *. unfold Set_of. lia. Qed.

Lemma Set_of_nonempty (l : list str) :
  (1 <= List.length l -> 1 <= List.length (Set_of l))%nat.
Proof.
destruct l as [| x r]; [simpl; lia |]. intros _. unfold Set_of.
change (fold_left set_add (x :: r) []) with (fold_left set_add r [x]).
pose proof (fold_set_add_length r [x]) as H.
change (List.length [x]) with 1%nat in H. lia.
Qed.

Lemma fold_set_add_absorb (l acc : list str) :
  (forall x, In x l -> In x acc) -> fold_left set_add l acc = acc.
Proof.
induction l as [| x r IH]; simpl; intros H; [reflexivity |].
assert (E : set_add acc x = acc).
{ unfold set_add. destruct (set_has acc x) eqn:S; [reflexivity |].
  assert (I : In x acc) by (apply H; now left).
  apply set_has_in in I. congruence. }
rewrite E. apply IH. intros y I. apply H. now right.
Qed.

Lemma fold_set_add_fresh (l acc : list str) :
  NoDup (acc ++ l) -> fold_left set_add l acc = acc ++ l.
Proof.
revert acc. induction l as [| x r IH]; intros acc N; simpl.
- now rewrite app_nil_r.
- assert (E : set_add acc x = acc ++ [x]).
  { unfold set_add. destruct (set_has acc x) eqn:S; [| reflexivity].
    apply set_has_in in S. apply NoDup_remove_2 in N.
    exfalso. apply N. apply in_app_iff. now left. }
  rewrite E, IH; rewrite <- app_assoc; [reflexivity | exact N].
Qed.

Lemma Set_of_fixed (t : list str) : NoDup t -> Set_of t = t.
Proof. intros N. unfold Set_of. now rewrite fold_set_add_fresh. Qed.

Lemma count_overlap_filter (q c : list str) :
  count_overlap q c = List.length (filter (set_has c) q).
Proof.
unfold count_overlap.
assert (G : forall l o,
           fold_left (fun overlap token =>
                        if set_has c token then (overlap + 1)%nat else overlap) l o
           = (o + List.length (filter (set_has c) l))%nat).
{ induction l as [| x r IH]; intros o; simpl; [lia |].
  rewrite IH. destruct (set_has c x); simpl; lia. }
now rewrite G.
Qed.

Lemma count_overlap_le (q c : list str) :
  (count_overlap q c <= List.length q)%nat.
Proof. rewrite count_overlap_filter. apply filter_length_le. Qed.

Lemma or_one_bounds (n : nat) : (1 <= or_one n <= n + 1)%nat.
Proof. unfold or_one. destruct n; simpl; lia. Qed.

Lemma or_one_pos (n : nat) : (1 <= n)%nat -> or_one n = n.
Proof. unfold or_one. destruct n; simpl; [lia | reflexivity]. Qed.

Lemma filter_all {A} (f : A -> bool) (l : list A) :
  (forall x, In x l -> f x = true) -> filter f l = l.
Proof.
induction l as [| x r IH]; simpl; intros H; [reflexivity |].
rewrite (H x (or_introl eq_refl)), IH; [reflexivity |].
intros y I. apply H. now right.
Qed.

Lemma nonempty_length (s : str) : nonempty s = true -> (1 <= List.length s)%nat.
Proof. destruct s; simpl; [discriminate | lia]. Qed.

(** Equal counts and no distance give 100, with or without the bonus. *)
Lemma score_from_diagonal (maxLen n : nat) (bonus : bool) :
  (0 < maxLen)%nat -> Z.of_nat maxLen < 2 ^ 53 ->
  (0 < n)%nat -> Z.of_nat n < 2 ^ 53 ->
  score_from 0 maxLen n n bonus = of_Z 100.
Proof.
intros PL BL PN BN. unfold score_from. cbv zeta.
destruct (of_nat_small maxLen PL BL) as (mL & eL & EL & _ & _).
destruct (of_nat_small n PN BN) as (mN & eN & EN & _ & _).
rewrite EL, EN, div_zero_l, div_same.
destruct bonus; vm_compute; reflexivity.
Qed.

(** The score of two strings an engine can hold is the Number of an
    integer between 0 and 100. *)
Lemma similarityScore_bounded (query candidate : str) :
  representable query -> representable candidate ->
  exists n, 0 <= n <= 100 /\ similarityScore query candidate = of_Z n.
Proof.
intros Rq Rc. rewrite similarityScore_unfold. cbv zeta.
destruct (negb _ || negb _); [exists 0; split; [lia | reflexivity] |].
pose proof (normalizeText_length query) as Lq.
pose proof (normalizeText_length candidate) as Lc.
unfold representable in *.
set (q := normalizeText query) in *. set (c := normalizeText candidate) in *.
pose proof (or_one_bounds (Nat.max (List.length q) (List.length c))) as BL.
pose proof (split_from_length q []) as Sq.
pose proof (split_from_length c []) as Sc.
fold (split_space q) in Sq. fold (split_space c) in Sc.
pose proof (Set_of_length (split_space q)) as Tq.
pose proof (Set_of_length (split_space c)) as Tc.
pose proof (Set_of_length (Set_of (split_space q) ++ Set_of (split_space c))) as Tu.
rewrite length_app in Tu.
pose proof (or_one_bounds
              (List.length
                 (Set_of (Set_of (split_space q) ++ Set_of (split_space c)))))
  as BU.
pose proof (count_overlap_le (Set_of (split_space q)) (Set_of (split_space c)))
  as BO.
assert (P : 2 ^ 32 + 2 ^ 32 + 10 < 2 ^ 53) by reflexivity.
apply score_from_range; lia.
Qed.

(** C8, as amended. For all pairs of strings (of a length an engine can
    hold) the similarity score is the Number of an integer between 0 and
    100; and for every string [a] whose normalisation is not empty,
    [similarityScore a a] is 100.  (A non-empty string without a letter
    or digit normalises to the empty string and scores 0 against
    itself.) *)
Theorem similarityScore_range_and_diagonal :
  (forall query candidate,
      representable query -> representable candidate ->
      exists n, 0 <= n <= 100 /\ similarityScore query candidate = of_Z n) /\
  (forall a,
      representable a -> nonempty (normalizeText a) = true ->
      similarityScore a a = of_Z 100).
Proof.
split.
- exact similarityScore_bounded.
- intros a Ra Na. rewrite similarityScore_unfold. cbv zeta.
  rewrite Na. cbn [negb orb].
  pose proof (normalizeText_length a) as La.
  pose proof (nonempty_length _ Na) as Pa.
  unfold representable in Ra.
  set (q := normalizeText a) in *.
  set (t := Set_of (split_space q)).
  assert (Nt : NoDup t) by apply Set_of_nodup.
  assert (Pt : (1 <= List.length t)%nat).
  { apply Set_of_nonempty. apply (split_from_length q []). }
  assert (Bt : (List.length t <= List.length q + 1)%nat).
  { pose proof (Set_of_length (split_space q)).
    pose proof (split_from_length q []) as S. fold (split_space q) in S.
    fold t in H. lia. }
  rewrite levenshtein_same, Nat.max_id, (or_one_pos _ Pa).
  rewrite count_overlap_filter,
    (filter_all (set_has t) t) by (intros x I; now apply set_has_in).
  assert (U : Set_of (t ++ t) = t).
  { unfold Set_of. rewrite fold_left_app.
    assert (I0 : fold_left set_add t [] = t)
      by (apply (fold_set_add_fresh t []); exact Nt).
    rewrite I0. now apply fold_set_add_absorb. }
  rewrite U, (or_one_pos _ Pt).
  assert (P : 2 ^ 32 + 10 < 2 ^ 53) by reflexivity.
  apply score_from_diagonal; lia.
Qed.

End ScoreFacts.

(** ** The head of the ranking *)

Section RankingFacts.
Import Matcher.
Local Open Scope Z_scope.

Lemma small_scores_table :
  forallb
    (fun a =>
       forallb
         (fun b =>
            Bool.eqb (ltb (of_Z 0) (sub (of_Z b) (of_Z a))) (a <? b)
            && Bool.eqb (ltb (of_Z a) (of_Z b)) (a <? b))
         (map Z.of_nat (seq 0 101)))
    (map Z.of_nat (seq 0 101))
  = true.
Proof. vm_compute. reflexivity. Qed.

Lemma small_in_table (a : Z) :
  0 <= a <= 100 -> In a (map Z.of_nat (seq 0 101)).
Proof.
intros B. apply in_map_iff. exists (Z.to_nat a). split; [lia |].
apply in_seq. lia.
Qed.

Lemma small_scores_compare (a b : Z) :
  0 <= a <= 100 -> 0 <= b <= 100 ->
  ltb (of_Z 0) (sub (of_Z b) (of_Z a)) = (a <? b) /\
  ltb (of_Z a) (of_Z b) = (a <? b).
Proof.
intros Ba Bb.
pose proof small_scores_table as T.
rewrite forallb_forall in T. specialize (T a (small_in_table a Ba)).
rewrite forallb_forall in T. specialize (T b (small_in_table b Bb)).
apply andb_prop in T. destruct T as [T1 T2].
apply Bool.eqb_prop in T1, T2. now split.
Qed.

(** The head of the sorted list, when every score is the Number of an
    integer between 0 and 100: no element scores higher. *)
Lemma sort_by_score_head (l : list scored) (top : scored) :
  Forall (fun s => exists n, 0 <= n <= 100 /\ score s = of_Z n) l ->
  hd_error (sort_by_score l) = Some top ->
  forall s, In s l -> ltb (score top) (score s) = false.
Proof.
revert top. induction l as [| x r IH]; intros top G H s I; [destruct I |].
inversion G as [| ? ? [nx [Bx Ex]] Gr]; subst.
cbn [sort_by_score fold_right] in H. fold (sort_by_score r) in H.
destruct (sort_by_score r) as [| y t] eqn:E.
- assert (r = []).
  { apply length_zero_iff_nil. rewrite <- (sort_by_score_length r), E.
    reflexivity. }
  subst r. simpl in H. inversion H; subst top.
  destruct I as [<- | []].
  rewrite Ex, (proj2 (small_scores_compare nx nx Bx Bx)).
  apply Z.ltb_irrefl.
- assert (Iy : In y r) by (apply sort_by_score_in; rewrite E; now left).
  pose proof Gr as Gf.
  rewrite Forall_forall in Gr. destruct (Gr y Iy) as [ny [By Ey]].
  assert (M : forall s, In s r -> exists n, 0 <= n <= ny /\ score s = of_Z n).
  { intros s' I'. destruct (Gr s' I') as [n' [B' E']].
    exists n'. split; [| exact E'].
    pose proof (IH y Gf eq_refl s' I') as L. rewrite Ey, E' in L.
    rewrite (proj2 (small_scores_compare ny n' By B')) in L.
    apply Z.ltb_ge in L. lia. }
  cbn [insert_sorted] in H. unfold comparator in H. rewrite Ex, Ey in H.
  rewrite (proj1 (small_scores_compare nx ny Bx By)) in H.
  destruct (Z.ltb_spec nx ny) as [L | L]; cbn [hd_error] in H;
    inversion H; subst top.
  + destruct I as [<- | I].
    * rewrite Ey, Ex, (proj2 (small_scores_compare ny nx By Bx)).
      apply Z.ltb_ge. lia.
    * destruct (M s I) as [n [Bn En]].
      rewrite Ey, En, (proj2 (small_scores_compare ny n By ltac:(lia))).
      apply Z.ltb_ge. lia.
  + destruct I as [<- | I].
    * rewrite Ex, (proj2 (small_scores_compare nx nx Bx Bx)).
      apply Z.ltb_ge. lia.
    * destruct (M s I) as [n [Bn En]].
      rewrite Ex, En, (proj2 (small_scores_compare nx n Bx ltac:(lia))).
      apply Z.ltb_ge. lia.
Qed.

(** C4. When the oracle is out of reach (it throws: no network, a
    time-out, a text that is no JSON), an item without stored mapping
    still gets a result, at its place in the response: the result is
    attributed to the heuristic ("suggestion"), and its match is the
    candidate at the head of the ranking of the catalog, which exists
    because the catalog is not empty; the same candidate heads the
    suggestions; and no candidate of the catalog scores higher, the
    strings being of a length an engine can hold. *)
Theorem oracle_unavailable_falls_back
  (ask : oracle) (d : db) (its : list line_item) (i : nat) (item : line_item) :
  (forall q c, ask q c = Unavailable) ->
  products (committed d) <> [] ->
  nth_error its i = Some item ->
  (let description :=
     match line_description item with Some t => t | None => [] end in
   nonempty (normalizeText description) = true ->
   mapping_query d (normalizeText description) = []) ->
  exists r top,
    nth_error (match_products ask d its) i = Some r /\
    source r = SrcSuggestion /\
    hd_error
      (sort_by_score
         (scored_catalog d
            (match line_description item with Some t => t | None => [] end)))
    = Some top /\
    matched r = Some (candidate top) /\
    hd_error (suggestions r) = Some top /\
    In (candidate top) (map view_of (products (committed d))) /\
    (representable
       (match line_description item with Some t => t | None => [] end) ->
     (forall p, In p (products (committed d)) ->
                representable (candidate_text (view_of p))) ->
     forall s,
       In s (scored_catalog d
               (match line_description item with Some t => t | None => [] end)) ->
       ltb (score top) (score s) = false).
Proof.
intros U N I M.
destruct (rank_head d (match line_description item with Some t => t | None => [] end) N)
  as [top [rest [R [H T]]]].
exists (match_item ask d item), top.
split; [unfold match_products; now apply map_nth_error |].
unfold match_item.
set (description := match line_description item with Some t => t | None => [] end) in *.
assert (Q : (if nonempty (normalizeText description)
             then mapping_query d (normalizeText description) else []) = []).
{ cbv zeta in M. fold description in M.
  destruct (nonempty (normalizeText description)); [now apply M | reflexivity]. }
rewrite Q. unfold heuristic_match. rewrite R.
assert (A : (if ltb (score top) (of_Z 100)
             then findBestMatchWithGemini ask description (top :: rest)
             else None) = None).
{ destruct (ltb _ _); [now apply findBestMatchWithGemini_unavailable | reflexivity]. }
rewrite A. simpl.
repeat (split; [solve [auto] |]).
intros Rd Rp s Is. apply (sort_by_score_head (scored_catalog d description));
  [| exact H | exact Is].
apply Forall_forall. intros x Ix.
unfold scored_catalog, score_all in Ix. apply in_map_iff in Ix.
destruct Ix as [v [<- Iv]]. apply in_map_iff in Iv.
destruct Iv as [p [<- Ip]]. cbn [score].
apply similarityScore_bounded; [exact Rd | now apply Rp].
Qed.

Lemma oracle_unavailable_falls_back_witness :
  exists r top,
    nth_error
      (match_products Sample.silent_oracle Sample.catalog_db [Sample.widgit]) 0
    = Some r /\
    source r = SrcSuggestion /\
    matched r = Some (candidate top) /\
    In (candidate top) (map view_of (products (committed Sample.catalog_db))) /\
    (forall s,
        In s (scored_catalog Sample.catalog_db (lit "Widgit A")) ->
        ltb (score top) (score s) = false).
Proof.
destruct (oracle_unavailable_falls_back Sample.silent_oracle Sample.catalog_db
            [Sample.widgit] 0 Sample.widgit)
  as (r & top & A & B & _ & C & _ & D & E).
- reflexivity.
- discriminate.
- reflexivity.
- intros description _. reflexivity.
- exists r, top. repeat (split; [assumption |]).
  apply E.
  + vm_compute. reflexivity.
  + intros p [<- | [<- | []]]; vm_compute; reflexivity.
Defined.

End RankingFacts.

(** ** Results of operations are in the format *)

Section ValidFacts.
Local Open Scope Z_scope.








End ValidFacts.

(** ** Clamping before or after scaling *)

Import Reference.

Section ClampFacts.
Local Open Scope Z_scope.










End ClampFacts.

(** ** Words and token sets *)

Section TokenFacts.
Local Open Scope nat_scope.








Lemma same_elements_length (a b : list str) :
  NoDup a -> NoDup b -> (forall x, In x a <-> In x b) ->
  List.length a = List.length b.
Proof.
intros Na Nb H. apply Permutation_length.
now apply NoDup_Permutation.
Qed.





End TokenFacts.

(** ** The scorer and its reference definition *)

Section ReferenceFacts.



End ReferenceFacts.

Section ScoreSamples.
Local Open Scope Z_scope.

(** On Numbers [0.6 * 0.375 * 100] lies just below 22.5, which exact
    rationals reach: there the nearest integer is 23. *)
Example tie_rounds_down :
  similarityScore (lit "abcdefgh") (lit "abcvwxyz") = of_Z 22 /\
  Exact.exact_score (lit "abcdefgh") (lit "abcvwxyz") = 23.
Proof. split; vm_compute; reflexivity. Qed.

(** A non-empty string of punctuation normalises to the empty string
    and scores 0 against itself. *)
Lemma punctuation_scores_zero :
  nonempty (lit "!") = true /\
  similarityScore (lit "!") (lit "!") = of_Z 0 /\
  similarityScore (lit "!") (lit "!") <> of_Z 100.
Proof.
split; [reflexivity |]. split; [vm_compute; reflexivity |].
vm_compute. discriminate.
Qed.

Lemma similarityScore_range_and_diagonal_witness :
  (exists n, 0 <= n <= 100 /\
             similarityScore (lit "HP Pav 15") (lit "HP Pavilion 15-dk1000")
             = of_Z n) /\
  similarityScore (lit "Widget A") (lit "Widget A") = of_Z 100.
Proof.
split.
- apply (proj1 similarityScore_range_and_diagonal); vm_compute; reflexivity.
- apply (proj2 similarityScore_range_and_diagonal); vm_compute; reflexivity.
Defined.

End ScoreSamples.

(** ** The edit distance is a metric *)

Section MetricFacts.
Import Text Levenshtein Float64 Scorer Db Reference.

Lemma prefix_table_ind (P : nat -> nat -> Prop) :
  (forall j, P 0 j) ->
  (forall i, P (S i) 0) ->
  (forall i j, P i (S j) -> P (S i) j -> P i j -> P (S i) (S j)) ->
  forall i j, P i j.
Proof.
intros H0 H1 HS. induction i as [| i IHi]; [exact H0 |].
induction j as [| j IHj]; [apply H1 | apply HS; auto].
Qed.

Lemma cost_sym (x y : ascii) : cost x y = cost y x.
Proof. unfold cost. now rewrite Ascii.eqb_sym. Qed.

Lemma cost_le_1 (x y : ascii) : cost x y <= 1.
Proof. unfold cost. destruct (Ascii.eqb x y); lia. Qed.

Lemma cost_0 (x y : ascii) : cost x y = 0 -> x = y.
Proof.
unfold cost. destruct (Ascii.eqb_spec x y); [auto | discriminate].
Qed.

Lemma cost_triangle (x y z : ascii) : cost x z <= cost x y + cost y z.
Proof.
unfold cost.
destruct (Ascii.eqb_spec x y), (Ascii.eqb_spec y z), (Ascii.eqb_spec x z);
  subst; try lia; congruence.
Qed.

Lemma prefix_distance_sym (a b : str) (i j : nat) :
  prefix_distance a b i j = prefix_distance b a j i.
Proof.
revert i j. apply prefix_table_ind.
- intros j. now rewrite prefix_distance_0_l, prefix_distance_0_r.
- intros i. now rewrite prefix_distance_0_l, prefix_distance_0_r.
- intros i j H1 H2 H3.
  rewrite !prefix_distance_step, H1, H2, H3, (cost_sym (nth i a zero)). lia.
Qed.

Lemma prefix_distance_upper (a b : str) (i j : nat) :
  prefix_distance a b i j <= Nat.max i j.
Proof.
revert i j. apply prefix_table_ind.
- intros j. rewrite prefix_distance_0_l. lia.
- intros i. rewrite prefix_distance_0_r. lia.
- intros i j H1 H2 H3. rewrite prefix_distance_step.
  pose proof (cost_le_1 (nth i a zero) (nth j b zero)). lia.
Qed.

Lemma prefix_distance_lower (a b : str) (i j : nat) :
  i - j <= prefix_distance a b i j /\ j - i <= prefix_distance a b i j.
Proof.
revert i j. apply prefix_table_ind.
- intros j. rewrite prefix_distance_0_l. lia.
- intros i. rewrite prefix_distance_0_r. lia.
- intros i j H1 H2 H3. rewrite prefix_distance_step. lia.
Qed.

Lemma prefix_distance_down (a b : str) (i j : nat) :
  prefix_distance a b (S i) j <= prefix_distance a b i j + 1.
Proof.
destruct j as [| j].
- rewrite !prefix_distance_0_r. lia.
- rewrite prefix_distance_step. lia.
Qed.

Lemma prefix_distance_right (a b : str) (i j : nat) :
  prefix_distance a b i (S j) <= prefix_distance a b i j + 1.
Proof.
rewrite (prefix_distance_sym a b i (S j)), (prefix_distance_sym a b i j).
apply prefix_distance_down.
Qed.

Lemma prefix_distance_zero (a b : str) (i j : nat) :
  prefix_distance a b i j = 0 ->
  i = j /\ forall k, k < i -> nth k a zero = nth k b zero.
Proof.
revert i j. apply (prefix_table_ind
  (fun i j => prefix_distance a b i j = 0 ->
              i = j /\ forall k, k < i -> nth k a zero = nth k b zero)).
- intros j. rewrite prefix_distance_0_l. intros ->. split; [reflexivity | lia].
- intros i. rewrite prefix_distance_0_r. discriminate.
- intros i j _ _ H3. rewrite prefix_distance_step. intros E.
  assert (E3 : prefix_distance a b i j = 0) by lia.
  assert (Ec : cost (nth i a zero) (nth j b zero) = 0) by lia.
  destruct (H3 E3) as [-> Hk]. split; [reflexivity |].
  intros k Lk. destruct (Nat.eq_dec k j) as [-> | N].
  + now apply cost_0.
  + apply Hk. lia.
Qed.

Lemma prefix_distance_triangle (a b c : str) (n : nat) :
  forall i j k,
    i + j + k <= n ->
    prefix_distance a c i k
    <= prefix_distance a b i j + prefix_distance b c j k.
Proof.
induction n as [| n IH]; intros i j k L.
- assert (i = 0) by lia. assert (k = 0) by lia. subst.
  rewrite prefix_distance_0_l. lia.
- destruct i as [| i].
  + rewrite !prefix_distance_0_l.
    pose proof (prefix_distance_lower b c j k). lia.
  + destruct k as [| k].
    * rewrite !prefix_distance_0_r.
      pose proof (prefix_distance_lower a b (S i) j). lia.
    * destruct j as [| j].
      -- rewrite prefix_distance_0_r, prefix_distance_0_l.
         pose proof (prefix_distance_upper a c (S i) (S k)). lia.
      -- pose proof (IH i (S j) (S k) ltac:(lia)) as T1.
         pose proof (IH (S i) j (S k) ltac:(lia)) as T2.
         pose proof (IH (S i) (S j) k ltac:(lia)) as T3.
         pose proof (IH (S i) j k ltac:(lia)) as T4.
         pose proof (IH i j (S k) ltac:(lia)) as T5.
         pose proof (IH i j k ltac:(lia)) as T6.
         pose proof (prefix_distance_down a c i (S k)) as D1.
         pose proof (prefix_distance_right a c (S i) k) as D2.
         pose proof (cost_triangle (nth i a zero) (nth j b zero) (nth k c zero))
           as C.
         pose proof (prefix_distance_step a b i j) as E1.
         pose proof (prefix_distance_step b c j k) as E2.
         pose proof (prefix_distance_step a c i k) as E3.
         lia.
Qed.

(** X1. [levenshtein] is symmetric. *)
Theorem levenshtein_sym (a b : str) : levenshtein a b = levenshtein b a.
Proof.
rewrite !levenshtein_edit_distance. apply prefix_distance_sym.
Qed.

(** X2. The distance is 0 exactly between equal strings. *)
Theorem levenshtein_zero_iff (a b : str) : levenshtein a b = 0 <-> a = b.
Proof.
split.
- rewrite levenshtein_edit_distance. unfold edit_distance. intros E.
  destruct (prefix_distance_zero a b _ _ E) as [L H].
  apply (nth_ext a b zero zero L H).
- intros ->. apply levenshtein_same.
Qed.

(** X3. The distance lies between the difference of the lengths and the
    greater length. *)
Theorem levenshtein_bounds (a b : str) :
  List.length a - List.length b <= levenshtein a b /\
  List.length b - List.length a <= levenshtein a b /\
  levenshtein a b <= Nat.max (List.length a) (List.length b).
Proof.
rewrite levenshtein_edit_distance. unfold edit_distance.
pose proof (prefix_distance_lower a b (List.length a) (List.length b)).
pose proof (prefix_distance_upper a b (List.length a) (List.length b)).
tauto.
Qed.

(** X4. The triangle inequality. *)
Theorem levenshtein_triangle (a b c : str) :
  levenshtein a c <= levenshtein a b + levenshtein b c.
Proof.
rewrite !levenshtein_edit_distance. unfold edit_distance.
now apply (prefix_distance_triangle a b c
             (List.length a + List.length b + List.length c)).
Qed.

End MetricFacts.

(** ** The image of [normalizeText] *)

Section NormalFormFacts.
Import Text Levenshtein Float64 Scorer Db Reference Shape.

Ltac each_char c := destruct c as [[] [] [] [] [] [] [] []]; vm_compute; try reflexivity; try discriminate.

Lemma normal_char_kept (c : ascii) : is_normal_char c = true -> keep_char c = true.
Proof. each_char c. Qed.

Lemma normal_char_space (c : ascii) :
  is_normal_char c = true -> is_space c = Ascii.eqb c space.
Proof. each_char c. Qed.

Lemma kept_single_normal (c : ascii) :
  keep_char c = true -> (is_space c = true -> c = space) ->
  is_normal_char c = true.
Proof.
intros K S. unfold is_normal_char. unfold keep_char in K.
destruct (is_lower_az c); [reflexivity |].
destruct (is_digit c); [reflexivity |]. simpl in *.
rewrite (S K). reflexivity.
Qed.

Lemma single_spaced_spaces (b : bool) (s : str) :
  single_spaced b s = true ->
  Forall (fun c => is_space c = true -> c = space) s.
Proof.
revert b. induction s as [| c r IH]; intros b H; constructor.
- simpl in H. intros S. rewrite S in H.
  apply andb_prop in H. destruct H as [H _].
  apply andb_prop in H. destruct H as [_ H]. now apply Ascii.eqb_eq.
- simpl in H. destruct (is_space c).
  + apply andb_prop in H. destruct H as [_ H]. now apply (IH true).
  + now apply (IH false).
Qed.

Lemma normalizeText_kept (s : str) :
  Forall (fun c => keep_char c = true) (normalizeText s).
Proof.
unfold normalizeText, collapse_spaces.
apply trim_keeps, collapse_from_keeps, replace_other_keeps.
Qed.

Lemma normalizeText_single_spaced (s : str) :
  single_spaced false (normalizeText s) = true.
Proof. apply trim_single_spaced, collapse_from_single_spaced. Qed.

Lemma normalizeText_starts_clean (s : str) :
  starts_clean (normalizeText s) = true.
Proof.
unfold normalizeText, trim.
destruct (trim_end_prefix (trim_start (collapse_spaces (replace_other (toLowerCase s)))))
  as [w Hw].
apply starts_clean_prefix with (w := w).
rewrite <- Hw. apply trim_start_clean.
Qed.

Lemma normalizeText_ends_clean (s : str) :
  starts_clean (rev (normalizeText s)) = true.
Proof.
unfold normalizeText, trim, trim_end. rewrite rev_involutive.
apply trim_start_clean.
Qed.

Lemma hd_clean (t : str) :
  forallb is_normal_char t = true ->
  starts_clean t = negb (Ascii.eqb (hd zero t) space).
Proof.
destruct t as [| c r]; [reflexivity |]. simpl. intros H.
apply andb_prop in H. destruct H as [H _].
now rewrite (normal_char_space c H).
Qed.

Lemma last_hd_rev (t : str) : last t zero = hd zero (rev t).
Proof.
destruct (rev t) as [| c r] eqn:E.
- apply (f_equal (@rev ascii)) in E. rewrite rev_involutive in E. now subst.
- apply (f_equal (@rev ascii)) in E. rewrite rev_involutive in E. subst t.
  simpl. apply last_last.
Qed.

Lemma forallb_rev (f : ascii -> bool) (t : str) :
  forallb f (rev t) = forallb f t.
Proof.
apply eq_true_iff_eq. rewrite !forallb_forall. split; intros H x I; apply H.
- now apply in_rev in I.
- now apply in_rev.
Qed.

Lemma single_spaced_no_double (b : bool) (t : str) :
  forallb is_normal_char t = true ->
  single_spaced b t
  = negb (b && Ascii.eqb (hd zero t) space) && no_double_space t.
Proof.
revert b. induction t as [| c r IH]; intros b H.
- simpl. now rewrite andb_false_r.
- cbn [forallb] in H. apply andb_prop in H. destruct H as [Hc Hr].
  cbn [single_spaced hd]. rewrite (normal_char_space c Hc).
  destruct (Ascii.eqb c space) eqn:E.
  + rewrite (IH true Hr). destruct r as [| d r']; destruct b; simpl;
      rewrite ?E; try reflexivity.
  + rewrite (IH false Hr). destruct r as [| d r']; simpl; rewrite ?E;
      now rewrite ?andb_false_r.
Qed.

Lemma normal_form_parts (t : str) :
  normal_form t = true <->
  Forall (fun c => keep_char c = true) t /\
  single_spaced false t = true /\
  starts_clean t = true /\
  starts_clean (rev t) = true.
Proof.
unfold normal_form. split.
- intros H.
  apply andb_prop in H. destruct H as [H D].
  apply andb_prop in H. destruct H as [H L].
  apply andb_prop in H. destruct H as [A F].
  split; [| split; [| split]].
  + apply Forall_forall. intros c I. apply normal_char_kept.
    rewrite forallb_forall in A. now apply A.
  + now rewrite (single_spaced_no_double false t A).
  + now rewrite (hd_clean t A).
  + rewrite (hd_clean (rev t)) by now rewrite forallb_rev.
    now rewrite <- last_hd_rev.
- intros (K & S & C & E).
  assert (A : forallb is_normal_char t = true).
  { apply forallb_forall. intros c I.
    pose proof (single_spaced_spaces _ _ S) as Sp.
    rewrite Forall_forall in K, Sp. apply kept_single_normal; auto. }
  rewrite A. rewrite (hd_clean t A) in C.
  rewrite (hd_clean (rev t)) in E by now rewrite forallb_rev.
  rewrite <- last_hd_rev in E.
  rewrite (single_spaced_no_double false t A) in S. simpl in S.
  now rewrite C, E, S.
Qed.

(** X5. What [normalizeText] returns is in normal form (only [a-z0-9] and
    single spaces between words, no space at either end), and the texts
    in normal form are exactly the ones it leaves as they are. *)
Theorem normalizeText_normal_form :
  (forall s, normal_form (normalizeText s) = true) /\
  (forall t, normalizeText t = t <-> normal_form t = true).
Proof.
assert (N : forall s, normal_form (normalizeText s) = true).
{ intros s. apply normal_form_parts.
  auto using normalizeText_kept, normalizeText_single_spaced,
    normalizeText_starts_clean, normalizeText_ends_clean. }
split; [exact N |].
intros t. split.
- intros E. rewrite <- E. apply N.
- intros H. apply normal_form_parts in H. destruct H as (K & S & C & E).
  unfold normalizeText.
  rewrite (toLowerCase_kept _ K), (replace_other_kept _ K).
  unfold collapse_spaces. rewrite (collapse_from_fixed _ _ S).
  unfold trim. rewrite (trim_start_fixed _ C).
  unfold trim_end. rewrite (trim_start_fixed _ E). apply rev_involutive.
Qed.

End NormalFormFacts.

(** ** When the normalisation is empty *)

Section EmptyFacts.
Import Text Levenshtein Float64 Scorer Db Reference Shape.

Ltac each_char c := destruct c as [[] [] [] [] [] [] [] []]; vm_compute; try reflexivity; try discriminate.









End EmptyFacts.

(** ** The matches of [extractNumbers] *)

Section NumberFacts.
Import Text Levenshtein Float64 Scorer Db Reference Shape.

Lemma after_digits_all (ds : str) :
  forallb is_digit ds = true -> after_digits ds = [].
Proof.
induction ds as [| c r IH]; [reflexivity |]. simpl. intros H.
apply andb_prop in H. destruct H as [Hc Hr]. rewrite Hc. now apply IH.
Qed.

Lemma after_digits_stop (ds : str) (x : ascii) (r : str) :
  forallb is_digit ds = true -> is_digit x = false ->
  after_digits (ds ++ x :: r) = x :: r.
Proof.
induction ds as [| c t IH]; simpl; intros H N.
- now rewrite N.
- apply andb_prop in H. destruct H as [Hc Hr]. rewrite Hc. now apply IH.
Qed.

Lemma digits_shape (ds : str) :
  ds <> [] -> forallb is_digit ds = true -> number_shape ds = true.
Proof.
intros N H. unfold number_shape. rewrite (after_digits_all ds H).
destruct ds as [| c r]; [contradiction |]. simpl in H.
apply andb_prop in H. destruct H as [Hc _]. now rewrite Hc.
Qed.

Lemma decimal_shape (i f : str) :
  i <> [] -> f <> [] ->
  forallb is_digit i = true -> forallb is_digit f = true ->
  number_shape (i ++ "."%char :: f) = true.
Proof.
intros Ni Nf Hi Hf. unfold number_shape.
rewrite (after_digits_stop i "."%char f Hi eq_refl).
destruct i as [| c r]; [contradiction |]. simpl in *.
apply andb_prop in Hi. destruct Hi as [Hc _]. rewrite Hc, Hf.
destruct f; [contradiction | reflexivity].
Qed.

Lemma scan_ok_emit (st : scan_state) :
  scan_ok st ->
  match st with
  | Idle => True
  | InInt acc | SawDot acc | InFrac acc => number_shape (rev acc) = true
  end.
Proof.
destruct st as [| acc | acc | acc]; simpl; auto.
- intros [N H]. apply digits_shape.
  + intros E. apply N. apply (f_equal (@rev ascii)) in E.
    now rewrite rev_involutive in E.
  + now rewrite forallb_rev.
- intros [N H]. apply digits_shape.
  + intros E. apply N. apply (f_equal (@rev ascii)) in E.
    now rewrite rev_involutive in E.
  + now rewrite forallb_rev.
- intros (f & i & -> & Nf & Ni & Hf & Hi).
  rewrite rev_app_distr. simpl. rewrite <- app_assoc. simpl.
  apply decimal_shape; rewrite ?forallb_rev; auto.
  + intros E. apply Ni. apply (f_equal (@rev ascii)) in E.
    now rewrite rev_involutive in E.
  + intros E. apply Nf. apply (f_equal (@rev ascii)) in E.
    now rewrite rev_involutive in E.
Qed.

Lemma scan_numbers_shape (s : str) :
  forall st, scan_ok st ->
    Forall (fun t => number_shape t = true) (scan_numbers st s).
Proof.
induction s as [| c r IH]; intros st Ok.
- pose proof (scan_ok_emit st Ok) as E.
  destruct st; simpl; auto.
- pose proof (scan_ok_emit st Ok) as E.
  destruct st as [| acc | acc | acc]; simpl.
  + destruct (is_digit c) eqn:D; apply IH; simpl; auto.
    split; [discriminate | now rewrite D].
  + destruct (is_digit c) eqn:D.
    * apply IH. simpl in *. destruct Ok as [N H].
      split; [discriminate | now rewrite D].
    * destruct (Ascii.eqb c "."%char); [apply IH; exact Ok |].
      constructor; [exact E | now apply IH].
  + destruct (is_digit c) eqn:D.
    * apply IH. simpl in *. destruct Ok as [N H].
      exists [c], acc. simpl. rewrite D. repeat split; auto. discriminate.
    * constructor; [exact E | now apply IH].
  + destruct (is_digit c) eqn:D.
    * apply IH. simpl in *. destruct Ok as (f & i & -> & Nf & Ni & Hf & Hi).
      exists (c :: f), i. simpl. rewrite D. repeat split; auto. discriminate.
    * constructor; [exact E | now apply IH].
Qed.

Lemma scan_numbers_occur (s : str) :
  forall st t, In t (scan_numbers st s) ->
    exists pre post, pending st ++ s = pre ++ t ++ post.
Proof.
induction s as [| c r IH]; intros st t I.
- destruct st as [| acc | acc | acc]; simpl in I; try contradiction;
    destruct I as [<- | []]; simpl.
  + exists [], []. now rewrite !app_nil_r.
  + exists [], ["."%char]. now rewrite !app_nil_r.
  + exists [], []. now rewrite !app_nil_r.
- assert (Skip : forall acc,
             In t (rev acc :: scan_numbers Idle r) ->
             forall mid, exists pre post,
               (rev acc ++ mid) ++ c :: r = pre ++ t ++ post).
  { intros acc [<- | I'] mid.
    - exists [], (mid ++ c :: r). simpl. now rewrite <- app_assoc.
    - destruct (IH Idle t I') as (pre & post & E). simpl in E.
      exists ((rev acc ++ mid) ++ c :: pre), post.
      rewrite E. now rewrite <- !app_assoc. }
  destruct st as [| acc | acc | acc]; simpl in I.
  + destruct (is_digit c).
    * destruct (IH _ t I) as (pre & post & E). now exists pre, post.
    * destruct (IH _ t I) as (pre & post & E). simpl in E.
      exists (c :: pre), post. simpl. now rewrite E.
  + destruct (is_digit c).
    * destruct (IH _ t I) as (pre & post & E). exists pre, post.
      rewrite <- E. simpl. now rewrite <- app_assoc.
    * destruct (Ascii.eqb_spec c "."%char) as [-> | _].
      -- destruct (IH _ t I) as (pre & post & E). exists pre, post.
         rewrite <- E. simpl. now rewrite <- app_assoc.
      -- destruct (Skip acc I []) as (pre & post & E). exists pre, post.
         rewrite <- E. simpl. now rewrite app_nil_r.
  + destruct (is_digit c).
    * destruct (IH _ t I) as (pre & post & E). exists pre, post.
      rewrite <- E. simpl. now rewrite <- !app_assoc.
    * destruct (Skip acc I ["."%char]) as (pre & post & E).
      now exists pre, post.
  + destruct (is_digit c).
    * destruct (IH _ t I) as (pre & post & E). exists pre, post.
      rewrite <- E. simpl. now rewrite <- app_assoc.
    * destruct (Skip acc I []) as (pre & post & E). exists pre, post.
      rewrite <- E. simpl. now rewrite app_nil_r.
Qed.

Lemma scan_numbers_busy (s : str) :
  forall st, st <> Idle -> scan_numbers st s <> [].
Proof.
induction s as [| c r IH]; intros st N.
- destruct st; simpl; [contradiction | discriminate ..].
- destruct st as [| acc | acc | acc]; simpl; [contradiction | | |].
  + destruct (is_digit c); [apply IH; discriminate |].
    destruct (Ascii.eqb c "."%char); [apply IH |]; discriminate.
  + destruct (is_digit c); [apply IH |]; discriminate.
  + destruct (is_digit c); [apply IH |]; discriminate.
Qed.

(** X7. Every match of [extractNumbers] is a number (digits, and possibly
    a dot and digits again) that occurs in the text, and there is no
    match exactly when the text has no digit. *)
Theorem extractNumbers_matches (text : str) :
  Forall (fun t => number_shape t = true) (extractNumbers text) /\
  (forall t, In t (extractNumbers text) ->
             exists pre post, text = pre ++ t ++ post) /\
  (extractNumbers text = [] <-> existsb is_digit text = false).
Proof.
split; [now apply scan_numbers_shape | split].
- intros t I. now apply (scan_numbers_occur text Idle).
- unfold extractNumbers. induction text as [| c r IH]; simpl.
  + tauto.
  + destruct (is_digit c); simpl; [| exact IH].
    split; [| discriminate].
    intros E. now destruct (scan_numbers_busy r (InInt [c]) ltac:(discriminate)).
Qed.

End NumberFacts.

(** ** The score does not depend on the order or the case of its arguments *)

Section ScoreSymmetry.
Import Text Levenshtein Float64 Scorer Db Reference Shape.

Ltac each_char c := destruct c as [[] [] [] [] [] [] [] []]; vm_compute; try reflexivity; try discriminate.

Lemma count_overlap_sym (x y : list str) :
  count_overlap (Set_of x) (Set_of y) = count_overlap (Set_of y) (Set_of x).
Proof.
rewrite !count_overlap_filter. apply same_elements_length.
- apply NoDup_filter, Set_of_nodup.
- apply NoDup_filter, Set_of_nodup.
- intros t. rewrite !filter_In, !set_has_in. tauto.
Qed.

Lemma union_size_sym (x y : list str) :
  List.length (Set_of (x ++ y)) = List.length (Set_of (y ++ x)).
Proof.
apply same_elements_length; try apply Set_of_nodup.
intros t. rewrite !Set_of_in, !in_app_iff. tauto.
Qed.

Lemma hasNumberMatch_sym (x y : list str) :
  hasNumberMatch x y = hasNumberMatch y x.
Proof.
unfold hasNumberMatch. apply eq_true_iff_eq. rewrite !existsb_exists.
split; intros [n [I H]]; apply existsb_exists in H; destruct H as [m [J E]];
  apply str_eqb_eq in E; subst m; exists n; (split; [assumption |]);
  apply existsb_exists; exists n; (split; [assumption | apply str_eqb_refl]).
Qed.

(** X8. The score is symmetric in its two arguments. *)
Theorem similarityScore_sym (query candidate : str) :
  similarityScore query candidate = similarityScore candidate query.
Proof.
rewrite !similarityScore_unfold. cbv zeta.
rewrite (orb_comm (negb (nonempty (normalizeText candidate)))).
destruct (negb _ || negb _); [reflexivity |].
rewrite (levenshtein_edit_distance (normalizeText candidate)),
  (levenshtein_edit_distance (normalizeText query)).
unfold edit_distance.
rewrite (prefix_distance_sym (normalizeText candidate)).
rewrite (Nat.max_comm (List.length (normalizeText candidate))).
rewrite (count_overlap_sym (split_space (normalizeText candidate))).
rewrite (union_size_sym (Set_of (split_space (normalizeText candidate)))).
now rewrite (hasNumberMatch_sym (extractNumbers candidate)).
Qed.

Lemma lower_char_twice (c : ascii) : lower_char (lower_char c) = lower_char c.
Proof. each_char c. Qed.

Lemma lower_char_digit (c : ascii) : is_digit (lower_char c) = is_digit c.
Proof. each_char c. Qed.

Lemma lower_char_dot (c : ascii) :
  Ascii.eqb (lower_char c) "."%char = Ascii.eqb c "."%char.
Proof. each_char c. Qed.

Lemma lower_char_of_digit (c : ascii) : is_digit c = true -> lower_char c = c.
Proof. each_char c. Qed.

Lemma normalizeText_toLowerCase (s : str) :
  normalizeText (toLowerCase s) = normalizeText s.
Proof.
unfold normalizeText, toLowerCase. rewrite map_map.
now rewrite (map_ext _ _ lower_char_twice).
Qed.

Lemma scan_numbers_toLowerCase (s : str) :
  forall st, scan_numbers st (toLowerCase s) = scan_numbers st s.
Proof.
induction s as [| c r IH]; intros st; [reflexivity |].
cbn [toLowerCase map scan_numbers]. fold (toLowerCase r).
rewrite lower_char_digit, lower_char_dot.
destruct (is_digit c) eqn:D.
- rewrite (lower_char_of_digit c D). destruct st; apply IH.
- destruct st; rewrite ?IH; try reflexivity.
Qed.

(** X9. The score does not see the case of the letters: lower-casing
    either argument changes nothing. *)
Theorem similarityScore_case_insensitive (query candidate : str) :
  similarityScore (toLowerCase query) candidate
  = similarityScore query candidate /\
  similarityScore query (toLowerCase candidate)
  = similarityScore query candidate.
Proof.
unfold similarityScore, extractNumbers.
now rewrite !normalizeText_toLowerCase, !scan_numbers_toLowerCase.
Qed.

End ScoreSymmetry.

(** ** Cleaning the text of the model *)

Section FenceFacts.
Import Text Levenshtein Float64 Scorer Db Reference Shape Matcher Oracle.

Lemma starts_with_app (pat rest : str) : starts_with pat (pat ++ rest) = true.
Proof.
induction pat as [| p t IH]; [reflexivity |]. simpl.
now rewrite Ascii.eqb_refl, IH.
Qed.

Lemma starts_with_split (pat s : str) :
  starts_with pat s = true -> exists rest, s = pat ++ rest.
Proof.
revert s. induction pat as [| p t IH]; intros s H.
- now exists s.
- destruct s as [| c r]; [discriminate |]. simpl in H.
  apply andb_prop in H. destruct H as [E H].
  apply Ascii.eqb_eq in E. subst c.
  destruct (IH r H) as [rest ->]. now exists rest.
Qed.

Lemma remove_from_skip (pat pre s : str) :
  remove_from pat (List.length pre) (pre ++ s) = remove_from pat 0 s.
Proof. induction pre as [| c r IH]; [reflexivity | exact IH]. Qed.

Lemma remove_all_match (p : ascii) (pat s : str) :
  remove_all (p :: pat) ((p :: pat) ++ s) = remove_all (p :: pat) s.
Proof.
unfold remove_all. simpl.
rewrite Ascii.eqb_refl, starts_with_app. simpl. rewrite Nat.sub_0_r.
apply remove_from_skip.
Qed.

Lemma remove_all_copy (pat : str) (c : ascii) (s : str) :
  starts_with pat (c :: s) = false ->
  remove_all pat (c :: s) = c :: remove_all pat s.
Proof. unfold remove_all. cbn [remove_from]. now intros ->. Qed.

Lemma remove_all_free (pat s : str) :
  free pat s = true -> remove_all pat s = s.
Proof.
induction s as [| c r IH]; [reflexivity |]. cbn [free]. intros H.
apply andb_prop in H. destruct H as [N F]. apply negb_true_iff in N.
rewrite (remove_all_copy _ _ _ N). now rewrite IH.
Qed.

Lemma lead_fence (o : str) : starts_with fence o = true -> 3 <= lead o.
Proof.
intros H. destruct (starts_with_split _ _ H) as [rest ->]. simpl. lia.
Qed.

Lemma no_fence_lead (s : str) : starts_with fence s = false -> lead s <= 2.
Proof.
destruct s as [| a [| b [| c r]]]; simpl;
  repeat match goal with
         | |- context [Ascii.eqb ?x backtick] =>
             destruct (Ascii.eqb_spec x backtick); subst; simpl
         end; try lia; try discriminate.
Qed.

Lemma remove_fence_cases (s : str) :
  s = [] \/
  (exists r, s = fence ++ r /\ remove_all fence s = remove_all fence r) \/
  (exists c r, s = c :: r /\ starts_with fence s = false /\
               remove_all fence s = c :: remove_all fence r).
Proof.
destruct s as [| c r]; [now left | right].
destruct (starts_with fence (c :: r)) eqn:E.
- left. destruct (starts_with_split _ _ E) as [rest H]. exists rest.
  split; [exact H |]. rewrite H. apply (remove_all_match backtick).
- right. exists c, r. repeat split; auto. now apply remove_all_copy.
Qed.

Lemma remove_fence_lead (n : nat) :
  forall s, List.length s <= n ->
    lead (remove_all fence s) <= 2 /\
    lead (remove_all fence s) <= lead s /\
    free fence (remove_all fence s) = true.
Proof.
induction n as [| n IH]; intros s L.
- destruct s; [| simpl in L; lia]. simpl. auto.
- destruct (remove_fence_cases s) as [-> | [(r & -> & E) | (c & r & -> & N & E)]].
  + simpl. auto.
  + rewrite E. rewrite length_app in L. simpl in L.
    destruct (IH r ltac:(lia)) as (A & B & C).
    split; [exact A | split; [| exact C]]. simpl. lia.
  + rewrite E. simpl in L. destruct (IH r ltac:(lia)) as (A & B & C).
    pose proof (no_fence_lead _ N) as M. cbn [lead] in *.
    destruct (Ascii.eqb c backtick) eqn:Ec.
    * assert (K : S (lead (remove_all fence r)) <= 2) by lia.
      split; [exact K | split; [lia |]].
      cbn [free]. rewrite C, andb_true_r. apply negb_true_iff.
      destruct (starts_with fence (c :: remove_all fence r)) eqn:S3;
        [| reflexivity].
      apply lead_fence in S3. cbn [lead] in S3. rewrite Ec in S3. lia.
    * split; [lia | split; [lia |]].
      cbn [free]. rewrite C, andb_true_r. apply negb_true_iff.
      destruct (starts_with fence (c :: remove_all fence r)) eqn:S3;
        [| reflexivity].
      apply lead_fence in S3. cbn [lead] in S3. rewrite Ec in S3. lia.
Qed.

Lemma free_no_occurrence (p : ascii) (pat pre post : str) :
  free (p :: pat) (pre ++ (p :: pat) ++ post) = false.
Proof.
induction pre as [| c r IH].
- change ([] ++ (p :: pat) ++ post) with (p :: (pat ++ post)).
  cbn [free]. change (p :: pat ++ post) with ((p :: pat) ++ post).
  now rewrite starts_with_app.
- change ((c :: r) ++ (p :: pat) ++ post)
    with (c :: (r ++ (p :: pat) ++ post)).
  cbn [free]. rewrite IH. apply andb_false_r.
Qed.

Lemma free_inside (p : ascii) (pat w s w' : str) :
  free (p :: pat) (w ++ s ++ w') = true -> free (p :: pat) s = true.
Proof.
- intros H. destruct (free (p :: pat) s) eqn:F; [reflexivity |]. exfalso.
  assert (O : exists pre post, s = pre ++ (p :: pat) ++ post).
  { clear H. induction s as [| c r IH]; [discriminate |].
    cbn [free] in F. destruct (starts_with (p :: pat) (c :: r)) eqn:S.
    - destruct (starts_with_split _ _ S) as [rest E].
      exists [], rest. exact E.
    - simpl in F. destruct (IH F) as (pre & post & ->).
      now exists (c :: pre), post. }
  destruct O as (pre & post & ->).
  replace (w ++ (pre ++ (p :: pat) ++ post) ++ w')
    with ((w ++ pre) ++ (p :: pat) ++ (post ++ w')) in H
    by (now rewrite <- !app_assoc).
  now rewrite free_no_occurrence in H.
Qed.

Lemma trim_inside (s : str) : exists w w', s = w ++ trim s ++ w'.
Proof.
unfold trim. destruct (trim_start_suffix s) as [w Hw].
destruct (trim_end_prefix (trim_start s)) as [w' Hw'].
exists w, w'. now rewrite <- Hw', <- Hw.
Qed.

(** X10. Whatever the model wrote, no code fence begins anywhere in the
    text handed to [JSON.parse]. *)
Theorem clean_has_no_fence (text : str) : free fence (clean text) = true.
Proof.
destruct (remove_fence_lead _ (remove_all json_fence text) (Nat.le_refl _))
  as (_ & _ & F).
destruct (trim_inside (remove_all fence (remove_all json_fence text)))
  as (w & w' & Hw).
rewrite Hw in F. now apply (free_inside backtick) in F.
Qed.

Lemma plain_free (p : str) (body : str) :
  plain body -> free (backtick :: p) body = true.
Proof.
unfold plain. induction body as [| c r IH]; [reflexivity |].
cbn [forallb free]. intros H. apply andb_prop in H. destruct H as [Hc Hr].
rewrite (IH Hr), andb_true_r. cbn [starts_with].
rewrite Ascii.eqb_sym. apply negb_true_iff in Hc. now rewrite Hc.
Qed.





End FenceFacts.

(** ** What [match-products] returns *)

Section MatchFacts.
Import Text Levenshtein Float64 Scorer Db Reference Shape Matcher Oracle Ranking.
Local Open Scope Z_scope.

Lemma firstn_in {A} (n : nat) (l : list A) (x : A) :
  In x (firstn n l) -> In x l.
Proof.
intros I. rewrite <- (firstn_skipn n l). apply in_or_app. now left.
Qed.

Lemma rank_in (description : str) (ps : list product_view) (s : scored) :
  In s (rank description ps) -> In (candidate s) ps.
Proof.
unfold rank. intros I. apply firstn_in in I.
apply (proj1 (sort_by_score_in _ _)) in I.
unfold score_all in I. apply in_map_iff in I.
destruct I as [p [<- Ip]]. exact Ip.
Qed.

Lemma mapping_query_in (d : db) (key : str) (row : product_view) :
  In row (mapping_query d key) ->
  In row (map view_of (products (committed d))).
Proof.
unfold mapping_query. intros I. apply firstn_in in I.
apply (proj1 (in_flat_map _ _ _)) in I.
destruct I as [m [_ I]]. unfold joined in I.
destruct (str_eqb _ key); [| contradiction].
apply in_map_iff in I. destruct I as [p [<- Ip]].
apply filter_In in Ip. apply in_map. tauto.
Qed.

Lemma rank_nil (description : str) (ps : list product_view) :
  rank description ps = [] <-> ps = [].
Proof.
unfold rank. split.
- intros E. apply (f_equal (@List.length _)) in E.
  rewrite length_firstn, sort_by_score_length in E.
  unfold score_all in E. rewrite length_map in E.
  destruct ps; [reflexivity | simpl in E; discriminate].
- now intros ->.
Qed.

(** X12. The product a result names is a row of the catalog, whatever the
    oracle answered; and a result names no product exactly when the
    catalog is empty. *)
Theorem matched_is_catalogued (ask : oracle) (d : db) (item : line_item) :
  (forall v, matched (match_item ask d item) = Some v ->
             In v (map view_of (products (committed d)))) /\
  (matched (match_item ask d item) = None <-> products (committed d) = []).
Proof.
unfold match_item.
set (description := match line_description item with Some t => t | None => [] end).
destruct (if nonempty (normalizeText description)
          then mapping_query d (normalizeText description) else [])
  as [| row rows] eqn:Q.
- unfold heuristic_match.
  set (scored := rank description (map view_of (products (committed d)))).
  set (ai := match scored with
             | top :: _ => if ltb (score top) (of_Z 100)
                           then findBestMatchWithGemini ask description scored
                           else None
             | [] => None
             end).
  cbn [matched].
  set (pick := match usable_id ai with
               | Some k => find (fun p => id (candidate p) =? k) scored
               | None => None
               end).
  assert (P : forall c, pick = Some c -> In c scored).
  { unfold pick. intros c. destruct (usable_id ai); [| discriminate].
    intros F. apply find_some in F. tauto. }
  split.
  + intros v E. destruct pick as [c |] eqn:Ep.
    * simpl in E. inversion E; subst v. apply (rank_in description). now apply P.
    * destruct scored as [| top rest] eqn:Es; [discriminate |].
      simpl in E. inversion E; subst v. apply (rank_in description).
      fold scored. rewrite Es. now left.
  + destruct pick as [c |]; [| destruct scored as [| top rest] eqn:Es].
    * split; [discriminate |]. intros E.
      pose proof (P c eq_refl) as I. unfold scored in I.
      rewrite E in I. contradiction.
    * split; [| reflexivity]. intros _.
      apply (rank_nil description) in Es.
      destruct (products (committed d)); [reflexivity | discriminate].
    * split; [discriminate |]. intros E. unfold scored in Es.
      rewrite E in Es. discriminate.
- cbn [matched].
  assert (I : In row (mapping_query d (normalizeText description))).
  { destruct (nonempty _); [| discriminate]. rewrite Q. now left. }
  split.
  + intros v E. inversion E; subst v.
    exact (mapping_query_in d _ row I).
  + split; [discriminate |]. intros E.
    apply mapping_query_in in I. rewrite E in I. contradiction.
Qed.

(** X13. The result of an item depends on the oracle exactly when no
    mapping is found for it, the catalog is not empty and its best
    candidate scores below 100: otherwise any two oracles give the same
    result, and in that case two oracles give different ones. *)
Theorem oracle_is_consulted_only_below_100 (d : db) (item : line_item) :
  (oracle_skipped d item = true ->
   forall ask ask', match_item ask d item = match_item ask' d item) /\
  (oracle_skipped d item = false ->
   exists ask ask', match_item ask d item <> match_item ask' d item).
Proof.
unfold oracle_skipped, match_item.
set (description := match line_description item with Some t => t | None => [] end).
destruct (if nonempty (normalizeText description)
          then mapping_query d (normalizeText description) else [])
  as [| row rows] eqn:Q.
- cbn [orb]. unfold heuristic_match.
  destruct (rank description (map view_of (products (committed d))))
    as [| top rest] eqn:R.
  + split; [reflexivity | discriminate].
  + destruct (ltb (score top) (of_Z 100)) eqn:L; cbn [negb].
    * split; [discriminate | intros _].
      exists (fun _ _ => Unavailable),
        (fun _ _ => Parsed (Some (mkAi None None (Some (lit "no"))))).
      cbn. intros E. inversion E.
    * split; [reflexivity | discriminate].
- cbn [orb]. split; [reflexivity | discriminate].
Qed.

(** X14. When the oracle answers without naming a product (a [null] or 0
    identifier), the result is the best candidate of the ranking,
    attributed to the heuristic, yet scored with the confidence of the
    oracle when that is not 0, and carrying the reasoning of the
    oracle. *)
Theorem oracle_declines_but_scores
  (ask : oracle) (d : db) (item : line_item) (top : scored)
  (rest : list scored) (a : ai_response) (x : number) (why : str) :
  let description :=
    match line_description item with Some t => t | None => [] end in
  (if nonempty (normalizeText description)
   then mapping_query d (normalizeText description) else []) = [] ->
  rank description (map view_of (products (committed d))) = top :: rest ->
  ltb (score top) (of_Z 100) = true ->
  ask description (top :: rest) = Parsed (Some a) ->
  best_match_id a = None \/ best_match_id a = Some 0 ->
  confidence a = Some x -> truthy x = true ->
  reasoning a = Some why -> nonempty why = true ->
  let r := match_item ask d item in
  source r = SrcSuggestion /\
  matched r = Some (candidate top) /\
  result_score r = x /\
  ai_reasoning r = why.
Proof.
intros description Q R L A B C T W Nw. unfold match_item.
fold description. rewrite Q.
unfold heuristic_match. rewrite R, L.
unfold findBestMatchWithGemini. rewrite A. unfold usable_id.
assert (U : match best_match_id a with
            | Some k => if k =? 0 then None else Some k
            | None => None
            end = None)
  by (destruct B as [-> | ->]; reflexivity).
rewrite U. cbn. rewrite C. unfold first_truthy. rewrite T.
destruct a as [b cf rs]. cbn in *. subst rs.
destruct why; [discriminate |]. auto.
Qed.

End MatchFacts.

(** ** The ranking is a stable sort *)

Section SortFacts.
Import Text Levenshtein Float64 Scorer Db Reference Shape Matcher Oracle Ranking.
Local Open Scope Z_scope.

Lemma insert_sorted_perm (x : scored) (l : list scored) :
  Permutation (insert_sorted x l) (x :: l).
Proof.
induction l as [| y r IH]; simpl; [reflexivity |].
destruct (ltb _ _); [| reflexivity].
rewrite IH. apply perm_swap.
Qed.

Lemma sort_by_score_perm (l : list scored) : Permutation (sort_by_score l) l.
Proof.
induction l as [| x r IH]; simpl; [reflexivity |].
rewrite insert_sorted_perm. now constructor.
Qed.

Lemma graded_ltb (x y : scored) :
  graded x -> graded y ->
  exists nx ny,
    ltb (of_Z 0) (comparator x y) = (nx <? ny) /\
    ltb (score x) (score y) = (nx <? ny) /\
    ltb (score y) (score x) = (ny <? nx).
Proof.
intros [nx [Bx Ex]] [ny [By Ey]]. exists nx, ny. unfold comparator.
rewrite Ex, Ey.
destruct (small_scores_compare nx ny Bx By) as [A B].
destruct (small_scores_compare ny nx By Bx) as [_ C]. auto.
Qed.

Lemma insert_sorted_head (x : scored) (l : list scored) :
  exists h t, insert_sorted x l = h :: t /\
    (h = x \/ exists r, l = h :: r).
Proof.
destruct l as [| y r]; simpl.
- exists x, []. auto.
- destruct (ltb _ _).
  + exists y, (insert_sorted x r). split; [reflexivity |]. right. now exists r.
  + exists x, (y :: r). auto.
Qed.

Lemma descending_cons (x y : scored) (r : list scored) :
  descending (x :: y :: r)
  = negb (ltb (score x) (score y)) && descending (y :: r).
Proof. reflexivity. Qed.

Lemma descending_tail (x : scored) (r : list scored) :
  descending (x :: r) = true -> descending r = true.
Proof.
destruct r as [| y r]; [reflexivity |]. rewrite descending_cons.
intros D. apply andb_prop in D. tauto.
Qed.

Lemma insert_sorted_descending (x : scored) (l : list scored) :
  graded x -> Forall graded l ->
  descending l = true -> descending (insert_sorted x l) = true.
Proof.
intros Gx. induction l as [| y r IH]; intros G D; [reflexivity |].
inversion G as [| ? ? Gy Gr]; subst.
cbn [insert_sorted].
destruct (graded_ltb x y Gx Gy) as (nx & ny & C & A & B).
rewrite C. destruct (Z.ltb_spec nx ny) as [L | L].
- specialize (IH Gr (descending_tail _ _ D)).
  destruct (insert_sorted_head x r) as (h & t & E & H).
  rewrite E in *. rewrite descending_cons, IH, andb_true_r.
  destruct H as [-> | [r' ->]].
  + rewrite B. apply negb_true_iff, Z.ltb_ge. lia.
  + rewrite descending_cons in D. apply andb_prop in D. tauto.
- rewrite descending_cons, D, A.
  replace (nx <? ny) with false by (symmetry; apply Z.ltb_ge; lia).
  reflexivity.
Qed.

Lemma sort_by_score_descending (l : list scored) :
  Forall graded l -> descending (sort_by_score l) = true.
Proof.
induction 1 as [| x r Gx Gr IH]; [reflexivity |]. simpl.
apply insert_sorted_descending; auto.
apply Forall_forall. intros y I.
apply (proj1 (sort_by_score_in _ _)) in I.
rewrite Forall_forall in Gr. now apply Gr.
Qed.

Lemma ties_exclusive (z x y : scored) :
  graded z -> graded x -> graded y ->
  ltb (of_Z 0) (comparator x y) = true ->
  ties z x && ties z y = false.
Proof.
intros [nz [Bz Ez]] [nx [Bx Ex]] [ny [By Ey]]. unfold comparator, ties.
rewrite Ex, Ey, Ez.
rewrite (proj1 (small_scores_compare nx ny Bx By)).
rewrite (proj2 (small_scores_compare nz nx Bz Bx)),
  (proj2 (small_scores_compare nx nz Bx Bz)),
  (proj2 (small_scores_compare nz ny Bz By)),
  (proj2 (small_scores_compare ny nz By Bz)).
intros L. apply Z.ltb_lt in L.
destruct (Z.ltb_spec nz nx), (Z.ltb_spec nx nz), (Z.ltb_spec nz ny),
  (Z.ltb_spec ny nz); simpl; try reflexivity; lia.
Qed.

Lemma insert_sorted_stable (z x : scored) (l : list scored) :
  graded z -> graded x -> Forall graded l ->
  filter (ties z) (insert_sorted x l) = filter (ties z) (x :: l).
Proof.
intros Gz Gx. induction l as [| y r IH]; intros G; [reflexivity |].
inversion G as [| ? ? Gy Gr]; subst.
cbn [insert_sorted].
destruct (ltb (of_Z 0) (comparator x y)) eqn:C; [| reflexivity].
pose proof (ties_exclusive z x y Gz Gx Gy C) as X.
cbn [filter]. rewrite (IH Gr). cbn [filter].
destruct (ties z x), (ties z y); try reflexivity. discriminate.
Qed.

Lemma sort_by_score_stable (z : scored) (l : list scored) :
  graded z -> Forall graded l ->
  filter (ties z) (sort_by_score l) = filter (ties z) l.
Proof.
intros Gz. induction 1 as [| x r Gx Gr IH]; [reflexivity |].
cbn [sort_by_score fold_right]. fold (sort_by_score r).
rewrite insert_sorted_stable; auto.
- cbn [filter]. now rewrite IH.
- apply Forall_forall. intros y I.
  apply (proj1 (sort_by_score_in _ _)) in I.
  rewrite Forall_forall in Gr. now apply Gr.
Qed.

Lemma scored_catalog_graded (d : db) (description : str) :
  representable description ->
  (forall p, In p (products (committed d)) ->
             representable (candidate_text (view_of p))) ->
  Forall graded (scored_catalog d description).
Proof.
intros Rd Rp. apply Forall_forall. intros x Ix.
unfold scored_catalog, score_all in Ix. apply in_map_iff in Ix.
destruct Ix as [v [<- Iv]]. apply in_map_iff in Iv.
destruct Iv as [p [<- Ip]]. unfold graded. cbn [score].
apply similarityScore_bounded; [exact Rd | now apply Rp].
Qed.

(** X15. The candidates of an item are the first five of a stable sort of
    the scored catalog by descending score: the sorted list holds the
    same entries, no entry scores less than the one behind it, and
    entries of the same score keep the order of the catalog. *)
Theorem ranking_is_a_stable_sort (d : db) (description : str) :
  representable description ->
  (forall p, In p (products (committed d)) ->
             representable (candidate_text (view_of p))) ->
  let l := scored_catalog d description in
  rank description (map view_of (products (committed d)))
  = firstn 5 (sort_by_score l) /\
  Permutation (sort_by_score l) l /\
  descending (sort_by_score l) = true /\
  (forall z, In z l ->
             filter (ties z) (sort_by_score l) = filter (ties z) l).
Proof.
intros Rd Rp l.
pose proof (scored_catalog_graded d description Rd Rp) as G. fold l in G.
split; [reflexivity | split; [apply sort_by_score_perm | split]].
- now apply sort_by_score_descending.
- intros z Iz. apply sort_by_score_stable; [| exact G].
  rewrite Forall_forall in G. now apply G.
Qed.

Lemma rank_ids_unique (description : str) (ps : list product) :
  NoDup (map p_id ps) ->
  NoDup (map (fun s => id (candidate s)) (rank description (map view_of ps))).
Proof.
intros N. unfold rank. rewrite <- firstn_map.
set (l := map (fun s => id (candidate s))
            (sort_by_score (score_all description (map view_of ps)))).
assert (Nl : NoDup l).
{ unfold l. apply (Permutation_NoDup (l := map p_id ps)); [| exact N].
  symmetry. rewrite (Permutation_map _ (sort_by_score_perm _)).
  unfold score_all. rewrite !map_map. cbn. reflexivity. }
rewrite <- (firstn_skipn 5 l) in Nl. now apply NoDup_app_remove_r in Nl.
Qed.

(** X16. When the oracle names a candidate it was given, the result is
    that candidate, attributed to the oracle, scored with the confidence
    of the oracle, or with the score of the candidate when the
    confidence is missing or 0. *)
Theorem oracle_pick_is_honoured
  (ask : oracle) (d : db) (item : line_item) (top c : scored)
  (rest : list scored) (a : ai_response) :
  let description :=
    match line_description item with Some t => t | None => [] end in
  (if nonempty (normalizeText description)
   then mapping_query d (normalizeText description) else []) = [] ->
  rank description (map view_of (products (committed d))) = top :: rest ->
  ltb (score top) (of_Z 100) = true ->
  ask description (top :: rest) = Parsed (Some a) ->
  NoDup (map p_id (products (committed d))) ->
  In c (top :: rest) ->
  best_match_id a = Some (id (candidate c)) ->
  id (candidate c) <> 0 ->
  let r := match_item ask d item in
  source r = SrcAiGemini /\
  matched r = Some (candidate c) /\
  result_score r = first_truthy (confidence a) (Some (score c)) /\
  suggestions r = firstn 3 (top :: rest).
Proof.
intros description Q R L A Np I B K.
assert (N : NoDup (map (fun s => id (candidate s)) (top :: rest)))
  by (rewrite <- R; now apply rank_ids_unique).
unfold match_item.
fold description. rewrite Q.
unfold heuristic_match. rewrite R, L.
unfold findBestMatchWithGemini. rewrite A. unfold usable_id. rewrite B.
destruct (Z.eqb_spec (id (candidate c)) 0) as [E | _]; [tauto |].
assert (F : find (fun p => id (candidate p) =? id (candidate c)) (top :: rest)
            = Some c).
{ clear - N I. induction (top :: rest) as [| x l IH]; [contradiction |].
  simpl. inversion N as [| ? ? Nx Nl]; subst.
  destruct I as [-> | I].
  - now rewrite Z.eqb_refl.
  - destruct (Z.eqb_spec (id (candidate x)) (id (candidate c))) as [E | _];
      [| now apply IH].
    exfalso. apply Nx. rewrite E.
    apply (in_map (fun s => id (candidate s))) in I. exact I. }
rewrite F. cbn. auto.
Qed.


(** X17. An item whose description has no letter and no digit is never
    resolved by a mapping; every product scores 0 against it, so its
    suggestions are the first three products of the catalog in table
    order, and with the oracle out of reach its match is the first
    product, with score 0. *)
Theorem blank_description_gets_first_products
  (ask : oracle) (d : db) (item : line_item) :
  let description :=
    match line_description item with Some t => t | None => [] end in
  let zero_scored := fun p => mkScored (view_of p) (of_Z 0) in
  nonempty (normalizeText description) = false ->
  let r := match_item ask d item in
  source r <> SrcMapping /\
  suggestions r = firstn 3 (map zero_scored (products (committed d))) /\
  ((forall q c, ask q c = Unavailable) ->
   matched r = option_map view_of (hd_error (products (committed d))) /\
   result_score r = of_Z 0).
Proof.
intros description zero_scored E. unfold match_item. fold description.
rewrite E. unfold heuristic_match.
assert (S0 : score_all description (map view_of (products (committed d)))
             = map zero_scored (products (committed d))).
{ unfold score_all. rewrite map_map. apply map_ext. intros p.
  unfold zero_scored. f_equal. unfold similarityScore.
  fold (normalizeText description). now rewrite E. }
assert (Id : forall l, sort_by_score (map zero_scored l) = map zero_scored l).
{ induction l as [| p l IH]; [reflexivity |].
  cbn [map sort_by_score fold_right]. fold (sort_by_score (map zero_scored l)).
  rewrite IH. destruct l; reflexivity. }
unfold rank. rewrite S0, Id.
set (ps := products (committed d)).
cbn [source suggestions matched result_score].
rewrite firstn_firstn. cbn [Nat.min].
split; [| split].
- destruct (usable_id _); discriminate.
- reflexivity.
- intros U. destruct ps as [| p rest]; [split; reflexivity |].
  cbn [map firstn]. cbn [score zero_scored].
  change (ltb (of_Z 0) (of_Z 100)) with true. cbv iota.
  rewrite (findBestMatchWithGemini_unavailable ask _ _ U).
  split; reflexivity.
Qed.

End SortFacts.

(** ** The ledger of a committed request *)

Section LedgerFacts.
Import Text Float64 Db Stock Ledger.
Context {P : JsParsers}.
Local Open Scope Z_scope.




Lemma increment_first_cards (now q : Z) (t : str) (ps ps' : list product) :
  increment_first now t q ps = Some ps' -> Forall2 same_card ps ps'.
Proof.
assert (R : forall l, Forall2 same_card l l).
{ induction l; constructor; auto. now repeat split. }
revert ps'. induction ps as [| p r IH]; intros ps'; [discriminate |]. simpl.
destruct (str_eqb (p_description p) t).
- intros H. inversion H; subst. constructor; [| apply R].
  now repeat split.
- destruct (increment_first now t q r) as [r' |]; [| discriminate].
  intros H. inversion H; subst. constructor; [now repeat split | now apply IH].
Qed.











Lemma add_stock_failed (faults : environment) (now : Z) (d d' : db)
  (req : request) (lg : list (statement * bool)) :
  add_stock faults now d req = (TransactionFailed, d', lg) ->
  committed d' = committed d.
Proof.
unfold add_stock.
destruct (transaction faults now req (open_session d)) as [[u |] s];
  intros H; inversion H; reflexivity.
Qed.


End LedgerFacts.

(** ** Identifiers and sequences *)

Section KeyFacts.
Import Text Float64 Db Stock Ledger.
Context {P : JsParsers}.
Local Open Scope Z_scope.

Lemma grows_ret {A} (a : A) : grows (ret a).
Proof. intros s r s' H. inversion H; subst. lia. Qed.

Lemma grows_bind {A B} (m : M A) (k : A -> M B) :
  grows m -> (forall a, grows (k a)) -> grows (bind m k).
Proof.
intros Hm Hk s r s' H. unfold bind in H.
destruct (m s) as [[a |] s1] eqn:E.
- destruct (Hm _ _ _ E). destruct (Hk a _ _ _ H). lia.
- inversion H; subst. now apply (Hm _ _ _ E).
Qed.

Lemma grows_query (faults : environment) (now : Z) (st : statement) :
  grows (query faults now st).
Proof.
intros s r s' H. unfold query in H.
destruct (faults _ st); [inversion H; subst; simpl; lia |].
destruct (apply_statement now st s) as [[rows s1] |] eqn:E;
  inversion H; subst; simpl; [| lia].
destruct st; simpl in E;
  repeat match type of E with
         | context [match ?x with _ => _ end] => destruct x
         end; inversion E; subst; simpl; lia.
Qed.

Lemma grows_upsert_item (faults : environment) (now : Z) (it : item) :
  grows (upsert_item faults now it).
Proof.
unfold upsert_item. apply grows_bind; [apply grows_query |].
intros [| row rows]; apply grows_bind;
  auto using grows_query, grows_ret.
Qed.

Lemma grows_for_each (faults : environment) (now : Z) (its : list item) :
  grows (for_each faults now its).
Proof.
induction its as [| it r IH]; simpl; [apply grows_ret |].
apply grows_bind; [apply grows_upsert_item | auto].
Qed.

Lemma grows_save_invoice (faults : environment) (now : Z)
  (info : option invoice_info) : grows (save_invoice faults now info).
Proof.
destruct info; simpl; [| apply grows_ret].
apply grows_bind; auto using grows_query, grows_ret.
Qed.

Lemma grows_transaction (faults : environment) (now : Z) (req : request) :
  grows (transaction faults now req).
Proof.
unfold transaction.
repeat (apply grows_bind; [| intros ?]);
  auto using grows_query, grows_save_invoice, grows_for_each, grows_ret.
Qed.

Lemma Forall2_same_card_ids (ps ps' : list product) :
  Forall2 same_card ps ps' -> map p_id ps' = map p_id ps.
Proof.
induction 1 as [| p q l l' H _ IH]; [reflexivity |]. simpl.
destruct H as [E _]. now rewrite E, IH.
Qed.

Lemma primary_key_ids (ps ps' : list product) (n n' : Z) :
  map p_id ps' = map p_id ps -> n <= n' ->
  primary_key ps n -> primary_key ps' n'.
Proof.
unfold primary_key. intros E L [N F]. rewrite E. split; [exact N |].
assert (G : Forall (fun i => i < n') (map p_id ps')).
{ rewrite E. apply Forall_map. eapply Forall_impl; [| exact F].
  simpl. intros. lia. }
now apply Forall_map in G.
Qed.

Lemma additive_upsert_key (now : Z) (st : list product * Z) (it : item) :
  primary_key (fst st) (snd st) ->
  primary_key (fst (additive_upsert now st it))
    (snd (additive_upsert now st it)).
Proof.
intros K. unfold additive_upsert.
destruct (item_description it) as [t |]; [| exact K].
destruct (increment_first now t (int_or_0 (item_quantity it)) (fst st))
  as [ps' |] eqn:I; cbn [fst snd].
- apply (primary_key_ids (fst st) ps' (snd st) (snd st));
    [| lia | exact K].
  apply Forall2_same_card_ids. now apply (increment_first_cards _ _ _ _ _ I).
- now apply primary_key_insert.
Qed.

Lemma fold_upsert_key (now : Z) (its : list item) :
  forall st,
    primary_key (fst st) (snd st) ->
    primary_key (fst (fold_left (additive_upsert now) its st))
      (snd (fold_left (additive_upsert now) its st)).
Proof.
induction its as [| it r IH]; intros st K; simpl; [exact K |].
apply IH. now apply additive_upsert_key.
Qed.

(** X20. Whatever the outcome of a request, the identifiers of the
    products stay distinct and below the sequence, and no sequence is
    wound back. *)
Theorem add_stock_keeps_the_primary_key
  (faults : environment) (now : Z) (d d' : db) (req : request)
  (resp : response) (lg : list (statement * bool)) :
  primary_key (products (committed d)) (products_id_seq d) ->
  add_stock faults now d req = (resp, d', lg) ->
  primary_key (products (committed d')) (products_id_seq d') /\
  products_id_seq d <= products_id_seq d' /\
  invoices_id_seq d <= invoices_id_seq d'.
Proof.
intros K H.
assert (G : products_id_seq d <= products_id_seq d' /\
            invoices_id_seq d <= invoices_id_seq d').
{ unfold add_stock in H.
  destruct (transaction faults now req (open_session d)) as [r s] eqn:T.
  pose proof (grows_transaction faults now req _ _ _ T) as G. simpl in G.
  destruct r; inversion H; subst; simpl; exact G. }
split; [| exact G]. destruct resp.
- destruct (add_stock_committed faults now d d' req lg K H) as [E _].
  pose proof (fold_upsert_key now (items req)
                (products (committed d), products_id_seq d) K) as F.
  rewrite <- E in F. exact F.
- rewrite (add_stock_failed faults now d d' req lg H).
  apply (primary_key_ids (products (committed d)) (products (committed d))
           (products_id_seq d) (products_id_seq d'));
    [reflexivity | tauto | exact K].
Qed.

End KeyFacts.

(** ** The statements of a request *)

Section LogFacts.
Import Text Float64 Db Stock Ledger.
Context {P : JsParsers}.
Local Open Scope Z_scope.










End LogFacts.

(** ** What a save leaves alone *)

Section MappingFrame.
Import Text Float64 Scorer Db Mapping Matcher.
Local Open Scope Z_scope.

Lemma save_mapping_outcome (throws : bool) (now : Z) (d d1 : db)
  (req : request) (resp : response) :
  save_mapping throws now d req = (resp, d1) ->
  d1 = d \/
  exists name pid stored,
    supplier_name req = Some name /\
    d1 = upsert_mapping now name (normalizeText name) pid stored d.
Proof.
unfold save_mapping.
destruct (supplier_name req) as [[| c l] |];
  [intros H; inversion H; auto | | intros H; inversion H; auto].
destruct (product_id req) as [pid |]; [| intros H; inversion H; auto].
destruct (pid =? 0); [intros H; inversion H; auto |].
destruct (varchar_100 _) as [stored |]; [| intros H; inversion H; auto].
destruct (negb throws && product_exists pid d); intros H; inversion H; auto.
right. now exists (c :: l), pid, stored.
Qed.

Lemma joined_other_key (ps : list product) (key key0 : str) (pid : Z)
  (sid : option str) (ms : list mapping) :
  key <> key0 ->
  flat_map (joined ps key) (on_conflict_update key0 pid sid ms)
  = flat_map (joined ps key) ms.
Proof.
intros N. induction ms as [| m r IH]; [reflexivity |].
cbn [on_conflict_update map flat_map]. fold (on_conflict_update key0 pid sid r).
rewrite IH. f_equal. unfold has_key.
destruct (str_eqb (m_supplier_name_normalized m) key0) eqn:E; [| reflexivity].
apply str_eqb_eq in E. unfold joined. cbn [m_supplier_name_normalized].
rewrite E. destruct (str_eqb key0 key) eqn:E'; [| reflexivity].
apply str_eqb_eq in E'. congruence.
Qed.

Lemma upsert_other_key (now : Z) (d : db) (name key0 key : str) (pid : Z)
  (sid : option str) :
  key <> key0 ->
  mapping_query (upsert_mapping now name key0 pid sid d) key
  = mapping_query d key.
Proof.
intros N. unfold mapping_query, upsert_mapping.
cbn [supplier_mappings committed]. f_equal.
destruct (existsb (has_key key0) (supplier_mappings d)).
- now apply joined_other_key.
- rewrite flat_map_app. cbn [flat_map]. unfold joined at 2.
  cbn [m_supplier_name_normalized].
  destruct (str_eqb key0 key) eqn:E.
  + apply str_eqb_eq in E. congruence.
  + now rewrite !app_nil_r.
Qed.

(** X22. Whatever its outcome, a save leaves the products and the invoices
    as they are, keeps the normalised labels of the mappings distinct,
    and changes no lookup under a key other than the normalised label
    of the request. *)
Theorem save_mapping_touches_one_key
  (throws : bool) (now : Z) (d d1 : db) (req : request) (resp : response) :
  unique_keys d ->
  save_mapping throws now d req = (resp, d1) ->
  unique_keys d1 /\
  committed d1 = committed d /\
  forall key,
    (forall name, supplier_name req = Some name -> key <> normalizeText name) ->
    mapping_query d1 key = mapping_query d key.
Proof.
intros U H.
destruct (save_mapping_outcome throws now d d1 req resp H)
  as [-> | (name & pid & stored & E & ->)].
- auto.
- split; [now apply upsert_unique | split; [reflexivity |]].
  intros key N. apply upsert_other_key. now apply N.
Qed.

(** X23. A saved mapping serves every spelling of its label: an item whose
    description has the same normalisation, not empty, as the label that
    was saved is resolved by the mapping, to the product that was saved,
    whatever the oracle. *)
Theorem mapping_serves_every_spelling
  (throws : bool) (now : Z) (d d1 : db) (label spelling : str) (pid : Z)
  (sid : option str) (ask : oracle) :
  unique_keys d ->
  save_mapping throws now d (mkRequest (Some label) (Some pid) sid)
  = (Saved, d1) ->
  normalizeText spelling = normalizeText label ->
  nonempty (normalizeText label) = true ->
  let r := match_item ask d1 (mkLineItem (Some spelling)) in
  source r = SrcMapping /\
  result_score r = of_Z 100 /\
  suggestions r = [] /\
  exists row, matched r = Some row /\ id row = pid.
Proof.
intros U H E N.
destruct (save_mapping_saved throws now d d1 label pid sid H)
  as (_ & X & stored & _ & ->).
destruct (upsert_lookup now d label (normalizeText label) pid stored U X)
  as [row [Q I]].
unfold match_item. cbn [line_description]. rewrite E, N, Q. cbn.
repeat split. now exists row.
Qed.

End MappingFrame.

(** ** Dates of the purchase form *)

Section DateFacts.
Import Text Float64 Scorer Db Matcher Ranking Purchase.

Lemma digit_no_sep (c : ascii) : is_digit c = true -> is_sep c = false.
Proof.
destruct c as [[] [] [] [] [] [] [] []]; vm_compute; try reflexivity;
  discriminate.
Qed.

Lemma digit_no_dash (c : ascii) :
  is_digit c = true -> Ascii.eqb c "-"%char = false.
Proof.
destruct c as [[] [] [] [] [] [] [] []]; vm_compute; try reflexivity;
  discriminate.
Qed.

Lemma sep_no_digit (c : ascii) : is_sep c = true -> is_digit c = false.
Proof.
destruct c as [[] [] [] [] [] [] [] []]; vm_compute; try reflexivity;
  discriminate.
Qed.

Lemma split_on_digits (ds : str) :
  forallb is_digit ds = true ->
  forall cur rest,
    split_on is_sep cur (ds ++ rest) = split_on is_sep (rev ds ++ cur) rest.
Proof.
induction ds as [| c r IH]; intros H cur rest; [reflexivity |].
cbn [forallb] in H. apply andb_prop in H. destruct H as [Hc Hr].
cbn [app split_on]. rewrite (digit_no_sep c Hc), (IH Hr).
cbn [rev]. now rewrite <- app_assoc.
Qed.

Lemma split_three (a b c : str) (s1 s2 : ascii) :
  forallb is_digit a = true -> forallb is_digit b = true ->
  forallb is_digit c = true ->
  is_sep s1 = true -> is_sep s2 = true ->
  split_on is_sep [] (a ++ s1 :: b ++ s2 :: c) = [a; b; c].
Proof.
intros Ha Hb Hc S1 S2.
rewrite (split_on_digits a Ha). cbn [split_on]. rewrite S1.
rewrite (split_on_digits b Hb). cbn [split_on]. rewrite S2.
rewrite <- (app_nil_r c) at 1. rewrite (split_on_digits c Hc).
cbn [split_on]. now rewrite !app_nil_r, !rev_involutive.
Qed.

Lemma padded_is_iso (y m d : str) :
  year y -> short_number m -> short_number d ->
  is_iso (dashed y (padStart2 m) (padStart2 d)) = true.
Proof.
intros [Hy Ly] [Hm Lm] [Hd Ld].
destruct y as [| y1 [| y2 [| y3 [| y4 [| ? ?]]]]]; try discriminate.
destruct m as [| m1 [| m2 [| ? ?]]]; simpl in Lm; try lia;
  destruct d as [| d1 [| d2 [| ? ?]]]; simpl in Ld; try lia;
  cbn in Hy, Hm, Hd |- *;
  repeat match goal with
         | H : _ && _ = true |- _ => apply andb_prop in H; destruct H
         end;
  repeat match goal with
         | H : is_digit ?c = true |- _ => rewrite H; clear H
         end; reflexivity.
Qed.

Lemma day_first_not_iso (d rest : str) (s1 : ascii) :
  short_number d -> is_sep s1 = true -> is_iso (d ++ s1 :: rest) = false.
Proof.
intros [Hd Ld] S1. pose proof (sep_no_digit s1 S1) as N.
destruct d as [| d1 [| d2 [| ? ?]]]; simpl in Ld; try lia; cbn.
- destruct rest as [| ? [| ? [| ? [| ? [| ? [| ? [| ? [| ? [| ? [| ? ?]]]]]]]]]];
    try reflexivity.
  cbn. rewrite N. now rewrite ?andb_false_r.
- destruct rest as [| ? [| ? [| ? [| ? [| ? [| ? [| ? [| ? ?]]]]]]]];
    try reflexivity.
  cbn. rewrite N. now rewrite ?andb_false_r.
Qed.

Lemma nonempty_app_cons (a : str) (c : ascii) (r : str) :
  nonempty (a ++ c :: r) = true.
Proof. destruct a; reflexivity. Qed.

(** X24. A date written day first or year first, with [/], [-] or [.]
    between day, month (of one or two digits) and year (of four),
    becomes the ISO date [YYYY-MM-DD], padded with zeros, which the
    function then leaves as it is. *)
Theorem dates_become_iso (d m y : str) (s1 s2 : ascii) :
  short_number d -> short_number m -> year y ->
  is_sep s1 = true -> is_sep s2 = true ->
  let iso := dashed y (padStart2 m) (padStart2 d) in
  normalizeInvoiceDate (d ++ s1 :: m ++ s2 :: y) = iso /\
  normalizeInvoiceDate (y ++ s1 :: m ++ s2 :: d) = iso /\
  is_iso iso = true /\
  normalizeInvoiceDate iso = iso.
Proof.
intros Hd Hm Hy S1 S2 iso.
pose proof (padded_is_iso y m d Hy Hm Hd) as I. fold iso in I.
destruct Hd as [Dd Ld], Hm as [Dm Lm], Hy as [Dy Ly].
split; [| split; [| split]].
- unfold normalizeInvoiceDate. rewrite nonempty_app_cons. cbn [negb].
  rewrite (day_first_not_iso d _ s1 (conj Dd Ld) S1).
  rewrite (split_three d m y s1 s2 Dd Dm Dy S1 S2).
  now rewrite Ly.
- unfold normalizeInvoiceDate. rewrite nonempty_app_cons. cbn [negb].
  destruct (is_iso (y ++ s1 :: m ++ s2 :: d)) eqn:E.
  + unfold iso, dashed.
    destruct y as [| y1 [| y2 [| y3 [| y4 [| ? ?]]]]]; try discriminate.
    destruct m as [| m1 [| m2 [| ? ?]]]; simpl in Lm; try lia;
      destruct d as [| d1 [| d2 [| ? ?]]]; simpl in Ld; try lia;
      cbn in E; try discriminate.
    apply andb_prop in E. destruct E as [E E2].
    apply andb_prop in E. destruct E as [_ E1].
    apply Ascii.eqb_eq in E1, E2. now subst.
  + rewrite (split_three y m d s1 s2 Dy Dm Dd S1 S2).
    destruct (Nat.eqb_spec (List.length d) 4) as [L4 | _]; [lia |].
    now rewrite Ly.
- exact I.
- unfold normalizeInvoiceDate. rewrite I.
  unfold iso, dashed. now rewrite nonempty_app_cons.
Qed.

End DateFacts.

(** ** The form and the routes *)

Section FormFacts.
Import Text Float64 Scorer Db Matcher Ranking Purchase.
Context {P : JsParsers}.
Local Open Scope Z_scope.

Lemma merged_ignores_the_oracle (ask ask' : oracle) (d : db)
  (line : line_item) (item : form_item) :
  merged item (Some (match_item ask d line))
  = merged item (Some (match_item ask' d line)).
Proof.
unfold match_item.
destruct (if nonempty _ then _ else _) as [| row rows]; [| reflexivity].
unfold heuristic_match, merged.
cbn [source matched suggestions].
destruct (usable_id _), (usable_id _); reflexivity.
Qed.

(** X25. What a scan puts in the purchase form does not depend on the
    oracle: the rows merged from the answer of [match-products] are the
    same whatever the oracle answered, since the form reads the match
    only of a mapping and otherwise shows the first suggestion. *)
Theorem form_rows_ignore_the_oracle (ask ask' : oracle) (d : db)
  (lines : list line_item) (items : list form_item) :
  merge_all items (match_products ask d lines)
  = merge_all items (match_products ask' d lines).
Proof.
unfold match_products. revert lines.
induction items as [| item rest IH]; intros lines; [reflexivity |].
destruct lines as [| line lines]; cbn [map merge_all hd_error tl].
- reflexivity.
- f_equal; [apply merged_ignores_the_oracle | apply IH].
Qed.

Lemma suggestion_in_catalog (ask : oracle) (d : db) (line : line_item)
  (s : scored) :
  In s (suggestions (match_item ask d line)) ->
  In (candidate s) (map view_of (products (committed d))).
Proof.
unfold match_item.
destruct (if nonempty _ then _ else _) as [| row rows]; [| contradiction].
unfold heuristic_match. cbn [suggestions]. intros I.
apply firstn_in in I. now apply rank_in in I.
Qed.

Lemma catalogued_exists (d : db) (v : product_view) :
  In v (map view_of (products (committed d))) ->
  Mapping.product_exists (id v) d = true.
Proof.
intros I. apply in_map_iff in I. destruct I as [p [<- Ip]].
unfold Mapping.product_exists. apply existsb_exists.
exists p. split; [exact Ip |]. cbn. apply Z.eqb_refl.
Qed.

Lemma normalizeText_nil : normalizeText [] = [].
Proof. reflexivity. Qed.

(** X26. The form learns: once the user has taken a suggestion for a
    scanned description, and the save went through, the next scan of
    that description is resolved by the mapping to the product of the
    suggestion, and the form shows the row as confirmed. *)
Theorem confirmed_suggestion_is_remembered
  (ask ask' : oracle) (now : Z) (d : db) (raw : str) (s : scored)
  (item : form_item) :
  Mapping.unique_keys d ->
  Forall (fun p => p_id p <> 0) (products (committed d)) ->
  nonempty (normalizeText raw) = true ->
  In s (suggestions (match_item ask d (mkLineItem (Some raw)))) ->
  exists d1,
    Mapping.save_mapping false now d (confirm_request (Some raw) s)
    = (Mapping.Saved, d1) /\
    let r := match_item ask' d1 (mkLineItem (Some raw)) in
    source r = SrcMapping /\
    (exists row, matched r = Some row /\ id row = id (candidate s)) /\
    f_confirmed (merged item (Some r)) = true /\
    f_match_source (merged item (Some r)) = Some TagMapping.
Proof.
intros U Nz Ne I.
pose proof (suggestion_in_catalog ask d _ s I) as C.
pose proof (catalogued_exists d _ C) as X.
assert (K : id (candidate s) <> 0).
{ apply in_map_iff in C. destruct C as [p [E Ip]].
  rewrite Forall_forall in Nz. rewrite <- E. cbn. now apply Nz. }
assert (Nr : raw <> []).
{ intros ->. rewrite normalizeText_nil in Ne. discriminate. }
eexists. split.
- unfold confirm_request. apply save_mapping_again; auto. reflexivity.
- destruct (upsert_lookup now d raw (normalizeText raw) (id (candidate s))
              None U X) as [row [Q E]].
  unfold match_item. cbn [line_description]. rewrite Ne, Q. cbn.
  repeat split. now exists row.
Qed.



End FormFacts.

(** ** The theorems on the sample data *)

Section Witnesses.
Import Text Levenshtein Float64 Scorer Db.
Import Matcher Oracle Ranking Purchase Cases.
Local Open Scope Z_scope.


Lemma oracle_declines_but_scores_witness :
  let r := match_item declining_oracle Sample.catalog_db Sample.widgit in
  source r = SrcSuggestion /\
  matched r = Some (candidate scored_widget) /\
  result_score r = of_Z 95 /\
  ai_reasoning r = lit "new product".
Proof.
apply (oracle_declines_but_scores declining_oracle Sample.catalog_db
         Sample.widgit scored_widget [scored_gadget]
         (mkAi None (Some (of_Z 95)) (Some (lit "new product")))
         (of_Z 95) (lit "new product")).
- reflexivity.
- vm_compute. reflexivity.
- vm_compute. reflexivity.
- reflexivity.
- left. reflexivity.
- reflexivity.
- vm_compute. reflexivity.
- reflexivity.
- reflexivity.
Defined.

Lemma ranking_is_a_stable_sort_witness :
  let l := scored_catalog Sample.catalog_db (lit "Widgit A") in
  rank (lit "Widgit A")
    (map view_of (products (committed Sample.catalog_db)))
  = firstn 5 (sort_by_score l) /\
  Permutation (sort_by_score l) l /\
  descending (sort_by_score l) = true /\
  (forall z, In z l ->
             filter (ties z) (sort_by_score l) = filter (ties z) l).
Proof.
apply (ranking_is_a_stable_sort Sample.catalog_db (lit "Widgit A")).
- vm_compute. reflexivity.
- intros p [<- | [<- | []]]; vm_compute; reflexivity.
Defined.

Lemma oracle_pick_is_honoured_witness :
  let r := match_item picking_oracle Sample.catalog_db Sample.widgit in
  source r = SrcAiGemini /\
  matched r = Some (candidate scored_gadget) /\
  result_score r
  = first_truthy (Some (of_Z 80)) (Some (score scored_gadget)) /\
  suggestions r = firstn 3 [scored_widget; scored_gadget].
Proof.
apply (oracle_pick_is_honoured picking_oracle Sample.catalog_db
         Sample.widgit scored_widget scored_gadget [scored_gadget]
         (mkAi (Some 2) (Some (of_Z 80)) (Some (lit "same thing")))).
- reflexivity.
- vm_compute. reflexivity.
- vm_compute. reflexivity.
- reflexivity.
- repeat constructor; simpl; lia.
- right. left. reflexivity.
- reflexivity.
- simpl. lia.
Defined.

Lemma blank_description_gets_first_products_witness :
  let zero_scored := fun p => mkScored (view_of p) (of_Z 0) in
  let r := match_item Sample.silent_oracle Sample.catalog_db blank in
  source r <> SrcMapping /\
  suggestions r
  = firstn 3 (map zero_scored (products (committed Sample.catalog_db))) /\
  ((forall q c, Sample.silent_oracle q c = Unavailable) ->
   matched r
   = option_map view_of (hd_error (products (committed Sample.catalog_db))) /\
   result_score r = of_Z 0).
Proof.
apply (blank_description_gets_first_products Sample.silent_oracle
         Sample.catalog_db blank).
reflexivity.
Defined.

End Witnesses.

Section LedgerWitnesses.
Import Text Levenshtein Float64 Scorer Db.
Import Stock Ledger Cases.
Local Open Scope Z_scope.



Lemma add_stock_keeps_the_primary_key_witness :
  primary_key (products (committed (snd (fst restocked))))
    (products_id_seq (snd (fst restocked))) /\
  products_id_seq Sample.catalog_db <= products_id_seq (snd (fst restocked)) /\
  invoices_id_seq Sample.catalog_db <= invoices_id_seq (snd (fst restocked)).
Proof.
apply (add_stock_keeps_the_primary_key no_faults 9 Sample.catalog_db
         (snd (fst restocked)) restock (fst (fst restocked))
         (snd restocked)).
- split; repeat constructor; simpl; lia.
- vm_compute. reflexivity.
Defined.


End LedgerWitnesses.

Section MappingWitnesses.
Import Text Levenshtein Float64 Scorer Db.
Import Matcher Mapping Cases.
Local Open Scope Z_scope.

Lemma save_mapping_touches_one_key_witness :
  let d1 := snd (save_mapping false 5 Sample.mapped_db map_gadget) in
  unique_keys d1 /\
  committed d1 = committed Sample.mapped_db /\
  forall key,
    (forall name, supplier_name map_gadget = Some name ->
                  key <> normalizeText name) ->
    mapping_query d1 key = mapping_query Sample.mapped_db key.
Proof.
apply (save_mapping_touches_one_key false 5 Sample.mapped_db
         (snd (save_mapping false 5 Sample.mapped_db map_gadget))
         map_gadget
         (fst (save_mapping false 5 Sample.mapped_db map_gadget))).
- repeat constructor; simpl; tauto.
- vm_compute. reflexivity.
Defined.

Lemma mapping_serves_every_spelling_witness :
  let d1 := snd (save_mapping false 5 Sample.catalog_db map_acme) in
  let r := match_item Sample.stray_oracle d1
             (mkLineItem (Some (lit "acme   WIDGET"))) in
  source r = SrcMapping /\
  result_score r = of_Z 100 /\
  suggestions r = [] /\
  exists row, matched r = Some row /\ id row = 1.
Proof.
apply (mapping_serves_every_spelling false 5 Sample.catalog_db
         (snd (save_mapping false 5 Sample.catalog_db map_acme))
         (lit "ACME Widget!") (lit "acme   WIDGET") 1 None
         Sample.stray_oracle).
- repeat constructor; simpl; tauto.
- vm_compute. reflexivity.
- reflexivity.
- reflexivity.
Defined.

End MappingWitnesses.

Section PurchaseWitnesses.
Import Text Levenshtein Float64 Scorer Db.
Import Matcher Purchase Cases.
Local Open Scope Z_scope.

Lemma dates_become_iso_witness :
  let iso := dashed (lit "2024") (padStart2 (lit "1")) (padStart2 (lit "5")) in
  normalizeInvoiceDate (lit "5/1/2024") = iso /\
  normalizeInvoiceDate (lit "2024.1.5") = iso /\
  is_iso iso = true /\
  normalizeInvoiceDate iso = iso.
Proof.
split; [| split].
- apply (dates_become_iso (lit "5") (lit "1") (lit "2024") "/" "/");
    try reflexivity; split; try reflexivity; simpl; lia.
- apply (dates_become_iso (lit "5") (lit "1") (lit "2024") "." ".");
    try reflexivity; split; try reflexivity; simpl; lia.
- apply (dates_become_iso (lit "5") (lit "1") (lit "2024") "-" "-");
    try reflexivity; split; try reflexivity; simpl; lia.
Defined.

Lemma confirmed_suggestion_is_remembered_witness :
  exists d1,
    Mapping.save_mapping false 5 Sample.catalog_db
      (confirm_request (Some (lit "Widgit A")) scored_gadget)
    = (Mapping.Saved, d1) /\
    let r := match_item Sample.stray_oracle d1
               (mkLineItem (Some (lit "Widgit A"))) in
    source r = SrcMapping /\
    (exists row, matched r = Some row /\ id row = id (candidate scored_gadget)) /\
    f_confirmed (merged scanned_widgit (Some r)) = true /\
    f_match_source (merged scanned_widgit (Some r)) = Some TagMapping.
Proof.
apply (confirmed_suggestion_is_remembered Sample.silent_oracle
         Sample.stray_oracle 5 Sample.catalog_db (lit "Widgit A")
         scored_gadget scanned_widgit).
- repeat constructor; simpl; tauto.
- repeat constructor; simpl; lia.
- reflexivity.
- vm_compute. right. left. reflexivity.
Defined.


End PurchaseWitnesses.
